(** * lineards: a shallow embedding of [src/src/lineards.c]

    The library offers one position-indexed container of fixed-size
    elements with two storage strategies (a growable circular buffer and a
    singly linked chain) and one embedded iterator.  This file embeds the
    C functions as Rocq functions and proves (or refutes) the properties the
    specification states about them.

    Modelling conventions.
    - [size_t] is a 64-bit unsigned integer: a [Z] in [0, 2^64), every
      arithmetic operation of the source followed by [wrap].
    - An element is a block of [data_size] bytes.  Every address the vector
      code forms is [slot * data_size] and every length is a multiple of
      [data_size], so the buffer is a list of slots and [memmove], [memcpy]
      and [memcmp] are stated on slots.
    - Heap nodes live in a finite map from addresses to nodes; the node and
      its element copy (two [malloc]s in C, freed together) are one cell.
    - A function returns [None] where the C program has undefined behaviour
      (null dereference, division by zero, access outside the buffer).
    - The debug sink is detached (its state after construction), so
      [print_debug] does nothing. *)

From Stdlib Require Import ZArith Lia.
From Stdlib.Strings Require Import Byte.
From stdpp Require Import base decidable option list gmap.

Local Open Scope Z_scope.

(** ** Machine integers and bytes *)

Definition size_modulus : Z := 2 ^ 64.
Definition SIZE_MAX : Z := size_modulus - 1.

(** Reduction of a mathematical integer to its [size_t] value. *)
Definition wrap (z : Z) : Z := z mod size_modulus.

(** [a % b] on [size_t]; division by zero is undefined. *)
Definition umod (a b : Z) : option Z :=
  if b =? 0 then None else Some (a mod b).

#[global] Instance byte_eq_dec : EqDecision byte.
Proof.
  intros x y. destruct (Byte.eqb x y) eqn:E.
  - left. by apply Byte.byte_dec_bl.
  - right. intros ->. by rewrite Byte.byte_dec_lb in E.
Defined.

(** One element: the bytes behind a [void *]. *)
Definition block : Type := list byte.

(** [memcpy(dst, src, n)]: the [n] bytes that end up in [dst]. *)
Definition memcpy (src : block) (n : Z) : block := take (Z.to_nat n) src.

(** [memcmp(a, b, n) == 0]. *)
Definition memcmp_eq (a b : block) (n : Z) : bool :=
  bool_decide (take (Z.to_nat n) a = take (Z.to_nat n) b).

(** ** Enumerations of [lineards.h] *)

Inductive lds_return_t : Type :=
  | LDS_FAIL
  | LDS_SUCCESS
  | LDS_POS_ERR
  | LDS_NULL.

Inductive lds_type_t : Type :=
  | LDS_VECTOR
  | LDS_LINKED_LIST
  | LDS_UNKNOWN.

#[global] Instance lds_return_eq_dec : EqDecision lds_return_t.
Proof. solve_decision. Defined.

#[global] Instance lds_type_eq_dec : EqDecision lds_type_t.
Proof. solve_decision. Defined.

(** ** Structures of [lineards.c] *)

(** Address of a heap node. *)
Definition loc : Type := positive.

(** [struct Node]: the element copy it owns and the forward link. *)
Record Node : Type := mkNode {
  node_data : block;
  node_next : option loc
}.

(** [struct LDSIterator] without its function pointers, which are fixed at
    construction by the container type. *)
Record LDSIterator : Type := mkIt {
  it_position : Z;
  it_current : option loc;
  it_previous : option loc
}.

(** The [storage] union: the circular buffer or the chain ends. *)
Inductive Storage : Type :=
  | Vec (vector : list block) (head tail : Z)
  | Lst (first last : option loc).

(** [struct LinearDS]; the dispatch table is determined by [ds_type]. *)
Record LinearDS : Type := mkDS {
  ds_storage : Storage;
  ds_size : Z;
  ds_capacity : Z;
  ds_data_size : Z;
  ds_type : lds_type_t;
  ds_iterator : LDSIterator
}.

Definition set_storage (ds : LinearDS) (s : Storage) : LinearDS :=
  mkDS s (ds_size ds) (ds_capacity ds) (ds_data_size ds) (ds_type ds)
       (ds_iterator ds).
Definition set_size (ds : LinearDS) (n : Z) : LinearDS :=
  mkDS (ds_storage ds) n (ds_capacity ds) (ds_data_size ds) (ds_type ds)
       (ds_iterator ds).
Definition set_capacity (ds : LinearDS) (c : Z) : LinearDS :=
  mkDS (ds_storage ds) (ds_size ds) c (ds_data_size ds) (ds_type ds)
       (ds_iterator ds).
Definition set_iterator (ds : LinearDS) (it : LDSIterator) : LinearDS :=
  mkDS (ds_storage ds) (ds_size ds) (ds_capacity ds) (ds_data_size ds)
       (ds_type ds) it.

(** A pointer argument of which only nullness matters: a [LINEAR_DS *] or
    [LDS_ITERATOR *] (null, or the one container and its embedded
    iterator) and an output buffer. *)
Inductive ptr : Type :=
  | NULL
  | Ptr.

(** What the allocator answers to one request: failure, or memory whose
    fresh bytes read as [junk]. *)
Inductive alloc : Type :=
  | NoMem
  | Mem (junk : block).

(** ** Buffer primitives, on slots *)

(** [memmove(v + dst, v + src, n)] inside the buffer [v]. *)
Definition memmove (v : list block) (dst src n : Z) : option (list block) :=
  if decide (0 ≤ dst ∧ 0 ≤ src ∧ 0 ≤ n ∧
             dst + n ≤ Z.of_nat (length v) ∧ src + n ≤ Z.of_nat (length v))
  then Some (take (Z.to_nat dst) v
               ++ take (Z.to_nat n) (drop (Z.to_nat src) v)
               ++ drop (Z.to_nat (dst + n)) v)
  else None.

(** Read of slot [i]. *)
Definition load (v : list block) (i : Z) : option block :=
  if decide (0 ≤ i) then v !! Z.to_nat i else None.

(** [memcpy(v + i, b, data_size)]: overwrite slot [i]. *)
Definition store (v : list block) (i : Z) (b : block) : option (list block) :=
  if decide (0 ≤ i < Z.of_nat (length v))
  then Some (<[Z.to_nat i := b]> v)
  else None.

(** [realloc(v, n)]: the old slots are kept, new ones hold junk. *)
Definition realloc (v : list block) (n : Z) (a : alloc)
  : option (list block) :=
  match a with
  | NoMem => None
  | Mem junk =>
      Some (take (Z.to_nat n) v
              ++ replicate (Z.to_nat n - length v)%nat junk)
  end.

(** ** The vector strategy *)

(** Lines 316-332: growth of a full buffer.  [Some None] is the failed
    [realloc]. *)
Definition grow_vector (ds : LinearDS) (a : alloc)
  : option (option LinearDS) :=
  match ds_storage ds with
  | Lst _ _ => None
  | Vec vector head tail =>
      let new_capacity :=
        if 0 <? ds_capacity ds then wrap (ds_capacity ds * 2) else 1 in
      match realloc vector new_capacity a with
      | None => Some None
      | Some new_vector =>
          '(new_vector, tail) ←
            (if head >=? tail
             then v ← memmove new_vector (ds_capacity ds) 0 tail;
                  Some (v, wrap (ds_capacity ds + tail))
             else Some (new_vector, tail));
          Some (Some (set_capacity
                        (set_storage ds (Vec new_vector head tail))
                        new_capacity))
      end
  end.

(** Lines 334-372: the insert proper, on a buffer with a free slot. *)
Definition place_in_vector (ds : LinearDS) (position : Z) (value : block)
  : option (lds_return_t * LinearDS) :=
  match ds_storage ds with
  | Lst _ _ => None
  | Vec vector head tail =>
      let elt := memcpy value (ds_data_size ds) in
      '(vector, head, tail) ←
        (if position =? ds_size ds then
           v ← store vector tail elt;
           t ← umod (wrap (tail + 1)) (ds_capacity ds);
           Some (v, head, t)
         else if position =? 0 then
           h ← umod (wrap (wrap (head - 1) + ds_capacity ds))
                    (ds_capacity ds);
           v ← store vector h elt;
           Some (v, h, tail)
         else
           index ← umod (wrap (head + position)) (ds_capacity ds);
           v ← (if tail >? index then
                  memmove vector (wrap (index + 1)) index
                          (wrap (tail - index))
                else
                  v1 ← memmove vector 1 0 tail;
                  v2 ← memmove v1 0 (wrap (ds_capacity ds - 1)) 1;
                  memmove v2 (wrap (index + 1)) index
                          (wrap (wrap (ds_capacity ds - index) - 1)));
           v ← store v index elt;
           t ← umod (wrap (tail + 1)) (ds_capacity ds);
           Some (v, head, t));
      Some (LDS_SUCCESS,
            set_size (set_storage ds (Vec vector head tail))
                     (wrap (ds_size ds + 1)))
  end.

(** [insert_element_in_vector], lines 315-373. *)
Definition insert_element_in_vector (ds : LinearDS) (position : Z)
    (value : block) (a : alloc) : option (lds_return_t * LinearDS) :=
  if ds_size ds =? ds_capacity ds then
    g ← grow_vector ds a;
    match g with
    | None => Some (LDS_FAIL, ds)
    | Some ds' => place_in_vector ds' position value
    end
  else place_in_vector ds position value.

(** [remove_element_from_vector], lines 375-403.  The second component of
    the result is what was copied through [removed_element]. *)
Definition remove_element_from_vector (ds : LinearDS) (position : Z)
    (removed_element : ptr)
  : option (lds_return_t * option block * LinearDS) :=
  match ds_storage ds with
  | Lst _ _ => None
  | Vec vector head tail =>
      removed ←
        (match removed_element with
         | Ptr =>
             i ← umod (wrap (head + position)) (ds_capacity ds);
             b ← load vector i;
             Some (Some (memcpy b (ds_data_size ds)))
         | NULL => Some None
         end);
      '(vector, head, tail) ←
        (if position =? wrap (ds_size ds - 1) then
           t ← umod (wrap (wrap (tail - 1) + ds_capacity ds))
                    (ds_capacity ds);
           Some (vector, head, t)
         else if position =? 0 then
           h ← umod (wrap (head + 1)) (ds_capacity ds);
           Some (vector, h, tail)
         else
           index ← umod (wrap (head + position)) (ds_capacity ds);
           if tail >? index then
             v ← memmove vector index (wrap (index + 1))
                         (wrap (wrap (tail - index) - 1));
             t ← umod (wrap (wrap (tail - 1) + ds_capacity ds))
                      (ds_capacity ds);
             Some (v, head, t)
           else
             v ← memmove vector (wrap (head + 1)) head position;
             h ← umod (wrap (head + 1)) (ds_capacity ds);
             Some (v, h, tail));
      Some (LDS_SUCCESS, removed,
            set_size (set_storage ds (Vec vector head tail))
                     (wrap (ds_size ds - 1)))
  end.

(** [get_element_from_vector], lines 405-408. *)
Definition get_element_from_vector (ds : LinearDS) (position : Z)
  : option (lds_return_t * option block * LinearDS) :=
  match ds_storage ds with
  | Lst _ _ => None
  | Vec vector head tail =>
      i ← umod (wrap (head + position)) (ds_capacity ds);
      b ← load vector i;
      Some (LDS_SUCCESS, Some (memcpy b (ds_data_size ds)), ds)
  end.

(** [set_element_in_vector], lines 410-417. *)
Definition set_element_in_vector (ds : LinearDS) (position : Z)
    (value : block) : option (lds_return_t * LinearDS) :=
  match ds_storage ds with
  | Lst _ _ => None
  | Vec vector head tail =>
      i ← umod (wrap (head + position)) (ds_capacity ds);
      b ← load vector i;
      if memcmp_eq value b (ds_data_size ds) then Some (LDS_FAIL, ds)
      else
        v ← store vector i (memcpy value (ds_data_size ds));
        Some (LDS_SUCCESS, set_storage ds (Vec v head tail))
  end.

(** ** The world: the container and the node heap *)

Record World : Type := mkW {
  w_ds : LinearDS;
  w_heap : gmap loc Node
}.

Definition with_ds (w : World) (ds : LinearDS) : World := mkW ds (w_heap w).

(** [p->...] for a node pointer: null or dangling pointers have no node. *)
Definition deref (h : gmap loc Node) (p : option loc) : option Node :=
  l ← p; h !! l.

(** ** Iterator primitives of the list strategy *)

(** [it_reset_in_list], lines 665-670. *)
Definition it_reset_in_list (w : World) : option (lds_return_t * World) :=
  match ds_storage (w_ds w) with
  | Vec _ _ _ => None
  | Lst first _ =>
      Some (LDS_SUCCESS, with_ds w (set_iterator (w_ds w) (mkIt 0 first None)))
  end.

(** [it_next_in_list], lines 607-612. *)
Definition it_next_in_list (w : World) : option (lds_return_t * World) :=
  let it := ds_iterator (w_ds w) in
  cur ← deref (w_heap w) (it_current it);
  Some (LDS_SUCCESS,
        with_ds w (set_iterator (w_ds w)
                     (mkIt (wrap (it_position it + 1))
                           (node_next cur) (it_current it)))).

(** The [while] loop of [it_go_in_list]: every turn adds one to the
    position, so it runs [position - it->position] times. *)
Fixpoint it_next_times (n : nat) (w : World) : option World :=
  match n with
  | O => Some w
  | S n' => '(_, w') ← it_next_in_list w; it_next_times n' w'
  end.

(** [it_go_in_list], lines 677-685. *)
Definition it_go_in_list (w : World) (position : Z)
  : option (lds_return_t * World) :=
  w1 ← (if position <? it_position (ds_iterator (w_ds w))
        then '(_, w') ← it_reset_in_list w; Some w'
        else Some w);
  w2 ← it_next_times
         (Z.to_nat (position - it_position (ds_iterator (w_ds w1)))) w1;
  Some (LDS_SUCCESS, w2).

(** [it_add_in_list], lines 572-600. *)
Definition it_add_in_list (w : World) (value : block) (a : alloc)
  : option (lds_return_t * World) :=
  match a, ds_storage (w_ds w) with
  | NoMem, _ => Some (LDS_FAIL, w)
  | Mem _, Vec _ _ _ => None
  | Mem _, Lst first last =>
      let ds := w_ds w in
      let it := ds_iterator ds in
      let new_node := fresh (dom (w_heap w)) in
      let h := <[new_node :=
                   mkNode (memcpy value (ds_data_size ds)) (it_current it)]>
                 (w_heap w) in
      h ← (match it_previous it with
           | Some p =>
               prev ← h !! p;
               Some (<[p := mkNode (node_data prev) (Some new_node)]> h)
           | None => Some h
           end);
      let first :=
        if it_position it =? 0 then Some new_node else first in
      let last :=
        if it_position it =? ds_size ds then Some new_node else last in
      Some (LDS_SUCCESS,
            mkW (set_size
                   (set_iterator (set_storage ds (Lst first last))
                      (mkIt (it_position it) (Some new_node)
                            (it_previous it)))
                   (wrap (ds_size ds + 1)))
                h)
  end.

(** [it_get_from_list], lines 618-624. *)
Definition it_get_from_list (w : World)
  : option (lds_return_t * option block * World) :=
  let ds := w_ds w in
  if it_position (ds_iterator ds) >=? ds_size ds
  then Some (LDS_POS_ERR, None, w)
  else
    cur ← deref (w_heap w) (it_current (ds_iterator ds));
    Some (LDS_SUCCESS, Some (memcpy (node_data cur) (ds_data_size ds)), w).

(** [it_remove_from_list], lines 630-658. *)
Definition it_remove_from_list (w : World) (removed_element : ptr)
  : option (lds_return_t * option block * World) :=
  let ds := w_ds w in
  let it := ds_iterator ds in
  match it_current it, ds_storage ds with
  | None, _ => Some (LDS_POS_ERR, None, w)
  | Some _, Vec _ _ _ => None
  | Some removed, Lst first last =>
      rem ← w_heap w !! removed;
      let current := node_next rem in
      h ← (match it_previous it with
           | Some p =>
               prev ← w_heap w !! p;
               Some (<[p := mkNode (node_data prev) current]> (w_heap w))
           | None => Some (w_heap w)
           end);
      let first :=
        if bool_decide (first = Some removed) then current else first in
      let last :=
        if bool_decide (last = Some removed) then it_previous it else last in
      let copied :=
        match removed_element with
        | Ptr => Some (memcpy (node_data rem) (ds_data_size ds))
        | NULL => None
        end in
      Some (LDS_SUCCESS, copied,
            mkW (set_size
                   (set_iterator (set_storage ds (Lst first last))
                      (mkIt (it_position it) current (it_previous it)))
                   (wrap (ds_size ds - 1)))
                (delete removed h))
  end.

(** [it_set_in_list], lines 691-698. *)
Definition it_set_in_list (w : World) (value : block)
  : option (lds_return_t * World) :=
  let ds := w_ds w in
  l ← it_current (ds_iterator ds);
  cur ← w_heap w !! l;
  if memcmp_eq value (node_data cur) (ds_data_size ds)
  then Some (LDS_FAIL, w)
  else Some (LDS_SUCCESS,
             mkW ds (<[l := mkNode (memcpy value (ds_data_size ds))
                                   (node_next cur)]> (w_heap w))).

(** ** The list strategy, lines 423-453 *)

Definition insert_element_in_list (w : World) (position : Z) (value : block)
    (a : alloc) : option (lds_return_t * World) :=
  '(r, w) ← it_go_in_list w position;
  if decide (r = LDS_SUCCESS) then it_add_in_list w value a
  else Some (r, w).

Definition remove_element_from_list (w : World) (position : Z)
    (removed_element : ptr) : option (lds_return_t * option block * World) :=
  '(r, w) ← it_go_in_list w position;
  if decide (r = LDS_SUCCESS) then it_remove_from_list w removed_element
  else Some (r, None, w).

Definition get_element_from_list (w : World) (position : Z)
  : option (lds_return_t * option block * World) :=
  '(r, w) ← it_go_in_list w position;
  if decide (r = LDS_SUCCESS) then it_get_from_list w
  else Some (r, None, w).

Definition set_element_in_list (w : World) (position : Z) (value : block)
  : option (lds_return_t * World) :=
  '(r, w) ← it_go_in_list w position;
  if decide (r = LDS_SUCCESS) then it_set_in_list w value
  else Some (r, w).

(** ** Iterator primitives of the vector strategy *)

(** Lifting of a vector routine, which touches the container only. *)
Definition on_ds {A : Type} (w : World) (r : option (A * LinearDS))
  : option (A * World) :=
  '(x, ds) ← r; Some (x, with_ds w ds).

(** [it_add_in_vector], lines 568-570. *)
Definition it_add_in_vector (w : World) (value : block) (a : alloc)
  : option (lds_return_t * World) :=
  on_ds w (insert_element_in_vector (w_ds w)
             (it_position (ds_iterator (w_ds w))) value a).

(** [it_next_in_vector], lines 602-605. *)
Definition it_next_in_vector (w : World) : option (lds_return_t * World) :=
  let it := ds_iterator (w_ds w) in
  Some (LDS_SUCCESS,
        with_ds w (set_iterator (w_ds w)
                     (mkIt (wrap (it_position it + 1))
                           (it_current it) (it_previous it)))).

(** [it_get_from_vector], lines 614-616. *)
Definition it_get_from_vector (w : World)
  : option (lds_return_t * option block * World) :=
  on_ds w (get_element_from_vector (w_ds w)
             (it_position (ds_iterator (w_ds w)))).

(** [it_remove_from_vector], lines 626-628. *)
Definition it_remove_from_vector (w : World) (removed_element : ptr)
  : option (lds_return_t * option block * World) :=
  on_ds w (remove_element_from_vector (w_ds w)
             (it_position (ds_iterator (w_ds w))) removed_element).

(** [it_reset_in_vector], lines 660-663. *)
Definition it_reset_in_vector (w : World) : option (lds_return_t * World) :=
  let it := ds_iterator (w_ds w) in
  Some (LDS_SUCCESS,
        with_ds w (set_iterator (w_ds w)
                     (mkIt 0 (it_current it) (it_previous it)))).

(** [it_go_in_vector], lines 672-675. *)
Definition it_go_in_vector (w : World) (position : Z)
  : option (lds_return_t * World) :=
  let it := ds_iterator (w_ds w) in
  Some (LDS_SUCCESS,
        with_ds w (set_iterator (w_ds w)
                     (mkIt position (it_current it) (it_previous it)))).

(** [it_set_in_vector], lines 688-690. *)
Definition it_set_in_vector (w : World) (value : block)
  : option (lds_return_t * World) :=
  on_ds w (set_element_in_vector (w_ds w)
             (it_position (ds_iterator (w_ds w))) value).

(** ** Construction, lines 163-242 *)

(** [lds_new_vector]; [None] is the null result of a failed [malloc].  The
    slots of the new buffer hold junk. *)
Definition lds_new_vector (initial_capacity data_size : Z) (a : alloc)
  : option World :=
  match a with
  | NoMem => None
  | Mem junk =>
      Some (mkW (mkDS (Vec (replicate (Z.to_nat initial_capacity) junk) 0 0)
                      0 initial_capacity data_size LDS_VECTOR
                      (mkIt 0 None None))
                ∅)
  end.

(** [lds_new_list]; [None] is the null result of a failed [malloc].  The
    function never assigns [capacity], which keeps what the allocated
    memory held: [Some c] is a successful [malloc] of a block with [c] in
    that field. *)
Definition lds_new_list (data_size : Z) (m : option Z) : option World :=
  match m with
  | None => None
  | Some uninitialised =>
      Some (mkW (mkDS (Lst None None) 0 uninitialised data_size
                      LDS_LINKED_LIST (mkIt 0 None None))
                ∅)
  end.

(** ** The container interface, lines 244-304 and 466-484 *)

(** [ds->...] through a container pointer. *)
Definition deref_ds (ds : ptr) (w : World) : option LinearDS :=
  match ds with
  | NULL => None
  | Ptr => Some (w_ds w)
  end.

(** The dispatch table installed by the constructors. *)
Definition ds_insert (w : World) (position : Z) (value : block) (a : alloc)
  : option (lds_return_t * World) :=
  match ds_type (w_ds w) with
  | LDS_VECTOR =>
      on_ds w (insert_element_in_vector (w_ds w) position value a)
  | LDS_LINKED_LIST => insert_element_in_list w position value a
  | LDS_UNKNOWN => None
  end.

Definition ds_remove (w : World) (position : Z) (removed_element : ptr)
  : option (lds_return_t * option block * World) :=
  match ds_type (w_ds w) with
  | LDS_VECTOR =>
      on_ds w (remove_element_from_vector (w_ds w) position removed_element)
  | LDS_LINKED_LIST => remove_element_from_list w position removed_element
  | LDS_UNKNOWN => None
  end.

Definition ds_get (w : World) (position : Z)
  : option (lds_return_t * option block * World) :=
  match ds_type (w_ds w) with
  | LDS_VECTOR => on_ds w (get_element_from_vector (w_ds w) position)
  | LDS_LINKED_LIST => get_element_from_list w position
  | LDS_UNKNOWN => None
  end.

Definition ds_set (w : World) (position : Z) (value : block)
  : option (lds_return_t * World) :=
  match ds_type (w_ds w) with
  | LDS_VECTOR => on_ds w (set_element_in_vector (w_ds w) position value)
  | LDS_LINKED_LIST => set_element_in_list w position value
  | LDS_UNKNOWN => None
  end.

(** [lds_insert], lines 244-254. *)
Definition lds_insert (ds : ptr) (position : Z) (value : option block)
    (a : alloc) (w : World) : option (lds_return_t * World) :=
  match ds, value with
  | NULL, _ | _, None => Some (LDS_NULL, w)
  | Ptr, Some v =>
      if (position >? ds_size (w_ds w)) || (position <? 0)
      then Some (LDS_POS_ERR, w)
      else ds_insert w position v a
  end.

(** [lds_insert_last], lines 257-259: [ds->size] is read first. *)
Definition lds_insert_last (ds : ptr) (value : option block) (a : alloc)
    (w : World) : option (lds_return_t * World) :=
  d ← deref_ds ds w;
  lds_insert ds (ds_size d) value a w.

(** [lds_get], lines 261-271. *)
Definition lds_get (ds : ptr) (position : Z) (element : ptr) (w : World)
  : option (lds_return_t * option block * World) :=
  match ds, element with
  | NULL, _ | _, NULL => Some (LDS_NULL, None, w)
  | Ptr, Ptr =>
      if (position >=? ds_size (w_ds w)) || (position <? 0)
      then Some (LDS_POS_ERR, None, w)
      else ds_get w position
  end.

(** [lds_set], lines 273-283. *)
Definition lds_set (ds : ptr) (position : Z) (value : option block)
    (w : World) : option (lds_return_t * World) :=
  match ds, value with
  | NULL, _ | _, None => Some (LDS_NULL, w)
  | Ptr, Some v =>
      if (position >=? ds_size (w_ds w)) || (position <? 0)
      then Some (LDS_POS_ERR, w)
      else ds_set w position v
  end.

(** [lds_remove], lines 285-295. *)
Definition lds_remove (ds : ptr) (position : Z) (removed_element : ptr)
    (w : World) : option (lds_return_t * option block * World) :=
  match ds with
  | NULL => Some (LDS_NULL, None, w)
  | Ptr =>
      if (position >=? ds_size (w_ds w)) || (position <? 0)
      then Some (LDS_POS_ERR, None, w)
      else ds_remove w position removed_element
  end.

(** [lds_remove_last], lines 297-304. *)
Definition lds_remove_last (ds : ptr) (removed_element : ptr) (w : World)
  : option (lds_return_t * option block * World) :=
  match ds with
  | NULL => Some (LDS_NULL, None, w)
  | Ptr => ds_remove w (wrap (ds_size (w_ds w) - 1)) removed_element
  end.

(** [lds_size], lines 466-468. *)
Definition lds_size (ds : ptr) (w : World) : Z :=
  match ds with
  | NULL => 0
  | Ptr => ds_size (w_ds w)
  end.

(** [lds_capacity], lines 474-476: the condition is
    [ds != NULL || ds->type == LDS_VECTOR]. *)
Definition lds_capacity (ds : ptr) (w : World) : option Z :=
  c ← (match ds with
       | Ptr => Some true
       | NULL =>
           d ← deref_ds ds w;
           Some (bool_decide (ds_type d = LDS_VECTOR))
       end);
  if c : bool then d ← deref_ds ds w; Some (ds_capacity d) else Some 0.


(** [lds_type], lines 482-484. *)
Definition lds_type (ds : ptr) (w : World) : lds_type_t :=
  match ds with
  | NULL => LDS_UNKNOWN
  | Ptr => ds_type (w_ds w)
  end.

(** ** The iterator interface, lines 487-566 *)

(** [lds_iterator], lines 487-489: the address of the embedded iterator
    (for a null container the C result is not a usable pointer). *)
Definition lds_iterator (ds : ptr) : ptr := ds.

(** [lds_it_position], lines 491-493. *)
Definition lds_it_position (it : ptr) (w : World) : option Z :=
  d ← deref_ds it w; Some (it_position (ds_iterator d)).

(** [lds_it_add], lines 495-500. *)
Definition lds_it_add (it : ptr) (value : option block) (a : alloc)
    (w : World) : option (lds_return_t * World) :=
  match it, value with
  | NULL, _ | _, None => Some (LDS_NULL, w)
  | Ptr, Some v =>
      match ds_type (w_ds w) with
      | LDS_VECTOR => it_add_in_vector w v a
      | LDS_LINKED_LIST => it_add_in_list w v a
      | LDS_UNKNOWN => None
      end
  end.

(** [lds_it_next], lines 502-510. *)
Definition lds_it_next (it : ptr) (w : World)
  : option (lds_return_t * World) :=
  match it with
  | NULL => Some (LDS_NULL, w)
  | Ptr =>
      if it_position (ds_iterator (w_ds w)) =? ds_size (w_ds w)
      then Some (LDS_POS_ERR, w)
      else match ds_type (w_ds w) with
           | LDS_VECTOR => it_next_in_vector w
           | LDS_LINKED_LIST => it_next_in_list w
           | LDS_UNKNOWN => None
           end
  end.

(** [lds_it_has_next], lines 512-517. *)
Definition lds_it_has_next (it : ptr) (w : World) : lds_return_t :=
  match it with
  | NULL => LDS_NULL
  | Ptr =>
      if it_position (ds_iterator (w_ds w)) <? ds_size (w_ds w)
      then LDS_SUCCESS else LDS_FAIL
  end.

(** [lds_it_get], lines 519-527. *)
Definition lds_it_get (it : ptr) (element : ptr) (w : World)
  : option (lds_return_t * option block * World) :=
  match it, element with
  | NULL, _ | _, NULL => Some (LDS_NULL, None, w)
  | Ptr, Ptr =>
      if it_position (ds_iterator (w_ds w)) =? ds_size (w_ds w)
      then Some (LDS_POS_ERR, None, w)
      else match ds_type (w_ds w) with
           | LDS_VECTOR => it_get_from_vector w
           | LDS_LINKED_LIST => it_get_from_list w
           | LDS_UNKNOWN => None
           end
  end.

(** [lds_it_set], lines 530-538. *)
Definition lds_it_set (it : ptr) (value : option block) (w : World)
  : option (lds_return_t * World) :=
  match it, value with
  | NULL, _ | _, None => Some (LDS_NULL, w)
  | Ptr, Some v =>
      if it_position (ds_iterator (w_ds w)) =? ds_size (w_ds w)
      then Some (LDS_POS_ERR, w)
      else match ds_type (w_ds w) with
           | LDS_VECTOR => it_set_in_vector w v
           | LDS_LINKED_LIST => it_set_in_list w v
           | LDS_UNKNOWN => None
           end
  end.

(** [lds_it_remove], lines 540-548. *)
Definition lds_it_remove (it : ptr) (removed_element : ptr) (w : World)
  : option (lds_return_t * option block * World) :=
  match it with
  | NULL => Some (LDS_NULL, None, w)
  | Ptr =>
      if it_position (ds_iterator (w_ds w)) =? ds_size (w_ds w)
      then Some (LDS_POS_ERR, None, w)
      else match ds_type (w_ds w) with
           | LDS_VECTOR => it_remove_from_vector w removed_element
           | LDS_LINKED_LIST => it_remove_from_list w removed_element
           | LDS_UNKNOWN => None
           end
  end.

(** [lds_it_reset], lines 550-555. *)
Definition lds_it_reset (it : ptr) (w : World)
  : option (lds_return_t * World) :=
  match it with
  | NULL => Some (LDS_NULL, w)
  | Ptr =>
      match ds_type (w_ds w) with
      | LDS_VECTOR => it_reset_in_vector w
      | LDS_LINKED_LIST => it_reset_in_list w
      | LDS_UNKNOWN => None
      end
  end.

(** [lds_it_go], lines 558-566. *)
Definition lds_it_go (it : ptr) (pos : Z) (w : World)
  : option (lds_return_t * World) :=
  match it with
  | NULL => Some (LDS_NULL, w)
  | Ptr =>
      if pos >? ds_size (w_ds w) then Some (LDS_POS_ERR, w)
      else match ds_type (w_ds w) with
           | LDS_VECTOR => it_go_in_vector w pos
           | LDS_LINKED_LIST => it_go_in_list w pos
           | LDS_UNKNOWN => None
           end
  end.

(** ** The logical sequence

    The traversal of [print_debug], lines 139-153: slot
    [(head + i) % capacity] for each [i < size] in the vector, a walk of
    [size] nodes from [first] in the list.  Each element is read as [lds_get]
    copies it out. *)

Definition vector_element (ds : LinearDS) (i : Z) : option block :=
  match ds_storage ds with
  | Lst _ _ => None
  | Vec vector head _ =>
      idx ← umod (wrap (head + i)) (ds_capacity ds);
      b ← load vector idx;
      Some (memcpy b (ds_data_size ds))
  end.

Fixpoint chain_elements (h : gmap loc Node) (n : Z) (p : option loc)
    (k : nat) : option (list block) :=
  match k with
  | O => Some []
  | S k' =>
      nd ← deref h p;
      rest ← chain_elements h n (node_next nd) k';
      Some (memcpy (node_data nd) n :: rest)
  end.

Definition contents (w : World) : option (list block) :=
  let ds := w_ds w in
  match ds_storage ds with
  | Vec _ _ _ => mapM (vector_element ds) (seqZ 0 (ds_size ds))
  | Lst first _ =>
      chain_elements (w_heap w) (ds_data_size ds) first
                     (Z.to_nat (ds_size ds))
  end.

(** ** The reference ordered sequence

    Follows the specification's words: an ordered sequence on which
    [insert] puts the value before the element at the position, [remove]
    deletes the element at the position and [set] overwrites it. *)

Definition ref_insert (pos : Z) (v : block) (l : list block) : list block :=
  take (Z.to_nat pos) l ++ v :: drop (Z.to_nat pos) l.

Definition ref_remove (pos : Z) (l : list block) : list block :=
  take (Z.to_nat pos) l ++ drop (S (Z.to_nat pos)) l.

Definition ref_set (pos : Z) (v : block) (l : list block) : list block :=
  <[Z.to_nat pos := v]> l.

(** One mutating call of the container interface. *)
Inductive op : Type :=
  | Insert (pos : Z) (v : block) (a : alloc)
  | Remove (pos : Z) (out : ptr)
  | Set_ (pos : Z) (v : block).

(** The call on the engine. *)
Definition run_op (o : op) (w : World) : option (lds_return_t * World) :=
  match o with
  | Insert pos v a => lds_insert Ptr pos (Some v) a w
  | Remove pos out => '(r, _, w') ← lds_remove Ptr pos out w; Some (r, w')
  | Set_ pos v => lds_set Ptr pos (Some v) w
  end.

(** The same call on the reference sequence; a call that reported no
    success (allocation failure) is not replayed. *)
Definition ref_op (o : op) (r : lds_return_t) (l : list block)
  : list block :=
  match o with
  | Insert pos v _ => if decide (r = LDS_SUCCESS) then ref_insert pos v l else l
  | Remove pos _ => ref_remove pos l
  | Set_ pos v => ref_set pos v l
  end.

(** The slot of logical position [p]: physical slot
    [(head + p) mod capacity]. *)
Definition slot (ds : LinearDS) (p : Z) : option block :=
  match ds_storage ds with
  | Lst _ _ => None
  | Vec vector head _ => load vector ((head + p) mod ds_capacity ds)
  end.

(** [describes l n f]: the sequence [l] has [n] elements, the one at
    position [p] being [f p]. *)
Definition describes (l : list block) (n : Z) (f : Z → option block) : Prop :=
  Z.of_nat (length l) = n ∧ ∀ p, 0 ≤ p < n → l !! Z.to_nat p = f p.

(** The element of logical position [p] as [lds_get] copies it out. *)
Definition element (ds : LinearDS) (p : Z) : option block :=
  b ← slot ds p; Some (memcpy b (ds_data_size ds)).

(** ** Well-formed states *)

(** No buffer has more than [2^63] slots, so index sums stay below
    [2^64]. *)
Definition cap_limit : Z := 2 ^ 63.

(** The data-model invariant of the circular buffer: the buffer has
    [capacity] slots, [size] of them in use, [head] is a slot and [tail] is
    [size] slots after it, modulo [capacity]. *)
Definition wf_vector (ds : LinearDS) : Prop :=
  ds_type ds = LDS_VECTOR ∧
  match ds_storage ds with
  | Lst _ _ => False
  | Vec vector head tail =>
      Z.of_nat (length vector) = ds_capacity ds ∧
      0 ≤ ds_size ds ≤ ds_capacity ds ∧
      ds_capacity ds ≤ cap_limit ∧
      ((ds_capacity ds = 0 ∧ head = 0 ∧ tail = 0) ∨
       (0 ≤ head < ds_capacity ds ∧
        tail = (head + ds_size ds) mod ds_capacity ds))
  end.

(** [seg h p ns q]: following [next] from [p] visits exactly the nodes
    [ns] (address and element of each) and arrives at [q]. *)
Fixpoint seg (h : gmap loc Node) (p : option loc) (ns : list (loc * block))
    (q : option loc) : Prop :=
  match ns with
  | [] => p = q
  | (l, b) :: ns' =>
      p = Some l ∧ ∃ nx, h !! l = Some (mkNode b nx) ∧ seg h nx ns' q
  end.

(** A chain from [p] to null. *)
Definition chain (h : gmap loc Node) (p : option loc)
    (ns : list (loc * block)) : Prop :=
  seg h p ns None.

(** The iterator standing at position [k] of the chain [ns]: [current] is
    the node [k] steps from [first] (none after the last), [previous] the
    node before it (none at position 0). *)
Definition cursor_for (ns : list (loc * block)) (k : Z) : LDSIterator :=
  mkIt k (fst <$> ns !! Z.to_nat k)
       (if decide (k = 0) then None else fst <$> ns !! Z.to_nat (k - 1)).

Definition cursor_at (ns : list (loc * block)) (it : LDSIterator) : Prop :=
  0 ≤ it_position it ≤ Z.of_nat (length ns) ∧
  it = cursor_for ns (it_position it).

(** The data-model invariant of the linked list and its iterator, for the
    chain of nodes [ns]. *)
Definition wf_list_with (w : World) (ns : list (loc * block)) : Prop :=
  let ds := w_ds w in
  ds_type ds = LDS_LINKED_LIST ∧
  match ds_storage ds with
  | Vec _ _ _ => False
  | Lst first last_ =>
      chain (w_heap w) first ns ∧ NoDup ns.*1 ∧
      Z.of_nat (length ns) = ds_size ds ∧
      ds_size ds < SIZE_MAX ∧
      last_ = last ns.*1 ∧
      cursor_at ns (ds_iterator ds)
  end.

Definition wf_list (w : World) : Prop := ∃ ns, wf_list_with w ns.

(** The world with its iterator replaced. *)
Definition move_cursor (w : World) (it : LDSIterator) : World :=
  with_ds w (set_iterator (w_ds w) it).

(** A well-formed container of either kind. *)
Definition wf (w : World) : Prop :=
  match ds_type (w_ds w) with
  | LDS_VECTOR => wf_vector (w_ds w)
  | LDS_LINKED_LIST => wf_list w
  | LDS_UNKNOWN => False
  end.

(** The iterator invariant of the specification: the position is within
    [0, size] and, for the list, the node handles agree with a walk from
    [first]. *)
Definition cursor_ok (w : World) : Prop :=
  let ds := w_ds w in
  0 ≤ it_position (ds_iterator ds) ≤ ds_size ds ∧
  match ds_storage ds with
  | Vec _ _ _ => True
  | Lst first _ =>
      ∃ ns, chain (w_heap w) first ns ∧ Z.of_nat (length ns) = ds_size ds ∧
            cursor_at ns (ds_iterator ds)
  end.

(** Room for one more element without leaving the machine's range: a full
    buffer can double, a chain can count one more node. *)
Definition room (w : World) : Prop :=
  match ds_type (w_ds w) with
  | LDS_VECTOR =>
      ds_size (w_ds w) = ds_capacity (w_ds w) →
      2 * ds_capacity (w_ds w) ≤ cap_limit
  | LDS_LINKED_LIST => ds_size (w_ds w) + 1 < SIZE_MAX
  | LDS_UNKNOWN => False
  end.

(** [lds_get] reads the sequence [l]: the size is its length and every
    position in range returns its element. *)
Definition reads_as (w : World) (l : list block) : Prop :=
  Z.of_nat (length l) = ds_size (w_ds w) ∧
  ∀ p, 0 ≤ p < Z.of_nat (length l) →
    ∃ w', lds_get Ptr p Ptr w = Some (LDS_SUCCESS, l !! Z.to_nat p, w').

(** A container as one of the two constructors returns it, for elements of
    [dsz] bytes. *)
Definition created (dsz : Z) (w : World) : Prop :=
  (∃ initial_capacity a,
      0 ≤ initial_capacity ≤ cap_limit ∧
      lds_new_vector initial_capacity dsz a = Some w) ∨
  (∃ m, lds_new_list dsz m = Some w).

(** ** Calls with valid arguments, and lockstep runs *)

(** Valid arguments for a call when the sequence has the elements [l]:
    a position in range and a value of [data_size] bytes. *)
Definition valid_op (dsz : Z) (o : op) (l : list block) : bool :=
  match o with
  | Insert pos v _ =>
      bool_decide (0 ≤ pos ≤ Z.of_nat (length l) ∧ Z.of_nat (length v) = dsz)
  | Remove pos _ => bool_decide (0 ≤ pos < Z.of_nat (length l))
  | Set_ pos v =>
      bool_decide (0 ≤ pos < Z.of_nat (length l) ∧ Z.of_nat (length v) = dsz)
  end.

(** Every call of the trace has valid arguments for the sequence it meets. *)
Fixpoint trace_valid (dsz : Z) (ops : list op) (w : World) (l : list block)
  : bool :=
  match ops with
  | [] => true
  | o :: ops' =>
      valid_op dsz o l &&
      match run_op o w with
      | Some (r, w') => trace_valid dsz ops' w' (ref_op o r l)
      | None => true
      end
  end.

(** After every call the engine returns, its contents are those of the
    reference sequence and [lds_get] reads them. *)
Fixpoint trace_agrees (ops : list op) (w : World) (l : list block) : Prop :=
  match ops with
  | [] => True
  | o :: ops' =>
      ∃ r w', run_op o w = Some (r, w') ∧
              contents w' = Some (ref_op o r l) ∧
              reads_as w' (ref_op o r l) ∧
              trace_agrees ops' w' (ref_op o r l)
  end.

(** The logical sequence crosses the physical end of the buffer. *)
Definition wrapped (ds : LinearDS) : Prop :=
  match ds_storage ds with
  | Lst _ _ => False
  | Vec _ head _ => ds_capacity ds < head + ds_size ds
  end.

(** ** Further functions of [lineards.c] and the loops of its callers *)

(** [lds_empty], lines 470-472. *)
Definition lds_empty (ds : ptr) (w : World) : bool :=
  match ds with
  | NULL => false
  | Ptr => ds_size (w_ds w) =? 0
  end.

(** The stack interface, lines 701-711. *)
Definition lds_stack_push (ds : ptr) (value : option block) (a : alloc)
    (w : World) : option (lds_return_t * World) :=
  lds_insert ds 0 value a w.

Definition lds_stack_pop (ds : ptr) (removed_element : ptr) (w : World)
  : option (lds_return_t * option block * World) :=
  lds_remove ds 0 removed_element w.

Definition lds_stack_peek (ds : ptr) (top : ptr) (w : World)
  : option (lds_return_t * option block * World) :=
  lds_get ds 0 top w.

(** The queue interface, lines 714-724. *)
Definition lds_enqueue (ds : ptr) (value : option block) (a : alloc)
    (w : World) : option (lds_return_t * World) :=
  lds_insert_last ds value a w.

Definition lds_dequeue (ds : ptr) (removed_element : ptr) (w : World)
  : option (lds_return_t * option block * World) :=
  lds_remove ds 0 removed_element w.

Definition lds_queue_front (ds : ptr) (front : ptr) (w : World)
  : option (lds_return_t * option block * World) :=
  lds_get ds 0 front w.

(** The result of a loop run with a bound on its turns: it ends, it meets
    undefined behaviour, or the bound is too small. *)
Inductive outcome (A : Type) : Type :=
  | Done (x : A)
  | Undefined
  | OutOfFuel.
Arguments Done {A} x.
Arguments Undefined {A}.
Arguments OutOfFuel {A}.

(** A call inside a loop. *)
Definition run {A B : Type} (c : option A) (k : A → outcome B) : outcome B :=
  match c with
  | Some x => k x
  | None => Undefined
  end.

(** [free_list], lines 455-463: walks the chain from [first], releasing
    each node after reading its [next]. *)
Fixpoint free_list_loop (fuel : nat) (h : gmap loc Node)
    (current : option loc) : outcome (gmap loc Node) :=
  match fuel with
  | O => OutOfFuel
  | S fuel' =>
      match current with
      | None => Done h
      | Some l =>
          run (h !! l) (λ nd,
            free_list_loop fuel' (delete l h) (node_next nd))
      end
  end.

(** [print_debug] as [lds_free] calls it, before its null check: compiled
    out under [NDEBUG] (lines 113-114), it otherwise reads [ds->debug_log]
    (line 122), and prints nothing while the sink is detached. *)
Definition print_debug (ndebug : bool) (ds : ptr) (w : World) : option unit :=
  if ndebug then Some tt else _ ← deref_ds ds w; Some tt.

(** [lds_free], lines 306-312, with [free_vector] and [free_list]: the
    container and its buffer are gone afterwards; the result is what is left
    of the node heap. *)
Definition lds_free (ndebug : bool) (fuel : nat) (ds : ptr) (w : World)
  : outcome (gmap loc Node) :=
  run (print_debug ndebug ds w) (λ _,
    match ds with
    | NULL => Done (w_heap w)
    | Ptr =>
        match ds_type (w_ds w), ds_storage (w_ds w) with
        | LDS_VECTOR, Vec _ _ _ => Done (w_heap w)
        | LDS_LINKED_LIST, Lst first _ =>
            free_list_loop fuel (w_heap w) first
        | _, _ => Undefined
        end
    end).

(** The loop of the iterator example of [lineards.h], lines 153-155:
    [for (lds_it_reset(it); lds_it_get(it, &element) == LDS_SUCCESS;
    lds_it_next(it)) printf(element)].  The result is what was printed and
    the final world. *)
Fixpoint it_loop (fuel : nat) (w : World) : outcome (list block * World) :=
  match fuel with
  | O => OutOfFuel
  | S fuel' =>
      run (lds_it_get Ptr Ptr w) (λ '(r, element, w1),
        match r, element with
        | LDS_SUCCESS, Some e =>
            run (lds_it_next Ptr w1) (λ '(_, w2),
              match it_loop fuel' w2 with
              | Done (printed, w3) => Done (e :: printed, w3)
              | o => o
              end)
        | LDS_SUCCESS, None => Undefined
        | _, _ => Done ([], w1)
        end)
  end.

Definition it_for_each (fuel : nat) (w : World)
  : outcome (list block * World) :=
  run (lds_it_reset Ptr w) (λ '(_, w1), it_loop fuel w1).

(** The loop of [samples/int_stack.c], lines 20-23, and of the queue
    sample: [while (!lds_empty(s)) { lds_stack_pop(s, &e); printf(e); }].
    [e] keeps its value when the call copies nothing out; [lds_dequeue] is
    the same call. *)
Fixpoint drain (fuel : nat) (w : World) (e : block)
  : outcome (list block * World) :=
  match fuel with
  | O => OutOfFuel
  | S fuel' =>
      if lds_empty Ptr w then Done ([], w)
      else
        run (lds_stack_pop Ptr Ptr w) (λ '(_, copied, w1),
          let e := default e copied in
          match drain fuel' w1 e with
          | Done (printed, w2) => Done (e :: printed, w2)
          | o => o
          end)
  end.

(** The loop of [samples/string_list.c], lines 27-30:
    [for (i = 0; i < lds_size(l); i++) { lds_get(l, i, &fruit);
    printf(fruit); }].  [i] is an [int]: counting past [INT_MAX] is
    undefined. *)
Definition INT_MAX : Z := 2 ^ 31 - 1.

Fixpoint print_all (fuel : nat) (w : World) (i : Z) (e : block)
  : outcome (list block * World) :=
  match fuel with
  | O => OutOfFuel
  | S fuel' =>
      if i <? lds_size Ptr w then
        run (lds_get Ptr i Ptr w) (λ '(_, copied, w1),
          let e := default e copied in
          if INT_MAX <? i + 1 then Undefined
          else
            match print_all fuel' w1 (i + 1) e with
            | Done (printed, w2) => Done (e :: printed, w2)
            | o => o
            end)
      else Done ([], w)
  end.


(** The position a call is given. *)
Definition op_position (o : op) : Z :=
  match o with
  | Insert pos _ _ | Remove pos _ | Set_ pos _ => pos
  end.



(** ** Example containers

    Elements are 4-byte little-endian integers, as in the example of the
    specification. *)

Definition e10 : block := [x0a; x00; x00; x00].
Definition e20 : block := [x14; x00; x00; x00].
Definition e30 : block := [x1e; x00; x00; x00].
Definition e40 : block := [x28; x00; x00; x00].
Definition junk4 : block := [xff; xff; xff; xff].

(** [lds_new_vector(2, 4)]. *)
Definition ex_new_vector : World :=
  mkW (mkDS (Vec [junk4; junk4] 0 0) 0 2 4 LDS_VECTOR (mkIt 0 None None)) ∅.

(** [lds_new_list(4)] in memory that held 7 where [capacity] lies. *)
Definition ex_new_list : World :=
  mkW (mkDS (Lst None None) 0 7 4 LDS_LINKED_LIST (mkIt 0 None None)) ∅.

(** The example of the specification, on a buffer that has to grow:
    10, 20, 30 inserted at position 0, [remove(1)], then 40 appended. *)
Definition ex_trace : list op :=
  [Insert 0 e10 (Mem junk4); Insert 0 e20 (Mem junk4);
   Insert 0 e30 (Mem junk4); Remove 1 Ptr; Insert 2 e40 (Mem junk4);
   Set_ 0 e40; Insert 1 e20 NoMem].

(** A buffer of four slots holding 10, 20, 30 from slot 2 on, so that 30
    sits in slot 0. *)
Definition ex_wrapped : World :=
  mkW (mkDS (Vec [e30; junk4; e10; e20] 2 1) 3 4 4 LDS_VECTOR
            (mkIt 0 None None)) ∅.

(** The same sequence from slot 0 on. *)
Definition ex_unwrapped : World :=
  mkW (mkDS (Vec [e10; e20; e30; junk4] 0 3) 3 4 4 LDS_VECTOR
            (mkIt 0 None None)) ∅.

(** A full buffer of four slots holding 10, 20, 30, 40 from slot 2 on. *)
Definition ex_full : World :=
  mkW (mkDS (Vec [e30; e40; e10; e20] 2 2) 4 4 4 LDS_VECTOR
            (mkIt 0 None None)) ∅.

(** The list holding 10, 20, 30 with its iterator on the last element. *)
Definition ex_list : World :=
  mkW (mkDS (Lst (Some 1%positive) (Some 3%positive)) 3 7 4 LDS_LINKED_LIST
            (mkIt 2 (Some 3%positive) (Some 2%positive)))
      (<[1%positive := mkNode e10 (Some 2%positive)]>
         (<[2%positive := mkNode e20 (Some 3%positive)]>
            (<[3%positive := mkNode e30 None]> ∅))).

(** * Properties *)

(** ** Arithmetic of [size_t] and of indices modulo the capacity *)

Lemma wrap_small z : 0 ≤ z < size_modulus → wrap z = z.
Proof. intros. unfold wrap. by apply Z.mod_small. Qed.

Lemma wrap_add_l a b : wrap (wrap a + b) = wrap (a + b).
Proof. unfold wrap. by rewrite Zplus_mod_idemp_l. Qed.

Lemma wrap_sub_l a b : wrap (wrap a - b) = wrap (a - b).
Proof. unfold wrap. by rewrite Zminus_mod_idemp_l. Qed.

Lemma mod_cases x c :
  0 ≤ x < 2 * c →
  (x < c ∧ x mod c = x) ∨ (c ≤ x ∧ x mod c = x - c).
Proof.
  intros H. destruct (decide (x < c)) as [Hlt|Hge].
  - left. split; [done|]. apply Z.mod_small. lia.
  - right. split; [lia|].
    replace x with ((x - c) + 1 * c) at 1 by lia.
    rewrite Z.mod_add by lia. apply Z.mod_small. lia.
Qed.


Lemma umod_Some a b : b ≠ 0 → umod a b = Some (a mod b).
Proof. intros H. unfold umod. by rewrite (proj2 (Z.eqb_neq b 0) H). Qed.

(** ** Buffer primitives *)

Lemma memmove_length v dst src n v' :
  memmove v dst src n = Some v' → length v' = length v.
Proof.
  unfold memmove. case_decide as H; [|done]. intros [= <-].
  rewrite !length_app, !length_take, !length_drop. lia.
Qed.

Lemma load_memmove v dst src n v' i :
  memmove v dst src n = Some v' →
  load v' i =
    if decide (dst ≤ i < dst + n) then load v (i - dst + src) else load v i.
Proof.
  unfold memmove. case_decide as H; [|done]. intros [= <-].
  unfold load. destruct (decide (0 ≤ i)) as [Hi|Hi].
  - case_decide as Hr.
    + rewrite decide_True by lia.
      rewrite lookup_app_r by (rewrite length_take; lia).
      rewrite length_take, lookup_app_l
        by (rewrite length_take, length_drop; lia).
      rewrite lookup_take_lt by lia. rewrite lookup_drop. f_equal. lia.
    + destruct (decide (i < dst)) as [Hlt|Hge].
      * rewrite lookup_app_l by (rewrite length_take; lia).
        rewrite lookup_take_lt by lia. done.
      * rewrite lookup_app_r by (rewrite length_take; lia).
        rewrite lookup_app_r
          by (rewrite !length_take, length_drop; lia).
        rewrite lookup_drop, !length_take, length_drop. f_equal. lia.
  - case_decide; [|done]. rewrite decide_False by lia. done.
Qed.

Lemma memmove_Some v dst src n :
  0 ≤ dst → 0 ≤ src → 0 ≤ n →
  dst + n ≤ Z.of_nat (length v) → src + n ≤ Z.of_nat (length v) →
  ∃ v', memmove v dst src n = Some v'.
Proof. intros. unfold memmove. rewrite decide_True by lia. eauto. Qed.

Lemma store_length v i b v' : store v i b = Some v' → length v' = length v.
Proof.
  unfold store. case_decide; [|done]. intros [= <-]. apply length_insert.
Qed.

Lemma load_store v i b v' j :
  store v i b = Some v' →
  load v' j = if decide (j = i) then Some b else load v j.
Proof.
  unfold store. case_decide as H; [|done]. intros [= <-]. unfold load.
  destruct (decide (j = i)) as [->|Hj].
  - rewrite decide_True by lia. apply list_lookup_insert_eq. lia.
  - destruct (decide (0 ≤ j)); [|done].
    apply list_lookup_insert_ne. lia.
Qed.

Lemma store_Some v i b :
  0 ≤ i < Z.of_nat (length v) → ∃ v', store v i b = Some v'.
Proof. intros. unfold store. rewrite decide_True by lia. eauto. Qed.

Lemma load_Some v i : 0 ≤ i < Z.of_nat (length v) → is_Some (load v i).
Proof.
  intros. unfold load. rewrite decide_True by lia.
  apply lookup_lt_is_Some. lia.
Qed.

(** ** The vector strategy

    Index goals are closed by splitting every [x mod c] into the two cases
    [x < c] and [c ≤ x < 2c]. *)

Ltac mod_bounds :=
  repeat match goal with
  | |- context [?x mod ?c] =>
      lazymatch goal with
      | _ : 0 ≤ x mod c < c |- _ => fail
      | _ => pose proof (Z.mod_pos_bound x c ltac:(lia))
      end
  | _ : context [?x mod ?c] |- _ =>
      lazymatch goal with
      | _ : 0 ≤ x mod c < c |- _ => fail
      | _ => pose proof (Z.mod_pos_bound x c ltac:(lia))
      end
  end.

Ltac mod_elim_one x c :=
  let m := fresh "m" in
  let Hm := fresh "Hm" in
  assert (Hm : (x < c ∧ x mod c = x) ∨ (c ≤ x ∧ x mod c = x - c))
    by (apply mod_cases; lia);
  set (m := x mod c) in *; clearbody m;
  destruct Hm as [[? ?]|[? ?]].

Ltac mod_elim :=
  match goal with
  | |- context [?x mod ?c] => mod_elim_one x c
  | _ : context [?x mod ?c] |- _ => mod_elim_one x c
  end.

Ltac solve_idx := mod_bounds; repeat mod_elim; lia.

Ltac unwrap :=
  rewrite ?wrap_add_l, ?wrap_sub_l;
  rewrite ?wrap_small by (unfold size_modulus, cap_limit in *; solve_idx).

Ltac fin :=
  repeat case_decide; try done; try solve_idx; try (f_equal; solve_idx).

Lemma place_in_vector_spec ds pos value :
  wf_vector ds → ds_size ds < ds_capacity ds → 0 ≤ pos ≤ ds_size ds →
  ∃ ds', place_in_vector ds pos value = Some (LDS_SUCCESS, ds') ∧
    wf_vector ds' ∧ ds_size ds' = ds_size ds + 1 ∧
    ds_capacity ds' = ds_capacity ds ∧ ds_data_size ds' = ds_data_size ds ∧
    ds_iterator ds' = ds_iterator ds ∧
    ∀ p, 0 ≤ p ≤ ds_size ds →
      slot ds' p =
        if decide (p < pos) then slot ds p
        else if decide (p = pos) then Some (memcpy value (ds_data_size ds))
        else slot ds (p - 1).
Proof.
  destruct ds as [[v h t|] n c dsz ty it]; unfold wf_vector, place_in_vector, slot;
    simpl; [|intros [? []]].
  intros (Hty & Hlen & Hn & Hc & Hht) Hfree Hpos.
  destruct Hht as [(? & ? & ?)|(Hh & Ht)]; [lia|].
  assert (Hc' : c ≤ 2 ^ 63) by exact Hc.
  assert (Hc0 : c ≠ 0) by lia.
  assert (Htb : 0 ≤ t < c) by (subst t; apply Z.mod_pos_bound; lia).
  set (elt := memcpy value dsz).
  destruct (Z.eqb_spec pos n) as [->|Hne].
  - (* append *)
    destruct (store_Some v t elt) as [v1 Hv1]; [lia|].
    rewrite Hv1; simpl. rewrite ?umod_Some by done. simpl.
    eexists; split; [reflexivity|]. simpl.
    unwrap.
    split_and!; try done; try lia.
    all: try rewrite (store_length _ _ _ _ Hv1); try lia.
    + right. split; [lia|]. solve_idx.
    + intros p Hp. rewrite (load_store _ _ _ _ _ Hv1). fin.
  - destruct (Z.eqb_spec pos 0) as [->|Hne0].
    + (* prepend *)
      rewrite ?umod_Some by done. simpl. unwrap.
      destruct (store_Some v ((h - 1 + c) mod c) elt) as [v1 Hv1];
        [solve_idx|].
      rewrite Hv1; simpl.
      eexists; split; [reflexivity|]. simpl. unwrap.
      split_and!; try done; try lia.
      all: try rewrite (store_length _ _ _ _ Hv1); try lia.
      * right. split; [solve_idx|]. solve_idx.
      * intros p Hp. rewrite (load_store _ _ _ _ _ Hv1). fin.
    + (* middle *)
      rewrite ?umod_Some by done. simpl. unwrap.
      set (index := (h + pos) mod c).
      assert (Hidx : index = (h + pos) mod c) by done. clearbody index.
      destruct (Z.gtb_spec t index) as [Hgt|Hle].
      * unwrap.
        destruct (memmove_Some v (index + 1) index (t - index)) as [v1 Hv1];
          try solve_idx.
        rewrite Hv1; simpl.
        destruct (store_Some v1 index elt) as [v2 Hv2];
          [rewrite (memmove_length _ _ _ _ _ Hv1); solve_idx|].
        rewrite Hv2; simpl. rewrite ?umod_Some by done. simpl.
        eexists; split; [reflexivity|]. simpl. unwrap.
        split_and!; try done; try lia.
        all: try rewrite (store_length _ _ _ _ Hv2),
               (memmove_length _ _ _ _ _ Hv1); try lia.
        -- right. split; [solve_idx|]. solve_idx.
        -- intros p Hp. rewrite (load_store _ _ _ _ _ Hv2),
             !(load_memmove _ _ _ _ _ _ Hv1). fin.
      * unwrap.
        destruct (memmove_Some v 1 0 t) as [v1 Hv1]; try solve_idx.
        rewrite Hv1; simpl.
        destruct (memmove_Some v1 0 (c - 1) 1) as [v2 Hv2];
          try (rewrite (memmove_length _ _ _ _ _ Hv1)); try solve_idx.
        rewrite Hv2; simpl.
        destruct (memmove_Some v2 (index + 1) index (c - index - 1))
          as [v3 Hv3];
          try (rewrite (memmove_length _ _ _ _ _ Hv2),
                 (memmove_length _ _ _ _ _ Hv1)); try solve_idx.
        rewrite Hv3; simpl.
        destruct (store_Some v3 index elt) as [v4 Hv4];
          [rewrite (memmove_length _ _ _ _ _ Hv3),
             (memmove_length _ _ _ _ _ Hv2),
             (memmove_length _ _ _ _ _ Hv1); solve_idx|].
        rewrite Hv4; simpl. rewrite ?umod_Some by done. simpl.
        eexists; split; [reflexivity|]. simpl. unwrap.
        split_and!; try done; try lia.
        all: try rewrite (store_length _ _ _ _ Hv4),
               (memmove_length _ _ _ _ _ Hv3),
               (memmove_length _ _ _ _ _ Hv2),
               (memmove_length _ _ _ _ _ Hv1); try lia.
        -- right. split; [solve_idx|]. solve_idx.
        -- intros p Hp. rewrite (load_store _ _ _ _ _ Hv4),
             !(load_memmove _ _ _ _ _ _ Hv3), !(load_memmove _ _ _ _ _ _ Hv2),
             !(load_memmove _ _ _ _ _ _ Hv1). fin.
Qed.

Lemma slot_is_Some ds p :
  wf_vector ds → 0 ≤ p < ds_size ds → is_Some (slot ds p).
Proof.
  destruct ds as [[v h t|] n c dsz ty it]; unfold wf_vector, slot; simpl;
    [|intros [? []]].
  intros (Hty & Hlen & Hn & Hc & Hht) Hp.
  destruct Hht as [(? & ? & ?)|(Hh & Ht)]; [lia|].
  apply load_Some. rewrite Hlen. apply Z.mod_pos_bound. lia.
Qed.

Lemma remove_element_from_vector_spec ds pos out b :
  wf_vector ds → 0 ≤ pos < ds_size ds → slot ds pos = Some b →
  ∃ ds',
    remove_element_from_vector ds pos out =
      Some (LDS_SUCCESS,
            match out with
            | Ptr => Some (memcpy b (ds_data_size ds))
            | NULL => None
            end, ds') ∧
    wf_vector ds' ∧ ds_size ds' = ds_size ds - 1 ∧
    ds_capacity ds' = ds_capacity ds ∧ ds_data_size ds' = ds_data_size ds ∧
    ds_iterator ds' = ds_iterator ds ∧
    ∀ p, 0 ≤ p < ds_size ds - 1 →
      slot ds' p = if decide (p < pos) then slot ds p else slot ds (p + 1).
Proof.
  destruct ds as [[v h t|] n c dsz ty it];
    unfold wf_vector, remove_element_from_vector, slot; simpl;
    [|intros [? []]].
  intros (Hty & Hlen & Hn & Hc & Hht) Hpos Hb.
  destruct Hht as [(? & ? & ?)|(Hh & Ht)]; [lia|].
  assert (Hc' : c ≤ 2 ^ 63) by exact Hc.
  assert (Hc0 : c ≠ 0) by lia.
  assert (Htb : 0 ≤ t < c) by (subst t; apply Z.mod_pos_bound; lia).
  rewrite ?umod_Some by done. simpl. unwrap.
  assert (Hout :
    match out with
    | NULL => Some None
    | Ptr => load v ((h + pos) mod c) ≫= λ b0, Some (Some (memcpy b0 dsz))
    end = Some (match out with
                | Ptr => Some (memcpy b dsz) | NULL => None end)).
  { destruct out; [done|]. by rewrite Hb. }
  rewrite Hout. simpl. clear Hout.
  destruct (Z.eqb_spec pos (n - 1)) as [->|Hne].
  - eexists; split; [reflexivity|]. simpl.
    split_and!; try done; try lia.
    + right. split; [lia|]. solve_idx.
    + intros p Hp. fin.
  - destruct (Z.eqb_spec pos 0) as [->|Hne0].
    + eexists; split; [reflexivity|]. simpl.
      split_and!; try done; try lia.
      * right. split; [solve_idx|]. solve_idx.
      * intros p Hp. fin.
    + set (index := (h + pos) mod c) in *.
      assert (Hidx : index = (h + pos) mod c) by done. clearbody index.
      destruct (Z.gtb_spec t index) as [Hgt|Hle].
      * unwrap.
        destruct (memmove_Some v index (index + 1) (t - index - 1))
          as [v1 Hv1]; try solve_idx.
        rewrite Hv1; simpl.
        eexists; split; [reflexivity|]. simpl.
        split_and!; try done; try lia.
        all: try rewrite (memmove_length _ _ _ _ _ Hv1); try lia.
        -- right. split; [solve_idx|]. solve_idx.
        -- intros p Hp. rewrite !(load_memmove _ _ _ _ _ _ Hv1). fin.
      * unwrap.
        destruct (memmove_Some v (h + 1) h pos) as [v1 Hv1]; try solve_idx.
        rewrite Hv1; simpl.
        eexists; split; [reflexivity|]. simpl.
        split_and!; try done; try lia.
        all: try rewrite (memmove_length _ _ _ _ _ Hv1); try lia.
        -- right. split; [solve_idx|]. solve_idx.
        -- intros p Hp. rewrite !(load_memmove _ _ _ _ _ _ Hv1). fin.
Qed.

Lemma realloc_length v n j v' :
  realloc v n (Mem j) = Some v' → Z.of_nat (length v) ≤ n →
  Z.of_nat (length v') = n.
Proof.
  intros [= <-] H. rewrite length_app, length_take, length_replicate. lia.
Qed.

Lemma load_realloc v n j v' i :
  realloc v n (Mem j) = Some v' → Z.of_nat (length v) ≤ n →
  i < Z.of_nat (length v) → load v' i = load v i.
Proof.
  intros [= <-] H Hi. unfold load. case_decide; [|done].
  rewrite lookup_app_l by (rewrite length_take; lia).
  apply lookup_take_lt. lia.
Qed.

Lemma get_element_from_vector_spec ds pos b :
  wf_vector ds → 0 ≤ pos < ds_size ds → slot ds pos = Some b →
  get_element_from_vector ds pos =
    Some (LDS_SUCCESS, Some (memcpy b (ds_data_size ds)), ds).
Proof.
  destruct ds as [[v h t|] n c dsz ty it];
    unfold wf_vector, get_element_from_vector, slot; simpl;
    [|intros [? []]].
  intros (Hty & Hlen & Hn & Hc & Hht) Hpos Hb.
  destruct Hht as [(? & ? & ?)|(Hh & Ht)]; [lia|].
  assert (Hc' : c ≤ 2 ^ 63) by exact Hc.
  rewrite umod_Some by lia. simpl. unwrap. by rewrite Hb.
Qed.

Lemma set_element_in_vector_spec ds pos value b :
  wf_vector ds → 0 ≤ pos < ds_size ds → slot ds pos = Some b →
  ∃ ds',
    set_element_in_vector ds pos value =
      Some (if memcmp_eq value b (ds_data_size ds)
            then (LDS_FAIL, ds) else (LDS_SUCCESS, ds')) ∧
    wf_vector ds' ∧ ds_size ds' = ds_size ds ∧
    ds_capacity ds' = ds_capacity ds ∧ ds_data_size ds' = ds_data_size ds ∧
    ds_iterator ds' = ds_iterator ds ∧
    ∀ p, 0 ≤ p < ds_size ds →
      slot ds' p =
        if decide (p = pos) then Some (memcpy value (ds_data_size ds))
        else slot ds p.
Proof.
  destruct ds as [[v h t|] n c dsz ty it];
    unfold wf_vector, set_element_in_vector, slot; simpl;
    [|intros [? []]].
  intros (Hty & Hlen & Hn & Hc & Hht) Hpos Hb.
  destruct Hht as [(? & ? & ?)|(Hh & Ht)]; [lia|].
  assert (Hc' : c ≤ 2 ^ 63) by exact Hc.
  rewrite umod_Some by lia. simpl. unwrap. rewrite Hb. simpl.
  destruct (store_Some v ((h + pos) mod c) (memcpy value dsz)) as [v1 Hv1];
    [solve_idx|].
  rewrite Hv1. simpl. exists (mkDS (Vec v1 h t) n c dsz ty it).
  split; [by destruct (memcmp_eq value b dsz)|]. simpl.
  split_and!; try done; try lia.
  all: try rewrite (store_length _ _ _ _ Hv1); try lia.
  intros p Hp. rewrite !(load_store _ _ _ _ _ Hv1). fin.
Qed.

Lemma grow_vector_NoMem ds :
  wf_vector ds → grow_vector ds NoMem = Some None.
Proof.
  destruct ds as [[v h t|] n c dsz ty it]; unfold wf_vector, grow_vector;
    simpl; [done|intros [? []]].
Qed.

(** What growth does to a full buffer: the capacity doubles, the slots from
    [head] to the old end stay, the wrapped low segment moves behind them. *)
Lemma grow_vector_spec ds junk :
  wf_vector ds → ds_size ds = ds_capacity ds →
  2 * ds_capacity ds ≤ cap_limit →
  ∃ ds',
    grow_vector ds (Mem junk) = Some (Some ds') ∧
    wf_vector ds' ∧ ds_size ds' = ds_size ds ∧
    ds_capacity ds' =
      (if decide (ds_capacity ds = 0) then 1 else 2 * ds_capacity ds) ∧
    ds_data_size ds' = ds_data_size ds ∧
    ds_iterator ds' = ds_iterator ds ∧
    (∀ p, 0 ≤ p < ds_size ds → slot ds' p = slot ds p) ∧
    match ds_storage ds, ds_storage ds' with
    | Vec v h t, Vec v' h' t' =>
        h' = h ∧ t' = ds_capacity ds + t ∧
        (∀ i, 0 ≤ i < t → load v' (ds_capacity ds + i) = load v i) ∧
        (∀ i, h ≤ i < ds_capacity ds → load v' i = load v i)
    | _, _ => False
    end.
Proof.
  destruct ds as [[v h t|] n c dsz ty it]; unfold wf_vector, grow_vector, slot;
    simpl; [|intros [? []]].
  intros (Hty & Hlen & Hn & Hc & Hht) -> Hc2.
  assert (Hc' : 2 * c ≤ 2 ^ 63) by exact Hc2.
  set (nc := if 0 <? c then wrap (c * 2) else 1).
  assert (Hnc : nc = if decide (c = 0) then 1 else 2 * c).
  { unfold nc. destruct (Z.ltb_spec 0 c); case_decide; try lia.
    rewrite wrap_small by (unfold size_modulus; lia). lia. }
  clearbody nc.
  set (v1 := take (Z.to_nat nc) v ++ replicate (Z.to_nat nc - length v) junk).
  assert (Hv1 : realloc v nc (Mem junk) = Some v1) by reflexivity.
  clearbody v1.
  assert (Hcl : 1 ≤ cap_limit) by (unfold cap_limit; lia).
  assert (Hcnc : c ≤ nc ∧ c < nc ∧ nc ≤ cap_limit) by (case_decide; lia).
  assert (Hl1 : Z.of_nat (length v1) = nc).
  { apply (realloc_length _ _ _ _ Hv1). lia. }
  assert (Hht' : h = t ∧ 0 ≤ h ∧ h + c < nc).
  { destruct Hht as [(? & ? & ?)|(Hh & Ht)]; [case_decide; lia|].
    split; [|case_decide; lia].
    subst t. replace (h + c) with (h + 1 * c) by lia.
    rewrite Z.mod_add by lia. symmetry. apply Z.mod_small. lia. }
  destruct Hht' as (<- & Hh0 & Hhc).
  assert (Hge : (h >=? h) = true) by lia. rewrite Hge. clear Hge.
  destruct (memmove_Some v1 c 0 h) as [v2 Hv2]; try lia.
  rewrite Hv2. simpl. unwrap.
  eexists; split; [reflexivity|]. simpl.
  assert (Hlo : ∀ i, 0 ≤ i < h → load v2 (c + i) = load v i).
  { intros i Hi. rewrite !(load_memmove _ _ _ _ _ _ Hv2).
    rewrite decide_True by lia.
    rewrite (load_realloc _ _ _ _ _ Hv1) by lia.
    f_equal. lia. }
  assert (Hhi : ∀ i, h ≤ i < c → load v2 i = load v i).
  { intros i Hi. rewrite !(load_memmove _ _ _ _ _ _ Hv2).
    rewrite decide_False by lia.
    apply (load_realloc _ _ _ _ _ Hv1); lia. }
  split_and!; try done; try lia.
  all: try rewrite (memmove_length _ _ _ _ _ Hv2); try lia.
  - right. split; [lia|]. rewrite Z.mod_small by lia. lia.
  - intros p Hp. rewrite (Z.mod_small (h + p) nc) by lia.
    destruct (mod_cases (h + p) c) as [[? E]|[? E]]; [lia|..]; rewrite E.
    + apply Hhi. lia.
    + rewrite <- (Hlo (h + p - c)) by lia. f_equal. lia.
Qed.

Lemma insert_element_in_vector_spec ds pos value junk :
  wf_vector ds → 0 ≤ pos ≤ ds_size ds →
  (ds_size ds = ds_capacity ds → 2 * ds_capacity ds ≤ cap_limit) →
  ∃ ds',
    insert_element_in_vector ds pos value (Mem junk) =
      Some (LDS_SUCCESS, ds') ∧
    wf_vector ds' ∧ ds_size ds' = ds_size ds + 1 ∧
    ds_capacity ds' =
      (if decide (ds_size ds = ds_capacity ds)
       then if decide (ds_capacity ds = 0) then 1 else 2 * ds_capacity ds
       else ds_capacity ds) ∧
    ds_data_size ds' = ds_data_size ds ∧
    ds_iterator ds' = ds_iterator ds ∧
    ∀ p, 0 ≤ p ≤ ds_size ds →
      slot ds' p =
        if decide (p < pos) then slot ds p
        else if decide (p = pos) then Some (memcpy value (ds_data_size ds))
        else slot ds (p - 1).
Proof.
  intros Hwf Hpos Hcap. unfold insert_element_in_vector.
  destruct (Z.eqb_spec (ds_size ds) (ds_capacity ds)) as [Hfull|Hfree].
  - destruct (grow_vector_spec ds junk Hwf Hfull (Hcap Hfull))
      as (ds1 & -> & Hwf1 & Hs1 & Hc1 & Hd1 & Hi1 & Hsl1 & _). simpl.
    destruct (place_in_vector_spec ds1 pos value Hwf1)
      as (ds2 & -> & Hwf2 & Hs2 & Hc2 & Hd2 & Hi2 & Hsl2).
    { rewrite Hs1, Hc1. repeat case_decide; lia. }
    { lia. }
    exists ds2. split; [done|].
    rewrite decide_True by done.
    split_and!; try done; try congruence.
    intros p Hp. rewrite Hsl2 by lia. rewrite Hd1.
    repeat case_decide; try done; apply Hsl1; lia.
  - assert (Hlt : ds_size ds < ds_capacity ds).
    { destruct Hwf as [_ Hwf]. destruct (ds_storage ds); [|done]. lia. }
    destruct (place_in_vector_spec ds pos value Hwf Hlt Hpos)
      as (ds2 & -> & Hwf2 & Hs2 & Hc2 & Hd2 & Hi2 & Hsl2).
    exists ds2. split; [done|]. rewrite decide_False by done. done.
Qed.

Lemma insert_element_in_vector_NoMem ds pos value :
  wf_vector ds → ds_size ds = ds_capacity ds →
  insert_element_in_vector ds pos value NoMem = Some (LDS_FAIL, ds).
Proof.
  intros Hwf Hfull. unfold insert_element_in_vector.
  rewrite (proj2 (Z.eqb_eq _ _) Hfull).
  by rewrite (grow_vector_NoMem ds Hwf).
Qed.

Lemma insert_element_in_vector_alloc_irrelevant ds pos value a :
  ds_size ds ≠ ds_capacity ds →
  insert_element_in_vector ds pos value a = place_in_vector ds pos value.
Proof.
  intros H. unfold insert_element_in_vector.
  by rewrite (proj2 (Z.eqb_neq _ _) H).
Qed.

(** *** From slots to sequences *)


Lemma describes_ext l n f g :
  describes l n f → (∀ p, 0 ≤ p < n → f p = g p) → describes l n g.
Proof. intros [Hl H] Hfg. split; [done|]. intros p Hp. rewrite H, Hfg; done. Qed.

Lemma describes_insert l n f pos v :
  describes l n f → 0 ≤ pos ≤ n →
  describes (ref_insert pos v l) (n + 1)
    (λ p, if decide (p < pos) then f p
          else if decide (p = pos) then Some v else f (p - 1)).
Proof.
  intros [Hl H] Hpos. unfold ref_insert. split.
  - rewrite length_app, length_take. simpl. rewrite length_drop. lia.
  - intros p Hp. case_decide as H1.
    + rewrite lookup_app_l by (rewrite length_take; lia).
      rewrite lookup_take_lt by lia. apply H. lia.
    + rewrite lookup_app_r by (rewrite length_take; lia).
      rewrite length_take. case_decide as H2.
      * subst p. replace (Z.to_nat pos - _)%nat with 0%nat by lia. done.
      * replace (Z.to_nat p - _)%nat with (S (Z.to_nat (p - pos - 1)))
          by lia.
        simpl. rewrite lookup_drop. rewrite <- H by lia. f_equal. lia.
Qed.

Lemma describes_remove l n f pos :
  describes l n f → 0 ≤ pos < n →
  describes (ref_remove pos l) (n - 1)
    (λ p, if decide (p < pos) then f p else f (p + 1)).
Proof.
  intros [Hl H] Hpos. unfold ref_remove. split.
  - rewrite length_app, length_take, length_drop. lia.
  - intros p Hp. case_decide as H1.
    + rewrite lookup_app_l by (rewrite length_take; lia).
      rewrite lookup_take_lt by lia. apply H. lia.
    + rewrite lookup_app_r by (rewrite length_take; lia).
      rewrite length_take, lookup_drop. rewrite <- H by lia. f_equal. lia.
Qed.

Lemma describes_set l n f pos v :
  describes l n f → 0 ≤ pos < n →
  describes (ref_set pos v l) n
    (λ p, if decide (p = pos) then Some v else f p).
Proof.
  intros [Hl H] Hpos. unfold ref_set. split.
  - by rewrite length_insert.
  - intros p Hp. case_decide as H1.
    + subst. apply list_lookup_insert_eq. lia.
    + rewrite list_lookup_insert_ne by lia. by apply H.
Qed.

Lemma vector_element_element ds p :
  wf_vector ds → 0 ≤ p < ds_size ds → vector_element ds p = element ds p.
Proof.
  destruct ds as [[v h t|] n c dsz ty it];
    unfold wf_vector, vector_element, element, slot; simpl;
    [|intros [? []]].
  intros (Hty & Hlen & Hn & Hc & Hht) Hp.
  destruct Hht as [(? & ? & ?)|(Hh & Ht)]; [lia|].
  assert (Hc' : c ≤ 2 ^ 63) by exact Hc.
  rewrite umod_Some by lia. simpl. unwrap. done.
Qed.

Lemma mapM_describes (f : Z → option block) n l :
  0 ≤ n →
  mapM f (seqZ 0 n) = Some l ↔ describes l n (λ p, f p).
Proof.
  intros Hn. rewrite mapM_Some. split.
  - intros HF. pose proof (Forall2_length _ _ _ HF) as Hlen.
    rewrite length_seqZ in Hlen. split; [lia|].
    intros p Hp.
    destruct (lookup_lt_is_Some_2 l (Z.to_nat p)) as [y Hy]; [lia|].
    assert (Hx : seqZ 0 n !! Z.to_nat p = Some p).
    { rewrite lookup_seqZ. split; lia. }
    rewrite Hy. symmetry.
    exact (Forall2_lookup_lr _ _ _ _ _ _ HF Hx Hy).
  - intros [Hlen H]. apply Forall2_same_length_lookup. split.
    + rewrite length_seqZ. lia.
    + intros i x y Hx Hy. apply lookup_seqZ in Hx as [-> Hi].
      rewrite Z.add_0_l. rewrite <- Hy. rewrite <- (H (Z.of_nat i)) by lia.
      by rewrite Nat2Z.id.
Qed.

Lemma contents_vector_describes w l :
  wf_vector (w_ds w) →
  contents w = Some l ↔ describes l (ds_size (w_ds w)) (element (w_ds w)).
Proof.
  intros Hwf. unfold contents.
  assert (Hn : 0 ≤ ds_size (w_ds w)).
  { destruct Hwf as [_ Hwf]. destruct (ds_storage (w_ds w)); [lia|done]. }
  destruct (ds_storage (w_ds w)) eqn:Hst;
    [|destruct Hwf as [_ Hwf]; by rewrite Hst in Hwf].
  rewrite mapM_describes by done. split.
  - intros Hd. eapply describes_ext; [exact Hd|].
    intros p Hp. by apply vector_element_element.
  - intros Hd. eapply describes_ext; [exact Hd|].
    intros p Hp. symmetry. by apply vector_element_element.
Qed.

(** ** The list strategy: segments of the node heap *)

Lemma seg_app h p n1 n2 q :
  seg h p (n1 ++ n2) q ↔ ∃ m, seg h p n1 m ∧ seg h m n2 q.
Proof.
  revert p. induction n1 as [|[l b] n1 IH]; intros p; simpl.
  - split; [intros H; by exists p|intros (m & -> & H); done].
  - split.
    + intros (-> & nx & Hl & H). apply IH in H as (m & H1 & H2).
      exists m. split; [|done]. split; [done|]. by exists nx.
    + intros (m & (-> & nx & Hl & H1) & H2). split; [done|].
      exists nx. split; [done|]. apply IH. by exists m.
Qed.

Lemma seg_insert_ne h p ns q l nd :
  l ∉ ns.*1 → seg h p ns q → seg (<[l := nd]> h) p ns q.
Proof.
  revert p. induction ns as [|[l' b] ns IH]; intros p Hl; simpl; [done|].
  intros (-> & nx & Hl' & H). split; [done|]. exists nx.
  simpl in Hl. apply not_elem_of_cons in Hl as [Hne Hl].
  split; [by rewrite lookup_insert_ne|]. by apply IH.
Qed.

Lemma seg_delete_ne h p ns q l :
  l ∉ ns.*1 → seg h p ns q → seg (delete l h) p ns q.
Proof.
  revert p. induction ns as [|[l' b] ns IH]; intros p Hl; simpl; [done|].
  intros (-> & nx & Hl' & H). split; [done|]. exists nx.
  simpl in Hl. apply not_elem_of_cons in Hl as [Hne Hl].
  split; [by rewrite lookup_delete_ne|]. by apply IH.
Qed.

Lemma seg_in_heap h p ns q l :
  seg h p ns q → l ∈ ns.*1 → is_Some (h !! l).
Proof.
  revert p. induction ns as [|[l' b] ns IH]; intros p; simpl.
  - intros _ H. by apply elem_of_nil in H.
  - intros (-> & nx & Hl' & H) [->|Hin]%elem_of_cons; [eauto|].
    by eapply IH.
Qed.

Lemma seg_fresh h p ns q : seg h p ns q → fresh (dom h) ∉ ns.*1.
Proof.
  intros H Hin. apply (seg_in_heap _ _ _ _ _ H) in Hin.
  apply elem_of_dom in Hin. by apply is_fresh in Hin.
Qed.


Lemma seg_snoc h p ns l b q :
  seg h p (ns ++ [(l, b)]) q ↔
  seg h p ns (Some l) ∧ h !! l = Some (mkNode b q).
Proof.
  rewrite seg_app. simpl. split.
  - intros (m & H1 & -> & nx & Hl & ->). done.
  - intros [H1 Hl]. exists (Some l). split; [done|]. split; [done|].
    by exists q.
Qed.

Lemma chain_start h p ns : chain h p ns → p = fst <$> ns !! 0%nat.
Proof. destruct ns as [|[l b] ns]; simpl; [done|]. by intros [-> _]. Qed.

Lemma lookup_drop_0 {A} (ns : list A) k : drop k ns !! 0%nat = ns !! k.
Proof. rewrite lookup_drop. f_equal. lia. Qed.

(** The chain cut at position [k]: [first] leads to the node at [k]
    through the first [k] nodes, and that node leads to null through the
    rest. *)
Lemma chain_cut h p ns k :
  chain h p ns →
  seg h p (take k ns) (fst <$> ns !! k) ∧
  seg h (fst <$> ns !! k) (drop k ns) None.
Proof.
  unfold chain. rewrite <- (take_drop k ns) at 1. rewrite seg_app.
  intros (m & H1 & H2). pose proof (chain_start _ _ _ H2) as Hm.
  rewrite lookup_drop_0 in Hm. subst m. done.
Qed.

Lemma chain_node h p ns k l b :
  chain h p ns → ns !! k = Some (l, b) →
  h !! l = Some (mkNode b (fst <$> ns !! S k)).
Proof.
  intros Hc Hk. destruct (chain_cut h p ns k Hc) as [_ H].
  rewrite (drop_S _ _ _ Hk) in H. simpl in H.
  destruct H as (_ & nx & Hl & H). rewrite Hl. do 2 f_equal.
  apply chain_start in H. by rewrite lookup_drop_0 in H.
Qed.

Lemma move_cursor_id w : move_cursor w (ds_iterator (w_ds w)) = w.
Proof. by destruct w as [[] ?]. Qed.

Lemma move_cursor_twice w it1 it2 :
  move_cursor (move_cursor w it1) it2 = move_cursor w it2.
Proof. done. Qed.

Lemma it_next_in_list_spec w ns k first last_ :
  ds_storage (w_ds w) = Lst first last_ →
  chain (w_heap w) first ns →
  ds_iterator (w_ds w) = cursor_for ns k →
  0 ≤ k < Z.of_nat (length ns) → k + 1 < size_modulus →
  it_next_in_list w = Some (LDS_SUCCESS, move_cursor w (cursor_for ns (k + 1))).
Proof.
  intros Hst Hc Hit Hk Hlim. unfold it_next_in_list. rewrite Hit. simpl.
  destruct (lookup_lt_is_Some_2 ns (Z.to_nat k)) as [[l b] Hl]; [lia|].
  rewrite Hl. simpl. rewrite (chain_node _ _ _ _ _ _ Hc Hl). simpl.
  rewrite wrap_small by lia. unfold move_cursor, cursor_for.
  rewrite decide_False by lia.
  replace (Z.to_nat (k + 1)) with (S (Z.to_nat k)) by lia.
  replace (k + 1 - 1) with k by lia. rewrite Hl. done.
Qed.

Lemma it_next_times_spec n w ns k first last_ :
  ds_storage (w_ds w) = Lst first last_ →
  chain (w_heap w) first ns →
  ds_iterator (w_ds w) = cursor_for ns k →
  0 ≤ k → k + Z.of_nat n ≤ Z.of_nat (length ns) →
  Z.of_nat (length ns) < size_modulus →
  it_next_times n w = Some (move_cursor w (cursor_for ns (k + Z.of_nat n))).
Proof.
  revert w k. induction n as [|n IH]; intros w k Hst Hc Hit Hk Hn Hlim.
  - simpl. rewrite Z.add_0_r, <- Hit. by rewrite move_cursor_id.
  - simpl.
    rewrite (it_next_in_list_spec w ns k first last_) by (done || lia).
    simpl. rewrite (IH _ (k + 1)); try done; try lia.
    rewrite move_cursor_twice. do 3 f_equal. lia.
Qed.

Lemma cursor_for_0 h first ns :
  chain h first ns → cursor_for ns 0 = mkIt 0 first None.
Proof.
  intros Hc. unfold cursor_for. simpl. f_equal.
  symmetry. by eapply chain_start.
Qed.

Lemma wf_list_move_cursor w ns k :
  wf_list_with w ns → 0 ≤ k ≤ ds_size (w_ds w) →
  wf_list_with (move_cursor w (cursor_for ns k)) ns.
Proof.
  unfold wf_list_with. simpl. intros [Hty Hwf] Hk. split; [done|].
  destruct (ds_storage (w_ds w)) as [|first last_]; [done|].
  destruct Hwf as (Hc & Hnd & Hlen & Hlim & Hlast & Hcur).
  split_and!; try done. split; simpl; [lia|done].
Qed.

Lemma it_go_in_list_spec w ns k :
  wf_list_with w ns → 0 ≤ k ≤ ds_size (w_ds w) →
  it_go_in_list w k = Some (LDS_SUCCESS, move_cursor w (cursor_for ns k)).
Proof.
  unfold wf_list_with. intros [Hty Hwf] Hk.
  destruct (ds_storage (w_ds w)) as [|first last_] eqn:Hst; [done|].
  destruct Hwf as (Hc & Hnd & Hlen & Hlim & Hlast & [Hpos Hcur]).
  unfold it_go_in_list.
  assert (Hsm : Z.of_nat (length ns) < size_modulus).
  { unfold SIZE_MAX in Hlim. lia. }
  destruct (Z.ltb_spec k (it_position (ds_iterator (w_ds w)))) as [Hlt|Hge].
  - unfold it_reset_in_list. rewrite Hst. simpl.
    rewrite (it_next_times_spec (Z.to_nat (k - 0)) _ ns 0 first last_);
      simpl; try done; try lia.
    + replace (0 + Z.of_nat (Z.to_nat (k - 0))) with k by lia. done.
    + symmetry. by eapply cursor_for_0.
  - simpl.
    rewrite (it_next_times_spec _ w ns (it_position (ds_iterator (w_ds w)))
               first last_); simpl; try done; try lia.
    set (q := it_position (ds_iterator (w_ds w))) in *.
    replace (q + Z.of_nat (Z.to_nat (k - q))) with k by lia. done.
Qed.

Lemma last_insert_at {A} (l : list A) (k : nat) (x : A) :
  (k ≤ length l)%nat →
  last (take k l ++ x :: drop k l) =
    if decide (k = length l) then Some x else last l.
Proof.
  intros Hk. rewrite last_app. case_decide as H.
  - rewrite drop_ge by lia. done.
  - rewrite last_cons. rewrite <- (take_drop k l) at 2. rewrite last_app.
    destruct (last (drop k l)) eqn:E; [done|].
    apply last_None in E. apply (f_equal length) in E.
    rewrite length_drop in E. simpl in E. lia.
Qed.

Lemma NoDup_insert_at {A} (l : list A) (k : nat) (x : A) :
  NoDup l → x ∉ l → NoDup (take k l ++ x :: drop k l).
Proof.
  intros Hnd Hx. rewrite <- (take_drop k l) in Hnd, Hx.
  apply NoDup_app in Hnd as (H1 & H2 & H3).
  apply not_elem_of_app in Hx as [Hx1 Hx2].
  apply NoDup_app. split_and!; [done| |].
  - intros y Hy [->|Hin]%elem_of_cons; [done|]. by eapply H2.
  - by apply NoDup_cons.
Qed.

Lemma it_add_in_list_spec w ns v junk :
  wf_list_with w ns → ds_size (w_ds w) + 1 < SIZE_MAX →
  let k := it_position (ds_iterator (w_ds w)) in
  let new := fresh (dom (w_heap w)) in
  ∃ w',
    it_add_in_list w v (Mem junk) = Some (LDS_SUCCESS, w') ∧
    wf_list_with w'
      (take (Z.to_nat k) ns
         ++ (new, memcpy v (ds_data_size (w_ds w))) :: drop (Z.to_nat k) ns) ∧
    it_position (ds_iterator (w_ds w')) = k ∧
    ds_data_size (w_ds w') = ds_data_size (w_ds w) ∧
    ds_size (w_ds w') = ds_size (w_ds w) + 1.
Proof.
  destruct w as [[st n c dsz ty it] h]. unfold wf_list_with, it_add_in_list.
  simpl. intros [Hty Hwf] Hlim.
  destruct st as [|first last_]; [done|].
  destruct Hwf as (Hc & Hnd & Hlen & _ & Hlast & [Hpos Hcur]).
  set (k := it_position it) in *. set (new := fresh (dom h)).
  set (elt := memcpy v dsz).
  destruct (chain_cut h first ns (Z.to_nat k) Hc) as [Hpre Hpost].
  assert (Hnew : new ∉ ns.*1) by (by eapply seg_fresh).
  assert (Hnewh : h !! new = None).
  { apply not_elem_of_dom. apply is_fresh. }
  rewrite Hcur. simpl. fold k.
  rewrite wrap_small by (unfold SIZE_MAX in *; lia).
  set (ns' := take (Z.to_nat k) ns ++ (new, elt) :: drop (Z.to_nat k) ns).
  assert (Hlen' : length ns' = S (length ns)).
  { unfold ns'. rewrite length_app, length_take. simpl.
    rewrite length_drop. lia. }
  assert (Hnd' : NoDup ns'.*1).
  { unfold ns'. rewrite fmap_app, fmap_cons, fmap_take, fmap_drop.
    by apply NoDup_insert_at. }
  assert (Hlast' : (if k =? n then Some new else last_) = last ns'.*1).
  { unfold ns'. rewrite fmap_app, fmap_cons, fmap_take, fmap_drop.
    rewrite last_insert_at by (rewrite length_fmap; lia).
    rewrite length_fmap. destruct (Z.eqb_spec k n); case_decide; try lia;
      done. }
  assert (Hk' : ns' !! Z.to_nat k = Some (new, elt)).
  { unfold ns'. rewrite lookup_app_r by (rewrite length_take; lia).
    rewrite length_take. replace (_ - _)%nat with 0%nat by lia. done. }
  destruct (decide (k = 0)) as [Hk0|Hk0].
  - (* at the front *)
    rewrite (proj2 (Z.eqb_eq k 0) Hk0).
    eexists; split; [reflexivity|]. simpl.
    assert (Hz : Z.to_nat k = 0%nat) by lia.
    split_and!; try done; try lia.
    + unfold chain, ns'. rewrite Hz in Hpost |- *. simpl.
      split; [done|]. exists (fst <$> ns !! 0%nat).
      rewrite lookup_insert_eq. split; [done|].
      by apply seg_insert_ne.
    + split; simpl; [lia|]. unfold cursor_for. fold k.
      rewrite decide_True by done. by rewrite Hk'.
  - (* after the node [p] *)
    destruct (lookup_lt_is_Some_2 ns (Z.to_nat (k - 1))) as [[p bp] Hp];
      [lia|].
    rewrite Hp. simpl.
    assert (Htk : take (Z.to_nat k) ns
                  = take (Z.to_nat (k - 1)) ns ++ [(p, bp)]).
    { replace (Z.to_nat k) with (S (Z.to_nat (k - 1))) by lia.
      by apply take_S_r. }
    rewrite Htk in Hpre. apply seg_snoc in Hpre as [Hpre Hph].
    assert (Hpn : p ≠ new).
    { intros ->. by rewrite Hnewh in Hph. }
    rewrite lookup_insert_ne by done. rewrite Hph. simpl.
    rewrite (proj2 (Z.eqb_neq k 0) Hk0).
    eexists; split; [reflexivity|]. simpl.
    assert (Hsplit : NoDup (take (Z.to_nat (k - 1)) ns ++ [(p, bp)]
                             ++ drop (Z.to_nat k) ns).*1).
    { rewrite app_assoc, <- Htk, take_drop. done. }
    rewrite !fmap_app in Hsplit. simpl in Hsplit.
    apply NoDup_app in Hsplit as (_ & Hp1 & Hp2).
    apply NoDup_cons in Hp2 as [Hp2 _].
    assert (Hp1' : p ∉ (take (Z.to_nat (k - 1)) ns).*1).
    { intros Hin. apply (Hp1 _ Hin). apply elem_of_cons. by left. }
    assert (Hn1 : new ∉ (take (Z.to_nat (k - 1)) ns).*1).
    { intros Hin. apply Hnew. rewrite <- (take_drop (Z.to_nat (k - 1)) ns).
      rewrite fmap_app. apply elem_of_app. by left. }
    assert (Hn2 : new ∉ (drop (Z.to_nat k) ns).*1).
    { intros Hin. apply Hnew. rewrite <- (take_drop (Z.to_nat k) ns).
      rewrite fmap_app. apply elem_of_app. by right. }
    split_and!; try done; try lia.
    + unfold chain, ns'. rewrite Htk. rewrite seg_app.
      exists (Some new). split.
      * apply seg_snoc. split.
        -- apply seg_insert_ne; [done|]. by apply seg_insert_ne.
        -- by rewrite lookup_insert_eq.
      * split; [done|]. exists (fst <$> ns !! Z.to_nat k).
        rewrite lookup_insert_ne by done. rewrite lookup_insert_eq.
        split; [done|].
        apply seg_insert_ne; [done|]. by apply seg_insert_ne.
    + split; simpl; [lia|]. unfold cursor_for. fold k.
      rewrite decide_False by done. rewrite Hk'. simpl. do 2 f_equal.
      unfold ns'. rewrite lookup_app_l by (rewrite length_take; lia).
      rewrite lookup_take_lt by lia. by rewrite Hp.
Qed.

Lemma last_remove_at `{EqDecision A} (l : list A) (k : nat) (x : A) :
  NoDup l → l !! k = Some x →
  last (take k l ++ drop (S k) l) =
    if decide (last l = Some x)
    then (if decide (k = 0%nat) then None else l !! pred k)
    else last l.
Proof.
  intros Hnd Hk. pose proof (lookup_lt_Some _ _ _ Hk) as Hlt.
  rewrite (last_lookup l). rewrite last_app.
  destruct (decide (k = pred (length l))) as [Hlast|Hmid].
  - rewrite decide_True by (by rewrite <- Hlast).
    rewrite drop_ge by lia. simpl. case_decide as Hk0.
    + by rewrite Hk0.
    + rewrite last_lookup, length_take, lookup_take_lt by lia.
      f_equal. lia.
  - rewrite decide_False.
    + rewrite (last_lookup (drop _ _)), length_drop, lookup_drop.
      destruct (l !! (S k + pred (length l - S k))%nat) eqn:E.
      * rewrite <- E. f_equal. lia.
      * apply lookup_ge_None in E. lia.
    + intros Hl. apply Hmid. by eapply NoDup_lookup.
Qed.

Lemma it_remove_from_list_spec w ns out l b :
  wf_list_with w ns →
  let k := it_position (ds_iterator (w_ds w)) in
  ns !! Z.to_nat k = Some (l, b) →
  ∃ w',
    it_remove_from_list w out =
      Some (LDS_SUCCESS,
            match out with
            | Ptr => Some (memcpy b (ds_data_size (w_ds w)))
            | NULL => None
            end, w') ∧
    wf_list_with w' (take (Z.to_nat k) ns ++ drop (S (Z.to_nat k)) ns) ∧
    it_position (ds_iterator (w_ds w')) = k ∧
    ds_data_size (w_ds w') = ds_data_size (w_ds w) ∧
    ds_size (w_ds w') = ds_size (w_ds w) - 1.
Proof.
  destruct w as [[st n c dsz ty it] h].
  unfold wf_list_with, it_remove_from_list.
  simpl. intros [Hty Hwf] Hk.
  destruct st as [|first last_]; [done|].
  destruct Hwf as (Hc & Hnd & Hlen & Hlim & Hlast & [Hpos Hcur]).
  set (k := it_position it) in *.
  pose proof (lookup_lt_Some _ _ _ Hk) as Hklt.
  pose proof (chain_node _ _ _ _ _ _ Hc Hk) as Hl.
  destruct (chain_cut h first ns (S (Z.to_nat k)) Hc) as [_ Hpost].
  set (nx := fst <$> ns !! S (Z.to_nat k)) in *.
  assert (Hcc : it_current it = fst <$> ns !! Z.to_nat k)
    by (by rewrite Hcur).
  rewrite Hcc, Hk. simpl. rewrite Hl. simpl.
  rewrite wrap_small by (unfold SIZE_MAX, size_modulus in *; lia).
  set (ns' := take (Z.to_nat k) ns ++ drop (S (Z.to_nat k)) ns).
  assert (Hlen' : S (length ns') = length ns).
  { unfold ns'. rewrite length_app, length_take, length_drop. lia. }
  assert (Hrest : NoDup (take (Z.to_nat k) ns ++ [(l, b)]
                           ++ drop (S (Z.to_nat k)) ns).*1).
  { simpl. rewrite <- (drop_S _ _ _ Hk), take_drop. done. }
  rewrite !fmap_app in Hrest. simpl in Hrest.
  apply NoDup_app in Hrest as (Hnd1 & Hl1 & Hnd2).
  apply NoDup_cons in Hnd2 as [Hl2 Hnd2].
  assert (Hl1' : l ∉ (take (Z.to_nat k) ns).*1).
  { intros Hin. apply (Hl1 _ Hin). apply elem_of_cons. by left. }
  assert (Hnd' : NoDup ns'.*1).
  { unfold ns'. rewrite fmap_app. apply NoDup_app. split_and!; try done.
    intros y Hy1 Hy2. apply (Hl1 _ Hy1). apply elem_of_cons. by right. }
  assert (Hfirst : first = fst <$> ns !! 0%nat) by (by eapply chain_start).
  assert (Hfirst' :
    (if bool_decide (first = Some l) then nx else first)
    = fst <$> ns' !! 0%nat).
  { unfold ns'. destruct (decide (k = 0)) as [Hk0|Hk0].
    - assert (Hz : Z.to_nat k = 0%nat) by lia.
      rewrite Hz in Hk |- *.
      rewrite Hfirst, Hk. simpl. rewrite bool_decide_eq_true_2 by done.
      unfold nx. rewrite lookup_drop_0. by rewrite Hz.
    - rewrite bool_decide_eq_false_2.
      + rewrite lookup_app_l by (rewrite length_take; lia).
        rewrite lookup_take_lt by lia. done.
      + rewrite Hfirst. intros Hf.
        rewrite <- list_lookup_fmap in Hf.
        assert (Hk' : ns.*1 !! Z.to_nat k = Some l)
          by (by rewrite list_lookup_fmap, Hk).
        pose proof (NoDup_lookup _ _ _ _ Hnd Hf Hk'). lia. }
  assert (Hprev : it_previous it =
                  if decide (Z.to_nat k = 0%nat) then None
                  else ns.*1 !! pred (Z.to_nat k)).
  { rewrite Hcur. simpl. fold k.
    destruct (decide (k = 0)).
    - by rewrite decide_True by lia.
    - rewrite decide_False by lia. rewrite list_lookup_fmap.
      do 2 f_equal. lia. }
  assert (Hlast' :
    (if bool_decide (last_ = Some l) then it_previous it else last_)
    = last ns'.*1).
  { unfold ns'. rewrite fmap_app, fmap_take, fmap_drop.
    rewrite (last_remove_at _ _ l Hnd)
      by (by rewrite list_lookup_fmap, Hk).
    rewrite <- Hlast, Hprev.
    destruct (decide (last_ = Some l)).
    - by rewrite bool_decide_eq_true_2.
    - by rewrite bool_decide_eq_false_2. }
  rewrite Hfirst', Hlast'.
  assert (Hcur' :
    mkIt k nx (it_previous it) = cursor_for ns' k).
  { unfold cursor_for. f_equal.
    - unfold ns', nx. rewrite lookup_app_r by (rewrite length_take; lia).
      rewrite length_take, lookup_drop. do 2 f_equal. lia.
    - rewrite Hcur. simpl. fold k. destruct (decide (k = 0)); [done|].
      unfold ns'. rewrite lookup_app_l by (rewrite length_take; lia).
      by rewrite lookup_take_lt by lia. }
  rewrite Hcur'.
  destruct (decide (k = 0)) as [Hk0|Hk0].
  - assert (Hpv : it_previous it = None).
    { rewrite Hcur. simpl. fold k. by rewrite decide_True. }
    rewrite Hpv.
    eexists; split; [reflexivity|]. simpl.
    split_and!; try done; try lia.
    + assert (Hch : chain (delete l h) nx ns').
      { unfold chain. apply seg_delete_ne.
        { unfold ns'. rewrite fmap_app. apply not_elem_of_app. done. }
        unfold ns'. assert (Hz : Z.to_nat k = 0%nat) by lia.
        rewrite Hz at 1. rewrite take_0. exact Hpost. }
      by rewrite <- (chain_start _ _ _ Hch).
    + split; simpl; [lia|done].
  - destruct (lookup_lt_is_Some_2 ns (Z.to_nat (k - 1))) as [[p bp] Hp];
      [lia|].
    assert (Hpv : it_previous it = Some p).
    { rewrite Hcur. simpl. fold k. rewrite decide_False by done.
      by rewrite Hp. }
    rewrite Hpv.
    pose proof (chain_node _ _ _ _ _ _ Hc Hp) as Hph.
    replace (S (Z.to_nat (k - 1))) with (Z.to_nat k) in Hph by lia.
    rewrite Hk in Hph. simpl in Hph. rewrite Hph. simpl.
    eexists; split; [reflexivity|]. simpl.
    assert (Htk : take (Z.to_nat k) ns
                  = take (Z.to_nat (k - 1)) ns ++ [(p, bp)]).
    { replace (Z.to_nat k) with (S (Z.to_nat (k - 1))) by lia.
      by apply take_S_r. }
    destruct (chain_cut h first ns (Z.to_nat (k - 1)) Hc) as [Hpre _].
    rewrite Hp in Hpre. simpl in Hpre.
    assert (Hpl : p ≠ l).
    { intros ->. apply Hl1'. rewrite Htk, fmap_app. apply elem_of_app.
      right. simpl. apply elem_of_cons. by left. }
    rewrite Htk, fmap_app in Hnd1. apply NoDup_app in Hnd1 as (_ & Hp1 & _).
    assert (Hp1' : p ∉ (take (Z.to_nat (k - 1)) ns).*1).
    { intros Hin. apply (Hp1 _ Hin). simpl. apply elem_of_cons. by left. }
    assert (Hp2 : p ∉ (drop (S (Z.to_nat k)) ns).*1).
    { intros Hin. apply (Hl1 p).
      - rewrite Htk, fmap_app. apply elem_of_app. right. simpl.
        apply elem_of_cons. by left.
      - apply elem_of_cons. by right. }
    assert (Hl1'' : l ∉ (take (Z.to_nat (k - 1)) ns).*1).
    { intros Hin. apply Hl1'. rewrite Htk, fmap_app. apply elem_of_app.
      by left. }
    split_and!; try done; try lia.
    + assert (Hch : chain (delete l (<[p := mkNode bp nx]> h)) first ns').
      { unfold chain, ns'. rewrite Htk. rewrite seg_app. exists nx. split.
        * apply seg_snoc. split.
          -- apply seg_delete_ne; [done|]. by apply seg_insert_ne.
          -- rewrite lookup_delete_ne by done. by rewrite lookup_insert_eq.
        * apply seg_delete_ne; [done|]. by apply seg_insert_ne. }
      by rewrite <- (chain_start _ _ _ Hch).
    + split; simpl; [lia|done].
Qed.

Lemma it_get_from_list_spec w ns l b :
  wf_list_with w ns →
  ns !! Z.to_nat (it_position (ds_iterator (w_ds w))) = Some (l, b) →
  it_get_from_list w =
    Some (LDS_SUCCESS, Some (memcpy b (ds_data_size (w_ds w))), w).
Proof.
  destruct w as [[st n c dsz ty it] h].
  unfold wf_list_with, it_get_from_list.
  simpl. intros [Hty Hwf] Hk.
  destruct st as [|first last_]; [done|].
  destruct Hwf as (Hc & Hnd & Hlen & Hlim & Hlast & [Hpos Hcur]).
  pose proof (lookup_lt_Some _ _ _ Hk) as Hklt.
  pose proof (chain_node _ _ _ _ _ _ Hc Hk) as Hl.
  assert (Hcc : it_current it = Some l) by (by rewrite Hcur; simpl; rewrite Hk).
  destruct (Z.geb_spec (it_position it) n); [lia|].
  rewrite Hcc. simpl. by rewrite Hl.
Qed.

Lemma seg_update_data h p ns q k l b b' :
  seg h p ns q → NoDup ns.*1 → ns !! k = Some (l, b) →
  ∃ nx, h !! l = Some (mkNode b nx) ∧
        seg (<[l := mkNode b' nx]> h) p (<[k := (l, b')]> ns) q.
Proof.
  intros Hs Hnd Hk. pose proof (lookup_lt_Some _ _ _ Hk) as Hklt.
  rewrite insert_take_drop by done.
  rewrite <- (take_drop_middle _ _ _ Hk) in Hs, Hnd.
  rewrite fmap_app in Hnd. simpl in Hnd.
  apply NoDup_app in Hnd as (_ & H1 & H2). apply NoDup_cons in H2 as [H2 _].
  apply seg_app in Hs as (m & Hs1 & Hs2). simpl in Hs2.
  destruct Hs2 as (-> & nx & Hl & Hs2). exists nx. split; [done|].
  apply seg_app. exists (Some l). split.
  - apply seg_insert_ne; [|done]. intros Hin. apply (H1 _ Hin).
    apply elem_of_cons. by left.
  - simpl. split; [done|]. exists nx. rewrite lookup_insert_eq.
    split; [done|]. by apply seg_insert_ne.
Qed.

Lemma it_set_in_list_spec w ns v l b :
  wf_list_with w ns →
  let k := it_position (ds_iterator (w_ds w)) in
  ns !! Z.to_nat k = Some (l, b) →
  ∃ w',
    it_set_in_list w v =
      Some (if memcmp_eq v b (ds_data_size (w_ds w))
            then (LDS_FAIL, w) else (LDS_SUCCESS, w')) ∧
    wf_list_with w'
      (<[Z.to_nat k := (l, memcpy v (ds_data_size (w_ds w)))]> ns) ∧
    w_ds w' = w_ds w.
Proof.
  destruct w as [[st n c dsz ty it] h].
  unfold wf_list_with, it_set_in_list.
  simpl. intros [Hty Hwf] Hk.
  destruct st as [|first last_]; [done|].
  destruct Hwf as (Hc & Hnd & Hlen & Hlim & Hlast & [Hpos Hcur]).
  set (k := it_position it) in *.
  destruct (seg_update_data _ _ _ _ _ _ _ (memcpy v dsz) Hc Hnd Hk)
    as (nx & Hl & Hs).
  assert (Hcc : it_current it = Some l)
    by (by rewrite Hcur; simpl; fold k; rewrite Hk).
  rewrite Hcc. simpl. rewrite Hl. simpl.
  eexists (mkW _ _). split.
  { destruct (memcmp_eq v b dsz); reflexivity. }
  simpl. split; [|done]. split; [done|].
  assert (Hfst : (<[Z.to_nat k:=(l, memcpy v dsz)]> ns).*1 = ns.*1).
  { rewrite list_fmap_insert. simpl. apply list_insert_id.
    by rewrite list_lookup_fmap, Hk. }
  rewrite Hfst, length_insert.
  split_and!; try done.
  split; [by rewrite length_insert|].
  rewrite Hcur at 1. unfold cursor_for. simpl. fold k. f_equal.
  - rewrite <- !list_lookup_fmap. by rewrite Hfst.
  - case_decide; [done|]. rewrite <- !list_lookup_fmap. by rewrite Hfst.
Qed.

(** *** The contents of a chain *)

Lemma chain_elements_seg h n p ns :
  chain h p ns →
  chain_elements h n p (length ns) = Some ((λ nb, memcpy nb.2 n) <$> ns).
Proof.
  unfold chain. revert p. induction ns as [|[l b] ns IH]; intros p; simpl;
    [done|].
  intros (-> & nx & Hl & Hs). simpl. rewrite Hl. simpl.
  by rewrite (IH _ Hs).
Qed.

Lemma contents_list w ns :
  wf_list_with w ns →
  contents w =
    Some ((λ nb, memcpy nb.2 (ds_data_size (w_ds w))) <$> ns).
Proof.
  unfold wf_list_with, contents. intros [Hty Hwf].
  destruct (ds_storage (w_ds w)) as [|first last_]; [done|].
  destruct Hwf as (Hc & Hnd & Hlen & Hlim & Hlast & Hcur).
  rewrite <- Hlen, Nat2Z.id. by apply chain_elements_seg.
Qed.

Lemma memcpy_idemp b n : memcpy (memcpy b n) n = memcpy b n.
Proof. unfold memcpy. rewrite take_take. f_equal. lia. Qed.

Lemma memcpy_full b n : Z.of_nat (length b) = n → memcpy b n = b.
Proof. intros H. unfold memcpy. apply take_ge. lia. Qed.

(** ** The container interface on well-formed worlds *)

Lemma wf_vector_size ds : wf_vector ds → 0 ≤ ds_size ds ≤ ds_capacity ds.
Proof. intros [_ H]. destruct (ds_storage ds); [lia|done]. Qed.

Lemma describes_element_lookup ds l p :
  describes l (ds_size ds) (element ds) → 0 ≤ p < ds_size ds →
  ∀ b, slot ds p = Some b →
  l !! Z.to_nat p = Some (memcpy b (ds_data_size ds)).
Proof.
  intros [_ H] Hp b Hb. rewrite H by done. unfold element. by rewrite Hb.
Qed.

(** *** Vector worlds *)

Lemma vector_describes w l :
  wf_vector (w_ds w) → contents w = Some l →
  describes l (ds_size (w_ds w)) (element (w_ds w)).
Proof. intros. by apply contents_vector_describes. Qed.

Lemma vector_insert w l pos v junk :
  ds_type (w_ds w) = LDS_VECTOR → wf_vector (w_ds w) →
  contents w = Some l →
  0 ≤ pos ≤ ds_size (w_ds w) →
  (ds_size (w_ds w) = ds_capacity (w_ds w) →
   2 * ds_capacity (w_ds w) ≤ cap_limit) →
  ∃ w',
    lds_insert Ptr pos (Some v) (Mem junk) w = Some (LDS_SUCCESS, w') ∧
    wf_vector (w_ds w') ∧ ds_type (w_ds w') = LDS_VECTOR ∧
    contents w' =
      Some (ref_insert pos (memcpy v (ds_data_size (w_ds w))) l) ∧
    ds_size (w_ds w') = ds_size (w_ds w) + 1 ∧
    ds_data_size (w_ds w') = ds_data_size (w_ds w) ∧
    ds_iterator (w_ds w') = ds_iterator (w_ds w) ∧
    ds_capacity (w_ds w') =
      (if decide (ds_size (w_ds w) = ds_capacity (w_ds w))
       then if decide (ds_capacity (w_ds w) = 0) then 1
            else 2 * ds_capacity (w_ds w)
       else ds_capacity (w_ds w)).
Proof.
  intros Hty Hwf Hl Hpos Hroom.
  destruct (insert_element_in_vector_spec (w_ds w) pos v junk Hwf Hpos Hroom)
    as (ds' & Hins & Hwf' & Hs' & Hc' & Hd' & Hi' & Hsl').
  exists (with_ds w ds'). unfold lds_insert, ds_insert. rewrite Hty.
  destruct (Z.gtb_spec pos (ds_size (w_ds w))); [lia|].
  destruct (Z.ltb_spec pos 0); [lia|]. simpl. rewrite Hins. simpl.
  split_and!; try done.
  - by destruct Hwf'.
  - apply contents_vector_describes; [done|]. simpl. rewrite Hs'.
    eapply describes_ext;
      [apply describes_insert; [by apply vector_describes|done]|].
    intros p Hp. simpl. unfold element. rewrite Hsl', Hd' by lia.
    repeat case_decide; try done; simpl; by rewrite memcpy_idemp.
Qed.

Lemma vector_insert_any w l pos v a :
  ds_type (w_ds w) = LDS_VECTOR → wf_vector (w_ds w) →
  contents w = Some l →
  0 ≤ pos ≤ ds_size (w_ds w) →
  (ds_size (w_ds w) = ds_capacity (w_ds w) →
   2 * ds_capacity (w_ds w) ≤ cap_limit) →
  ∃ r w',
    lds_insert Ptr pos (Some v) a w = Some (r, w') ∧
    wf_vector (w_ds w') ∧ ds_type (w_ds w') = LDS_VECTOR ∧
    ds_data_size (w_ds w') = ds_data_size (w_ds w) ∧
    ds_iterator (w_ds w') = ds_iterator (w_ds w) ∧
    ((r = LDS_SUCCESS ∧
      contents w' =
        Some (ref_insert pos (memcpy v (ds_data_size (w_ds w))) l) ∧
      ds_size (w_ds w') = ds_size (w_ds w) + 1 ∧
      ds_capacity (w_ds w') ≤
        Z.max (ds_capacity (w_ds w)) (Z.max 1 (2 * ds_size (w_ds w)))) ∨
     (r = LDS_FAIL ∧ w' = w)).
Proof.
  intros Hty Hwf Hl Hpos Hroom.
  destruct a as [|junk].
  - destruct (decide (ds_size (w_ds w) = ds_capacity (w_ds w))) as [Hf|Hf].
    + exists LDS_FAIL, w. unfold lds_insert, ds_insert. rewrite Hty.
      destruct (Z.gtb_spec pos (ds_size (w_ds w))); [lia|].
      destruct (Z.ltb_spec pos 0); [lia|]. simpl.
      rewrite insert_element_in_vector_NoMem by done. simpl.
      split; [by destruct w|]. split_and!; try done. by right.
    + destruct (vector_insert w l pos v [] Hty Hwf Hl Hpos Hroom)
        as (w' & Hins & Hwf' & Hty' & Hc' & Hs' & Hd' & Hi' & Hcap').
      exists LDS_SUCCESS, w'. split.
      { revert Hins. unfold lds_insert, ds_insert. rewrite Hty.
        destruct (_ || _); [done|].
        by rewrite !insert_element_in_vector_alloc_irrelevant. }
      split_and!; try done. left. split_and!; try done.
      rewrite Hcap'. repeat case_decide; lia.
  - destruct (vector_insert w l pos v junk Hty Hwf Hl Hpos Hroom)
      as (w' & Hins & Hwf' & Hty' & Hc' & Hs' & Hd' & Hi' & Hcap').
    exists LDS_SUCCESS, w'. split_and!; try done. left.
    split_and!; try done. rewrite Hcap'. repeat case_decide; lia.
Qed.

Lemma vector_remove w l pos out :
  ds_type (w_ds w) = LDS_VECTOR → wf_vector (w_ds w) →
  contents w = Some l →
  0 ≤ pos < ds_size (w_ds w) →
  ∃ w',
    lds_remove Ptr pos out w =
      Some (LDS_SUCCESS,
            match out with Ptr => l !! Z.to_nat pos | NULL => None end,
            w') ∧
    wf_vector (w_ds w') ∧ ds_type (w_ds w') = LDS_VECTOR ∧
    contents w' = Some (ref_remove pos l) ∧
    ds_size (w_ds w') = ds_size (w_ds w) - 1 ∧
    ds_data_size (w_ds w') = ds_data_size (w_ds w) ∧
    ds_iterator (w_ds w') = ds_iterator (w_ds w) ∧
    ds_capacity (w_ds w') = ds_capacity (w_ds w).
Proof.
  intros Hty Hwf Hl Hpos.
  destruct (slot_is_Some _ _ Hwf Hpos) as [b Hb].
  destruct (remove_element_from_vector_spec (w_ds w) pos out b Hwf Hpos Hb)
    as (ds' & Hrem & Hwf' & Hs' & Hc' & Hd' & Hi' & Hsl').
  pose proof (vector_describes w l Hwf Hl) as Hdesc.
  exists (with_ds w ds'). unfold lds_remove, ds_remove. rewrite Hty.
  destruct (Z.geb_spec pos (ds_size (w_ds w))); [lia|].
  destruct (Z.ltb_spec pos 0); [lia|]. simpl. rewrite Hrem. simpl.
  split_and!; try done.
  - destruct out; [done|].
    by rewrite (describes_element_lookup _ _ _ Hdesc Hpos b Hb).
  - by destruct Hwf'.
  - apply contents_vector_describes; [done|]. simpl. rewrite Hs'.
    eapply describes_ext; [apply describes_remove; [exact Hdesc|done]|].
    intros p Hp. simpl. unfold element. rewrite Hsl', Hd' by lia.
    by repeat case_decide.
Qed.

Lemma vector_get w l pos :
  ds_type (w_ds w) = LDS_VECTOR → wf_vector (w_ds w) →
  contents w = Some l →
  0 ≤ pos < ds_size (w_ds w) →
  lds_get Ptr pos Ptr w = Some (LDS_SUCCESS, l !! Z.to_nat pos, w).
Proof.
  intros Hty Hwf Hl Hpos.
  destruct (slot_is_Some _ _ Hwf Hpos) as [b Hb].
  pose proof (vector_describes w l Hwf Hl) as Hdesc.
  unfold lds_get, ds_get. rewrite Hty.
  destruct (Z.geb_spec pos (ds_size (w_ds w))); [lia|].
  destruct (Z.ltb_spec pos 0); [lia|]. simpl.
  rewrite (get_element_from_vector_spec _ _ b) by done. simpl.
  rewrite (describes_element_lookup _ _ _ Hdesc Hpos b Hb).
  by destruct w.
Qed.

Lemma memcmp_eq_memcpy v b n :
  memcmp_eq v (memcpy b n) n = memcmp_eq v b n.
Proof.
  unfold memcmp_eq, memcpy. rewrite take_take.
  by replace (Z.to_nat n `min` Z.to_nat n)%nat with (Z.to_nat n) by lia.
Qed.

Lemma vector_set w l pos v old :
  ds_type (w_ds w) = LDS_VECTOR → wf_vector (w_ds w) →
  contents w = Some l →
  0 ≤ pos < ds_size (w_ds w) → l !! Z.to_nat pos = Some old →
  ∃ w',
    lds_set Ptr pos (Some v) w =
      Some (if memcmp_eq v old (ds_data_size (w_ds w))
            then (LDS_FAIL, w) else (LDS_SUCCESS, w')) ∧
    wf_vector (w_ds w') ∧ ds_type (w_ds w') = LDS_VECTOR ∧
    contents w' = Some (ref_set pos (memcpy v (ds_data_size (w_ds w))) l) ∧
    ds_size (w_ds w') = ds_size (w_ds w) ∧
    ds_data_size (w_ds w') = ds_data_size (w_ds w) ∧
    ds_iterator (w_ds w') = ds_iterator (w_ds w) ∧
    ds_capacity (w_ds w') = ds_capacity (w_ds w).
Proof.
  intros Hty Hwf Hl Hpos Hold.
  destruct (slot_is_Some _ _ Hwf Hpos) as [b Hb].
  destruct (set_element_in_vector_spec (w_ds w) pos v b Hwf Hpos Hb)
    as (ds' & Hset & Hwf' & Hs' & Hc' & Hd' & Hi' & Hsl').
  pose proof (vector_describes w l Hwf Hl) as Hdesc.
  assert (Hob : old = memcpy b (ds_data_size (w_ds w))).
  { rewrite (describes_element_lookup _ _ _ Hdesc Hpos b Hb) in Hold.
    by injection Hold. }
  exists (with_ds w ds'). unfold lds_set, ds_set. rewrite Hty.
  destruct (Z.geb_spec pos (ds_size (w_ds w))); [lia|].
  destruct (Z.ltb_spec pos 0); [lia|]. simpl. rewrite Hset. simpl.
  rewrite Hob, memcmp_eq_memcpy.
  split_and!; try done.
  - destruct (memcmp_eq v b _); [|done]. by destruct w.
  - by destruct Hwf'.
  - apply contents_vector_describes; [done|]. simpl. rewrite Hs'.
    eapply describes_ext; [apply describes_set; [exact Hdesc|done]|].
    intros p Hp. simpl. unfold element. rewrite Hsl', Hd' by lia.
    repeat case_decide; try done; simpl; by rewrite memcpy_idemp.
Qed.

(** *** List worlds *)

Lemma wf_list_type w ns : wf_list_with w ns → ds_type (w_ds w) = LDS_LINKED_LIST.
Proof. by intros [? _]. Qed.

Lemma wf_list_size w ns :
  wf_list_with w ns →
  Z.of_nat (length ns) = ds_size (w_ds w) ∧ ds_size (w_ds w) < SIZE_MAX.
Proof.
  intros [_ H]. destruct (ds_storage (w_ds w)); [done|].
  by destruct H as (_ & _ & ? & ? & _).
Qed.

Lemma list_go w ns k :
  wf_list_with w ns → 0 ≤ k ≤ ds_size (w_ds w) →
  let w1 := move_cursor w (cursor_for ns k) in
  it_go_in_list w k = Some (LDS_SUCCESS, w1) ∧
  wf_list_with w1 ns ∧ it_position (ds_iterator (w_ds w1)) = k ∧
  ds_size (w_ds w1) = ds_size (w_ds w) ∧
  ds_data_size (w_ds w1) = ds_data_size (w_ds w).
Proof.
  intros Hwf Hk. split_and!; try done.
  - by apply it_go_in_list_spec.
  - by apply wf_list_move_cursor.
Qed.

Lemma list_insert w ns pos v junk :
  wf_list_with w ns →
  0 ≤ pos ≤ ds_size (w_ds w) → ds_size (w_ds w) + 1 < SIZE_MAX →
  ∃ w' ns',
    lds_insert Ptr pos (Some v) (Mem junk) w = Some (LDS_SUCCESS, w') ∧
    wf_list_with w' ns' ∧
    contents w' =
      Some (ref_insert pos (memcpy v (ds_data_size (w_ds w)))
              ((λ nb, memcpy nb.2 (ds_data_size (w_ds w))) <$> ns)) ∧
    ds_size (w_ds w') = ds_size (w_ds w) + 1 ∧
    ds_data_size (w_ds w') = ds_data_size (w_ds w) ∧
    it_position (ds_iterator (w_ds w')) = pos.
Proof.
  intros Hwf Hpos Hroom.
  destruct (list_go w ns pos Hwf Hpos) as (Hgo & Hwf1 & Hp1 & Hs1 & Hd1).
  set (w1 := move_cursor w (cursor_for ns pos)) in *.
  destruct (it_add_in_list_spec w1 ns v junk Hwf1)
    as (w' & Hadd & Hwf' & Hp' & Hd' & Hs'); [by rewrite Hs1|].
  exists w'. eexists. unfold lds_insert, ds_insert.
  rewrite (wf_list_type _ _ Hwf).
  destruct (Z.gtb_spec pos (ds_size (w_ds w))); [lia|].
  destruct (Z.ltb_spec pos 0); [lia|]. simpl.
  unfold insert_element_in_list. rewrite Hgo. simpl.
  split; [exact Hadd|]. split; [exact Hwf'|].
  split_and!; try congruence.
  rewrite (contents_list _ _ Hwf'). f_equal. rewrite ?Hd', ?Hd1, ?Hp1.
  unfold ref_insert. rewrite fmap_app, fmap_cons, fmap_take, fmap_drop.
  simpl. by rewrite memcpy_idemp.
Qed.

Lemma list_insert_NoMem w ns pos v :
  wf_list_with w ns → 0 ≤ pos ≤ ds_size (w_ds w) →
  let w1 := move_cursor w (cursor_for ns pos) in
  lds_insert Ptr pos (Some v) NoMem w = Some (LDS_FAIL, w1) ∧
  wf_list_with w1 ns.
Proof.
  intros Hwf Hpos.
  destruct (list_go w ns pos Hwf Hpos) as (Hgo & Hwf1 & Hp1 & Hs1 & Hd1).
  split; [|done]. unfold lds_insert, ds_insert.
  rewrite (wf_list_type _ _ Hwf).
  destruct (Z.gtb_spec pos (ds_size (w_ds w))); [lia|].
  destruct (Z.ltb_spec pos 0); [lia|]. simpl.
  unfold insert_element_in_list. rewrite Hgo. simpl. done.
Qed.

Lemma list_remove w ns pos out :
  wf_list_with w ns → 0 ≤ pos < ds_size (w_ds w) →
  let l := (λ nb, memcpy nb.2 (ds_data_size (w_ds w))) <$> ns in
  ∃ w' ns',
    lds_remove Ptr pos out w =
      Some (LDS_SUCCESS,
            match out with Ptr => l !! Z.to_nat pos | NULL => None end,
            w') ∧
    wf_list_with w' ns' ∧
    contents w' = Some (ref_remove pos l) ∧
    ds_size (w_ds w') = ds_size (w_ds w) - 1 ∧
    ds_data_size (w_ds w') = ds_data_size (w_ds w) ∧
    it_position (ds_iterator (w_ds w')) = pos.
Proof.
  intros Hwf Hpos l.
  destruct (wf_list_size _ _ Hwf) as [Hlen _].
  destruct (list_go w ns pos Hwf) as (Hgo & Hwf1 & Hp1 & Hs1 & Hd1); [lia|].
  set (w1 := move_cursor w (cursor_for ns pos)) in *.
  destruct (lookup_lt_is_Some_2 ns (Z.to_nat pos)) as [[a b] Hab]; [lia|].
  destruct (it_remove_from_list_spec w1 ns out a b Hwf1)
    as (w' & Hrem & Hwf' & Hp' & Hd' & Hs'); [by rewrite Hp1|].
  exists w'. eexists. unfold lds_remove, ds_remove.
  rewrite (wf_list_type _ _ Hwf).
  destruct (Z.geb_spec pos (ds_size (w_ds w))); [lia|].
  destruct (Z.ltb_spec pos 0); [lia|]. simpl.
  unfold remove_element_from_list. rewrite Hgo. simpl.
  split.
  { rewrite Hrem. do 3 f_equal. destruct out; [done|].
    unfold l. rewrite list_lookup_fmap, Hab. simpl. by rewrite ?Hd1. }
  split; [exact Hwf'|]. split_and!; try congruence.
  rewrite (contents_list _ _ Hwf'). f_equal. rewrite ?Hd', ?Hd1, ?Hp1.
  unfold ref_remove, l. by rewrite fmap_app, fmap_take, fmap_drop.
Qed.

Lemma list_get w ns pos :
  wf_list_with w ns → 0 ≤ pos < ds_size (w_ds w) →
  let l := (λ nb, memcpy nb.2 (ds_data_size (w_ds w))) <$> ns in
  let w1 := move_cursor w (cursor_for ns pos) in
  lds_get Ptr pos Ptr w = Some (LDS_SUCCESS, l !! Z.to_nat pos, w1) ∧
  wf_list_with w1 ns.
Proof.
  intros Hwf Hpos l w1.
  destruct (wf_list_size _ _ Hwf) as [Hlen _].
  destruct (list_go w ns pos Hwf) as (Hgo & Hwf1 & Hp1 & Hs1 & Hd1); [lia|].
  fold w1 in Hgo, Hwf1, Hp1, Hs1, Hd1.
  destruct (lookup_lt_is_Some_2 ns (Z.to_nat pos)) as [[a b] Hab]; [lia|].
  split; [|done]. unfold lds_get, ds_get.
  rewrite (wf_list_type _ _ Hwf).
  destruct (Z.geb_spec pos (ds_size (w_ds w))); [lia|].
  destruct (Z.ltb_spec pos 0); [lia|]. simpl.
  unfold get_element_from_list. rewrite Hgo. simpl.
  rewrite (it_get_from_list_spec w1 ns a b Hwf1) by (by rewrite Hp1).
  unfold l. rewrite list_lookup_fmap, Hab. simpl. by rewrite ?Hd1.
Qed.

Lemma list_set w ns pos v old :
  wf_list_with w ns → 0 ≤ pos < ds_size (w_ds w) →
  let l := (λ nb, memcpy nb.2 (ds_data_size (w_ds w))) <$> ns in
  l !! Z.to_nat pos = Some old →
  ∃ w0 w' ns',
    lds_set Ptr pos (Some v) w =
      Some (if memcmp_eq v old (ds_data_size (w_ds w))
            then (LDS_FAIL, w0) else (LDS_SUCCESS, w')) ∧
    wf_list_with w0 ns ∧ wf_list_with w' ns' ∧
    ds_size (w_ds w0) = ds_size (w_ds w) ∧
    ds_data_size (w_ds w0) = ds_data_size (w_ds w) ∧
    contents w' = Some (ref_set pos (memcpy v (ds_data_size (w_ds w))) l) ∧
    ds_size (w_ds w') = ds_size (w_ds w) ∧
    ds_data_size (w_ds w') = ds_data_size (w_ds w) ∧
    it_position (ds_iterator (w_ds w')) = pos.
Proof.
  intros Hwf Hpos l Hold.
  destruct (wf_list_size _ _ Hwf) as [Hlen _].
  destruct (list_go w ns pos Hwf) as (Hgo & Hwf1 & Hp1 & Hs1 & Hd1); [lia|].
  set (w1 := move_cursor w (cursor_for ns pos)) in *.
  destruct (lookup_lt_is_Some_2 ns (Z.to_nat pos)) as [[a b] Hab]; [lia|].
  assert (Hob : old = memcpy b (ds_data_size (w_ds w))).
  { unfold l in Hold. rewrite list_lookup_fmap, Hab in Hold.
    by injection Hold. }
  destruct (it_set_in_list_spec w1 ns v a b Hwf1)
    as (w' & Hset & Hwf' & Hds'); [by rewrite Hp1|].
  exists w1, w'. eexists. unfold lds_set, ds_set.
  rewrite (wf_list_type _ _ Hwf).
  destruct (Z.geb_spec pos (ds_size (w_ds w))); [lia|].
  destruct (Z.ltb_spec pos 0); [lia|]. simpl.
  unfold set_element_in_list. rewrite Hgo. simpl.
  split.
  { rewrite Hset, Hob, memcmp_eq_memcpy, ?Hd1. done. }
  split; [exact Hwf1|]. split; [exact Hwf'|].
  rewrite Hds'. split_and!; try done.
  rewrite (contents_list _ _ Hwf'). f_equal. rewrite ?Hds', ?Hd1, ?Hp1.
  unfold ref_set, l. rewrite list_fmap_insert. simpl.
  by rewrite memcpy_idemp.
Qed.

(** *** Either strategy *)

Lemma wf_cases w :
  wf w →
  (ds_type (w_ds w) = LDS_VECTOR ∧ wf_vector (w_ds w)) ∨
  (ds_type (w_ds w) = LDS_LINKED_LIST ∧ ∃ ns, wf_list_with w ns).
Proof.
  unfold wf. destruct (ds_type (w_ds w)) eqn:E; [by left|by right|done].
Qed.

Lemma wf_of_vector w :
  ds_type (w_ds w) = LDS_VECTOR → wf_vector (w_ds w) → wf w.
Proof. unfold wf. by intros ->. Qed.

Lemma wf_of_list w ns : wf_list_with w ns → wf w.
Proof.
  intros H. unfold wf. rewrite (wf_list_type _ _ H). by exists ns.
Qed.

Lemma wf_contents_length w l :
  wf w → contents w = Some l → Z.of_nat (length l) = ds_size (w_ds w).
Proof.
  intros [[Hty Hwf]|[Hty [ns Hwf]]]%wf_cases Hl.
  - by destruct (vector_describes w l Hwf Hl).
  - rewrite (contents_list _ _ Hwf) in Hl. injection Hl as <-.
    rewrite length_fmap. by destruct (wf_list_size _ _ Hwf).
Qed.

Lemma wf_has_contents w : wf w → ∃ l, contents w = Some l.
Proof.
  intros [[Hty Hwf]|[Hty [ns Hwf]]]%wf_cases.
  - pose proof (wf_vector_size _ Hwf) as Hn.
    assert (H : ∀ p, 0 ≤ p < ds_size (w_ds w) →
                     is_Some (element (w_ds w) p)).
    { intros p Hp. destruct (slot_is_Some _ _ Hwf Hp) as [b Hb].
      unfold element. rewrite Hb. by eexists. }
    exists ((λ p, default [] (element (w_ds w) p))
              <$> seqZ 0 (ds_size (w_ds w))).
    apply contents_vector_describes; [done|]. split.
    + rewrite length_fmap, length_seqZ. lia.
    + intros p Hp. rewrite list_lookup_fmap.
      rewrite (proj2 (lookup_seqZ _ _ _ p)) by (split; lia). simpl.
      destruct (H p Hp) as [x ->]. done.
  - eexists. by apply contents_list.
Qed.

Lemma wf_get w l pos :
  wf w → contents w = Some l → 0 ≤ pos < ds_size (w_ds w) →
  ∃ w',
    lds_get Ptr pos Ptr w = Some (LDS_SUCCESS, l !! Z.to_nat pos, w') ∧
    wf w' ∧ contents w' = Some l ∧
    ds_size (w_ds w') = ds_size (w_ds w).
Proof.
  intros [[Hty Hwf]|[Hty [ns Hwf]]]%wf_cases Hl Hpos.
  - exists w. split; [by apply vector_get|]. split_and!; try done.
    by apply wf_of_vector.
  - destruct (list_get w ns pos Hwf Hpos) as [Hget Hwf1].
    rewrite (contents_list _ _ Hwf) in Hl. injection Hl as <-.
    eexists. split; [exact Hget|]. split_and!.
    + by eapply wf_of_list.
    + by rewrite (contents_list _ _ Hwf1).
    + done.
Qed.

Lemma wf_reads_as w l : wf w → contents w = Some l → reads_as w l.
Proof.
  intros Hwf Hl. pose proof (wf_contents_length w l Hwf Hl) as Hlen.
  split; [done|]. intros p Hp.
  destruct (wf_get w l p Hwf Hl) as (w' & Hget & _); [lia|]. eauto.
Qed.

Lemma wf_insert w l pos v a :
  wf w → contents w = Some l → 0 ≤ pos ≤ ds_size (w_ds w) → room w →
  ∃ r w',
    lds_insert Ptr pos (Some v) a w = Some (r, w') ∧ wf w' ∧
    ds_type (w_ds w') = ds_type (w_ds w) ∧
    ds_data_size (w_ds w') = ds_data_size (w_ds w) ∧
    (a ≠ NoMem → r = LDS_SUCCESS) ∧
    ((r = LDS_SUCCESS ∧
      contents w' =
        Some (ref_insert pos (memcpy v (ds_data_size (w_ds w))) l) ∧
      ds_size (w_ds w') = ds_size (w_ds w) + 1 ∧
      (ds_type (w_ds w) = LDS_VECTOR →
       ds_capacity (w_ds w') ≤
         Z.max (ds_capacity (w_ds w)) (Z.max 1 (2 * ds_size (w_ds w))))) ∨
     (r = LDS_FAIL ∧ contents w' = Some l ∧
      ds_size (w_ds w') = ds_size (w_ds w) ∧
      ds_capacity (w_ds w') = ds_capacity (w_ds w))).
Proof.
  intros Hwf Hl Hpos Hroom.
  destruct (wf_cases _ Hwf) as [[Hty Hv]|[Hty [ns Hls]]];
    unfold room in Hroom; rewrite Hty in Hroom.
  - destruct (vector_insert_any w l pos v a Hty Hv Hl Hpos Hroom)
      as (r & w' & Hins & Hwf' & Hty' & Hd' & Hi' & Hres).
    exists r, w'. split; [done|]. split; [by apply wf_of_vector|].
    split; [congruence|]. split; [done|]. split.
    + intros Ha. destruct a as [|junk]; [done|].
      destruct (vector_insert w l pos v junk Hty Hv Hl Hpos Hroom)
        as (w2 & Hins2 & _). congruence.
    + destruct Hres as [(-> & Hc & Hs & Hcap)|[-> ->]].
      * left. split_and!; try done.
      * right. split_and!; done.
  - rewrite (contents_list _ _ Hls) in Hl. injection Hl as <-.
    destruct a as [|junk].
    + destruct (list_insert_NoMem w ns pos v Hls Hpos) as [Hins Hwf1].
      eexists _, _. split; [exact Hins|]. split; [by eapply wf_of_list|].
      split; [done|]. split; [done|]. split; [done|]. right.
      split_and!; try done. by rewrite (contents_list _ _ Hwf1).
    + destruct (list_insert w ns pos v junk Hls Hpos Hroom)
        as (w' & ns' & Hins & Hwf' & Hc & Hs & Hd & Hp).
      exists LDS_SUCCESS, w'. split; [done|].
      split; [by eapply wf_of_list|].
      split; [by rewrite (wf_list_type _ _ Hwf')|].
      split; [done|]. split; [done|]. left. split_and!; try done.
      intros ?; congruence.
Qed.

Lemma wf_remove w l pos out :
  wf w → contents w = Some l → 0 ≤ pos < ds_size (w_ds w) →
  ∃ w',
    lds_remove Ptr pos out w =
      Some (LDS_SUCCESS,
            match out with Ptr => l !! Z.to_nat pos | NULL => None end,
            w') ∧
    wf w' ∧
    ds_type (w_ds w') = ds_type (w_ds w) ∧
    ds_data_size (w_ds w') = ds_data_size (w_ds w) ∧
    contents w' = Some (ref_remove pos l) ∧
    ds_size (w_ds w') = ds_size (w_ds w) - 1 ∧
    (ds_type (w_ds w) = LDS_VECTOR →
     ds_capacity (w_ds w') = ds_capacity (w_ds w)).
Proof.
  intros Hwf Hl Hpos.
  destruct (wf_cases _ Hwf) as [[Hty Hv]|[Hty [ns Hls]]].
  - destruct (vector_remove w l pos out Hty Hv Hl Hpos)
      as (w' & Hrem & Hwf' & Hty' & Hc & Hs & Hd & Hi & Hcap).
    exists w'. split; [done|]. split; [by apply wf_of_vector|].
    split_and!; try done; congruence.
  - rewrite (contents_list _ _ Hls) in Hl. injection Hl as <-.
    destruct (list_remove w ns pos out Hls Hpos)
      as (w' & ns' & Hrem & Hwf' & Hc & Hs & Hd & Hp).
    exists w'. split; [done|]. split; [by eapply wf_of_list|].
    split; [by rewrite (wf_list_type _ _ Hwf')|].
    split_and!; try done. intros ?; congruence.
Qed.

Lemma wf_set w l pos v old :
  wf w → contents w = Some l → 0 ≤ pos < ds_size (w_ds w) →
  l !! Z.to_nat pos = Some old →
  ∃ r w',
    lds_set Ptr pos (Some v) w = Some (r, w') ∧ wf w' ∧
    ds_type (w_ds w') = ds_type (w_ds w) ∧
    ds_data_size (w_ds w') = ds_data_size (w_ds w) ∧
    ds_size (w_ds w') = ds_size (w_ds w) ∧
    (ds_type (w_ds w) = LDS_VECTOR →
     ds_capacity (w_ds w') = ds_capacity (w_ds w)) ∧
    r = (if memcmp_eq v old (ds_data_size (w_ds w))
         then LDS_FAIL else LDS_SUCCESS) ∧
    contents w' =
      Some (if memcmp_eq v old (ds_data_size (w_ds w)) then l
            else ref_set pos (memcpy v (ds_data_size (w_ds w))) l).
Proof.
  intros Hwf Hl Hpos Hold.
  destruct (wf_cases _ Hwf) as [[Hty Hv]|[Hty [ns Hls]]].
  - destruct (vector_set w l pos v old Hty Hv Hl Hpos Hold)
      as (w' & Hset & Hwf' & Hty' & Hc & Hs & Hd & Hi & Hcap).
    destruct (memcmp_eq v old _) eqn:E.
    + exists LDS_FAIL, w. by split_and!.
    + exists LDS_SUCCESS, w'. split; [done|].
      split; [by apply wf_of_vector|]. split_and!; try done; congruence.
  - rewrite (contents_list _ _ Hls) in Hl. injection Hl as <-.
    destruct (list_set w ns pos v old Hls Hpos Hold)
      as (w0 & w' & ns' & Hset & Hwf0 & Hwf' & Hs0 & Hd0 & Hc & Hs & Hd & Hp).
    destruct (memcmp_eq v old _) eqn:E.
    + exists LDS_FAIL, w0. split; [done|].
      split; [by eapply wf_of_list|].
      split; [by rewrite (wf_list_type _ _ Hwf0)|].
      split_and!; try done; [intros ?; congruence|].
      by rewrite (contents_list _ _ Hwf0), Hd0.
    + exists LDS_SUCCESS, w'. split; [done|].
      split; [by eapply wf_of_list|].
      split; [by rewrite (wf_list_type _ _ Hwf')|].
      split_and!; try done. intros ?; congruence.
Qed.

(** ** Construction *)

Lemma lds_new_vector_wf ic dsz a w :
  0 ≤ ic ≤ cap_limit → lds_new_vector ic dsz a = Some w →
  wf w ∧ contents w = Some [] ∧ ds_type (w_ds w) = LDS_VECTOR ∧
  ds_size (w_ds w) = 0 ∧ ds_capacity (w_ds w) = ic ∧
  ds_data_size (w_ds w) = dsz ∧ it_position (ds_iterator (w_ds w)) = 0.
Proof.
  intros Hic. destruct a as [|junk]; [done|]. intros [= <-].
  split_and!; try done.
  unfold wf, wf_vector. simpl. split; [done|].
  rewrite length_replicate. split_and!; try lia.
  destruct (decide (ic = 0)); [by left|right].
  split; [lia|]. symmetry. apply Z.mod_small. lia.
Qed.

Lemma lds_new_list_wf dsz m w :
  lds_new_list dsz m = Some w →
  wf_list_with w [] ∧ contents w = Some [] ∧
  ds_size (w_ds w) = 0 ∧ ds_data_size (w_ds w) = dsz ∧
  it_position (ds_iterator (w_ds w)) = 0.
Proof.
  destruct m as [c|]; [|done]. intros [= <-].
  split_and!; try done.
  unfold wf_list_with, chain, cursor_at. simpl.
  split_and!; try done. constructor.
Qed.

Lemma created_wf dsz w :
  created dsz w →
  wf w ∧ contents w = Some [] ∧ ds_size (w_ds w) = 0 ∧
  ds_data_size (w_ds w) = dsz ∧
  (ds_type (w_ds w) = LDS_VECTOR → ds_capacity (w_ds w) ≤ cap_limit).
Proof.
  intros [(ic & a & Hic & H)|(m & H)].
  - destruct (lds_new_vector_wf _ _ _ _ Hic H)
      as (? & ? & ? & ? & ? & ? & ?).
    split_and!; try done. intros _. lia.
  - destruct (lds_new_list_wf _ _ _ H) as (Hwf & ? & ? & ? & ?).
    split_and!; try done; [by eapply wf_of_list|].
    rewrite (wf_list_type _ _ Hwf). done.
Qed.

(** ** Lockstep with the reference sequence *)

Lemma wf_contents_elements w l p old :
  wf w → contents w = Some l → l !! p = Some old →
  memcpy old (ds_data_size (w_ds w)) = old.
Proof.
  intros [[Hty Hwf]|[Hty [ns Hwf]]]%wf_cases Hl Hp.
  - destruct (vector_describes w l Hwf Hl) as [Hlen Hd].
    pose proof (lookup_lt_Some _ _ _ Hp) as Hlt.
    specialize (Hd (Z.of_nat p)). rewrite Nat2Z.id, Hp in Hd.
    assert (Hd' : Some old = element (w_ds w) (Z.of_nat p))
      by (apply Hd; lia).
    unfold element in Hd'.
    destruct (slot (w_ds w) (Z.of_nat p)) as [b|]; [|done].
    injection Hd' as ->. apply memcpy_idemp.
  - rewrite (contents_list _ _ Hwf) in Hl. injection Hl as <-.
    rewrite list_lookup_fmap in Hp.
    destruct (ns !! p) as [[a b]|]; [|done]. injection Hp as <-.
    apply memcpy_idemp.
Qed.

Lemma trace_invariant dsz ops :
  ∀ w l k,
    wf w → contents w = Some l → ds_data_size (w_ds w) = dsz →
    0 ≤ k → ds_size (w_ds w) ≤ k →
    2 * (k + Z.of_nat (length ops)) ≤ cap_limit →
    trace_valid dsz ops w l = true →
    trace_agrees ops w l.
Proof.
  induction ops as [|o ops IH]; intros w l k Hwf Hl Hd Hk0 Hk Hlim Hv;
    [done|].
  cbn [trace_valid] in Hv. apply andb_prop in Hv as [Hvo Hv].
  cbn [trace_agrees].
  pose proof (wf_contents_length _ _ Hwf Hl) as Hlen.
  assert (Hcl : cap_limit = 2 ^ 63) by done.
  simpl length in Hlim.
  destruct o as [pos v a|pos out|pos v]; simpl in Hvo;
    apply bool_decide_eq_true in Hvo.
  - (* insert *)
    destruct Hvo as [Hpos Hvl].
    assert (Hroom : room w).
    { unfold room. destruct (ds_type (w_ds w)) eqn:Hty.
      - intros Hfull. lia.
      - unfold SIZE_MAX, size_modulus. lia.
      - by unfold wf in Hwf; rewrite Hty in Hwf. }
    destruct (wf_insert w l pos v a Hwf Hl) as
      (r & w' & Hrun & Hwf' & Hty' & Hd' & _ & Hres); [lia|done|].
    change (lds_insert Ptr pos (Some v) a w)
      with (run_op (Insert pos v a) w) in Hrun.
    rewrite Hrun in Hv. exists r, w'.
    split; [done|].
    assert (Hc' : contents w' =
                  Some (if decide (r = LDS_SUCCESS)
                        then ref_insert pos v l else l)).
    { destruct Hres as [(-> & Hc & _)|(-> & Hc & _)].
      - rewrite Hc, Hd, memcpy_full by done. done.
      - done. }
    split; [done|]. split; [by apply wf_reads_as|].
    assert (Hs' : ds_size (w_ds w') ≤ k + 1)
      by (destruct Hres as [(_ & _ & -> & _)|(_ & _ & -> & _)]; lia).
    apply (IH _ _ (k + 1)); try done; try lia; congruence.
  - (* remove *)
    destruct (wf_remove w l pos out Hwf Hl) as
      (w' & Hrun & Hwf' & Hty' & Hd' & Hc' & Hs' & Hcap'); [lia|].
    assert (Hrun' : run_op (Remove pos out) w = Some (LDS_SUCCESS, w')).
    { unfold run_op. by rewrite Hrun. }
    rewrite Hrun' in Hv.
    exists LDS_SUCCESS, w'. split; [done|]. split; [done|].
    split; [by apply wf_reads_as|].
    apply (IH _ _ (k + 1)); try done; try lia; congruence.
  - (* set *)
    destruct Hvo as [Hpos Hvl].
    destruct (lookup_lt_is_Some_2 l (Z.to_nat pos)) as [old Hold]; [lia|].
    destruct (wf_set w l pos v old Hwf Hl) as
      (r & w' & Hrun & Hwf' & Hty' & Hd' & Hs' & Hcap' & Hr & Hc');
      [lia|done|].
    change (lds_set Ptr pos (Some v) w)
      with (run_op (Set_ pos v) w) in Hrun.
    rewrite Hrun in Hv. exists r, w'.
    split; [done|].
    assert (Hc2 : contents w' = Some (ref_set pos v l)).
    { rewrite Hc', Hd, (memcpy_full v) by done.
      destruct (memcmp_eq v old dsz) eqn:E; [|done].
      unfold memcmp_eq in E. apply bool_decide_eq_true in E.
      fold (memcpy v dsz) in E. fold (memcpy old dsz) in E.
      rewrite memcpy_full in E by done.
      rewrite <- Hd, (wf_contents_elements _ _ _ _ Hwf Hl Hold) in E.
      subst v. unfold ref_set. by rewrite list_insert_id. }
    split; [done|]. split; [by apply wf_reads_as|].
    apply (IH _ _ (k + 1)); try done; try lia; congruence.
Qed.

(** ** The iterator interface on well-formed worlds *)

Lemma contents_move_cursor w it : contents (move_cursor w it) = contents w.
Proof.
  unfold contents, move_cursor. simpl.
  destruct (ds_storage (w_ds w)); [|done].
  apply mapM_ext. intros i. done.
Qed.

Lemma wf_vector_move_cursor w it :
  ds_type (w_ds w) = LDS_VECTOR → wf_vector (w_ds w) →
  wf (move_cursor w it).
Proof. intros Hty Hwf. unfold wf. simpl. by rewrite Hty. Qed.

Lemma wf_it_go w l k :
  wf w → contents w = Some l → 0 ≤ k ≤ ds_size (w_ds w) →
  ∃ w',
    lds_it_go Ptr k w = Some (LDS_SUCCESS, w') ∧
    wf w' ∧ contents w' = Some l ∧
    it_position (ds_iterator (w_ds w')) = k ∧
    ds_size (w_ds w') = ds_size (w_ds w).
Proof.
  intros Hwf Hl Hk. unfold lds_it_go.
  destruct (Z.gtb_spec k (ds_size (w_ds w))); [lia|].
  destruct (wf_cases _ Hwf) as [[Hty Hv]|[Hty [ns Hls]]]; rewrite Hty.
  - eexists. split; [reflexivity|].
    split; [by apply wf_vector_move_cursor|].
    split; [|done].
    by rewrite <- Hl, <- (contents_move_cursor w
      (mkIt k (it_current (ds_iterator (w_ds w)))
              (it_previous (ds_iterator (w_ds w))))).
  - destruct (list_go w ns k Hls Hk) as (Hgo & Hwf1 & Hp1 & Hs1 & Hd1).
    eexists. split; [exact Hgo|]. split; [by eapply wf_of_list|].
    split; [|done]. by rewrite contents_move_cursor.
Qed.

Lemma wf_it_get w l :
  wf w → contents w = Some l →
  0 ≤ it_position (ds_iterator (w_ds w)) < ds_size (w_ds w) →
  lds_it_get Ptr Ptr w =
    Some (LDS_SUCCESS,
          l !! Z.to_nat (it_position (ds_iterator (w_ds w))), w).
Proof.
  intros Hwf Hl Hk. unfold lds_it_get.
  destruct (Z.eqb_spec (it_position (ds_iterator (w_ds w)))
              (ds_size (w_ds w))); [lia|].
  destruct (wf_cases _ Hwf) as [[Hty Hv]|[Hty [ns Hls]]]; rewrite Hty.
  - pose proof (vector_get w l _ Hty Hv Hl Hk) as Hget.
    revert Hget. unfold lds_get, ds_get, it_get_from_vector. rewrite Hty.
    destruct (Z.geb_spec (it_position (ds_iterator (w_ds w)))
                (ds_size (w_ds w))); [lia|].
    destruct (Z.ltb_spec (it_position (ds_iterator (w_ds w))) 0); [lia|].
    done.
  - destruct (wf_list_size _ _ Hls) as [Hlen _].
    destruct (lookup_lt_is_Some_2 ns
                (Z.to_nat (it_position (ds_iterator (w_ds w)))))
      as [[a b] Hab]; [lia|].
    rewrite (it_get_from_list_spec w ns a b Hls Hab).
    rewrite (contents_list _ _ Hls) in Hl. injection Hl as <-.
    by rewrite list_lookup_fmap, Hab.
Qed.

Lemma wf_it_remove w l out :
  wf w → contents w = Some l →
  let pos := it_position (ds_iterator (w_ds w)) in
  0 ≤ pos < ds_size (w_ds w) →
  ∃ w',
    lds_it_remove Ptr out w =
      Some (LDS_SUCCESS,
            match out with Ptr => l !! Z.to_nat pos | NULL => None end,
            w') ∧
    wf w' ∧ contents w' = Some (ref_remove pos l) ∧
    ds_size (w_ds w') = ds_size (w_ds w) - 1 ∧
    it_position (ds_iterator (w_ds w')) = pos.
Proof.
  intros Hwf Hl pos Hk. unfold lds_it_remove. fold pos.
  destruct (Z.eqb_spec pos (ds_size (w_ds w))); [lia|].
  destruct (wf_cases _ Hwf) as [[Hty Hv]|[Hty [ns Hls]]]; rewrite Hty.
  - destruct (vector_remove w l pos out Hty Hv Hl Hk)
      as (w' & Hrem & Hwf' & Hty' & Hc & Hs & Hd & Hi & Hcap).
    exists w'. split.
    { revert Hrem. unfold lds_remove, ds_remove, it_remove_from_vector.
      rewrite Hty. fold pos.
      destruct (Z.geb_spec pos (ds_size (w_ds w))); [lia|].
      destruct (Z.ltb_spec pos 0); [lia|]. done. }
    split; [by apply wf_of_vector|]. split_and!; try done.
    by rewrite Hi.
  - destruct (wf_list_size _ _ Hls) as [Hlen _].
    destruct (lookup_lt_is_Some_2 ns (Z.to_nat pos)) as [[a b] Hab]; [lia|].
    destruct (it_remove_from_list_spec w ns out a b Hls Hab)
      as (w' & Hrem & Hwf' & Hp' & Hd' & Hs').
    rewrite (contents_list _ _ Hls) in Hl. injection Hl as <-.
    exists w'. split.
    { rewrite Hrem. do 3 f_equal. destruct out; [done|].
      by rewrite list_lookup_fmap, Hab. }
    split; [by eapply wf_of_list|]. split_and!; try done.
    rewrite (contents_list _ _ Hwf'), Hd'. f_equal.
    unfold ref_remove. by rewrite fmap_app, fmap_take, fmap_drop.
Qed.

(** ** Example containers are well formed *)


Lemma ex_new_list_created : created 4 ex_new_list.
Proof. right. by exists (Some 7). Qed.

Lemma ex_wrapped_wf : wf ex_wrapped.
Proof.
  unfold wf, wf_vector, cap_limit. simpl. split_and!; try done; try lia.
  right. split; [lia|reflexivity].
Qed.

Lemma ex_unwrapped_wf : wf ex_unwrapped.
Proof.
  unfold wf, wf_vector, cap_limit. simpl. split_and!; try done; try lia.
  right. split; [lia|reflexivity].
Qed.

Lemma ex_full_wf : wf ex_full.
Proof.
  unfold wf, wf_vector, cap_limit. simpl. split_and!; try done; try lia.
  right. split; [lia|reflexivity].
Qed.

Lemma ex_list_wf : wf ex_list.
Proof.
  apply (wf_of_list _ [(1%positive, e10); (2%positive, e20);
                       (3%positive, e30)]).
  unfold wf_list_with, chain, cursor_at, SIZE_MAX, size_modulus. simpl.
  split_and!; try done; try lia.
  - eexists. split; [reflexivity|]. split; [done|].
    eexists. split; [reflexivity|]. split; [done|].
    eexists. split; [reflexivity|]. done.
  - compute_done.
Qed.

(** On the list the invariant of the data model contains that of the
    iterator, so every call that keeps the former keeps the latter. *)
Lemma wf_list_cursor_ok w : wf_list w → cursor_ok w.
Proof.
  intros [ns [Hty Hwf]]. unfold cursor_ok.
  destruct (ds_storage (w_ds w)) as [|first last_]; [done|].
  destruct Hwf as (Hc & Hnd & Hlen & Hlim & Hlast & Hcur).
  split; [destruct Hcur; lia|]. by exists ns.
Qed.

(** * The claims *)



(** The same trace on the linked list. *)
Example ex_trace_on_list : trace_agrees ex_trace ex_new_list [].
Proof.
  destruct (created_wf _ _ ex_new_list_created) as (Hwf & Hl & Hs & Hd & _).
  apply (trace_invariant 4 ex_trace ex_new_list [] 0);
    [done|done|done|lia|lia|vm_compute; discriminate|vm_compute; reflexivity].
Qed.

(** C2.  On a buffer whose sequence wraps past the physical end, an insert
    at a middle position (0 < pos < size < capacity) returns success and
    leaves the same logical sequence as the same insert on any other
    buffer with the same contents, in particular an unwrapped one.  In the
    wrapping case of the insert, the one where the run from the target slot
    to [tail] wraps ([tail ≤ index]), the buffer is rotated in three steps:
    slots [0, tail) move one slot forward, the slot [capacity - 1] moves to
    slot 0, slots [index, capacity - 1) move one slot forward and the value
    lands in [index]; [head] is unchanged and [tail] advances by one. *)
Theorem insert_in_wrapped_buffer (w1 w2 : World) (l : list block) (pos : Z)
    (v : block) (a1 a2 : alloc) :
  ds_type (w_ds w1) = LDS_VECTOR → ds_type (w_ds w2) = LDS_VECTOR →
  wf w1 → wf w2 → wrapped (w_ds w1) → ¬ wrapped (w_ds w2) →
  contents w1 = Some l → contents w2 = Some l →
  ds_data_size (w_ds w1) = ds_data_size (w_ds w2) →
  0 < pos < ds_size (w_ds w1) →
  ds_size (w_ds w1) < ds_capacity (w_ds w1) →
  ds_size (w_ds w2) < ds_capacity (w_ds w2) →
  ∃ w1' w2',
    lds_insert Ptr pos (Some v) a1 w1 = Some (LDS_SUCCESS, w1') ∧
    lds_insert Ptr pos (Some v) a2 w2 = Some (LDS_SUCCESS, w2') ∧
    contents w1' = contents w2' ∧
    contents w1' =
      Some (ref_insert pos (memcpy v (ds_data_size (w_ds w1))) l) ∧
    match ds_storage (w_ds w1), ds_storage (w_ds w1') with
    | Vec v0 head tail, Vec v' head' tail' =>
        let capacity := ds_capacity (w_ds w1) in
        let index := (head + pos) mod capacity in
        tail ≤ index →
        head' = head ∧ tail' = tail + 1 ∧
        (∀ i, 0 ≤ i < tail → load v' (i + 1) = load v0 i) ∧
        load v' 0 = load v0 (capacity - 1) ∧
        (∀ i, index < i ≤ capacity - 1 → load v' i = load v0 (i - 1)) ∧
        load v' index = Some (memcpy v (ds_data_size (w_ds w1))) ∧
        (∀ i, tail < i < index → load v' i = load v0 i)
    | _, _ => False
    end.
Proof.
  intros Hty1 Hty2 Hwf1 Hwf2 Hwr1 Hwr2 Hl1 Hl2 Hd Hpos Hfree1 Hfree2.
  pose proof (wf_contents_length _ _ Hwf1 Hl1) as Hlen1.
  pose proof (wf_contents_length _ _ Hwf2 Hl2) as Hlen2.
  unfold wf in Hwf1, Hwf2. rewrite Hty1 in Hwf1. rewrite Hty2 in Hwf2.
  destruct (place_in_vector_spec (w_ds w1) pos v Hwf1 Hfree1)
    as (ds1 & Hp1 & Hwf1' & Hs1 & Hc1 & Hd1 & Hi1 & Hsl1); [lia|].
  destruct (place_in_vector_spec (w_ds w2) pos v Hwf2 Hfree2)
    as (ds2 & Hp2 & Hwf2' & Hs2 & Hc2 & Hd2 & Hi2 & Hsl2); [lia|].
  assert (Hins : ∀ w a ds',
    ds_type (w_ds w) = LDS_VECTOR → 0 < pos < ds_size (w_ds w) →
    ds_size (w_ds w) < ds_capacity (w_ds w) →
    place_in_vector (w_ds w) pos v = Some (LDS_SUCCESS, ds') →
    lds_insert Ptr pos (Some v) a w = Some (LDS_SUCCESS, with_ds w ds')).
  { intros w a ds' Hty Hp Hf Hpl. unfold lds_insert, ds_insert.
    rewrite Hty. destruct (Z.gtb_spec pos (ds_size (w_ds w))); [lia|].
    destruct (Z.ltb_spec pos 0); [lia|]. simpl.
    rewrite insert_element_in_vector_alloc_irrelevant by lia.
    by rewrite Hpl. }
  assert (Hcont : ∀ w ds',
    wf_vector (w_ds w) → contents w = Some l → wf_vector ds' →
    0 < pos < ds_size (w_ds w) →
    ds_size ds' = ds_size (w_ds w) + 1 →
    ds_data_size ds' = ds_data_size (w_ds w) →
    (∀ p, 0 ≤ p ≤ ds_size (w_ds w) →
       slot ds' p =
         if decide (p < pos) then slot (w_ds w) p
         else if decide (p = pos)
              then Some (memcpy v (ds_data_size (w_ds w)))
              else slot (w_ds w) (p - 1)) →
    contents (with_ds w ds') =
      Some (ref_insert pos (memcpy v (ds_data_size (w_ds w))) l)).
  { intros w ds' Hwf Hl Hwf' Hp Hs Hdd Hsl.
    apply contents_vector_describes; [done|]. simpl. rewrite Hs.
    eapply describes_ext;
      [apply describes_insert; [by apply vector_describes|lia]|].
    intros p Hpp. simpl. unfold element. rewrite Hsl, Hdd by lia.
    repeat case_decide; try done; simpl; by rewrite memcpy_idemp. }
  exists (with_ds w1 ds1), (with_ds w2 ds2).
  split; [by apply Hins|]. split; [apply Hins; try done; lia|].
  rewrite (Hcont w1 ds1) by done.
  rewrite (Hcont w2 ds2) by (done || lia).
  split; [by rewrite Hd|]. split; [done|].
  (* the physical rotation *)
  clear Hins Hcont Hsl1 Hsl2. revert Hp1. unfold place_in_vector.
  destruct Hwf1 as [_ Hwf1]. unfold wrapped in Hwr1.
  destruct (w_ds w1) as [[v0 h t|] n c dsz ty it]; simpl in *; [|done].
  destruct Hwf1 as (Hlen & Hn & Hc & [(? & ? & ?)|(Hh & Ht)]); [lia|].
  assert (Hc' : c ≤ 2 ^ 63) by exact Hc.
  assert (Htb : 0 ≤ t < c) by (subst t; apply Z.mod_pos_bound; lia).
  destruct (Z.eqb_spec pos n); [lia|]. destruct (Z.eqb_spec pos 0); [lia|].
  rewrite ?umod_Some by lia. simpl. unwrap.
  set (index := (h + pos) mod c).
  assert (Hidx : index = (h + pos) mod c) by done. clearbody index.
  destruct (Z.gtb_spec t index) as [Hgt|Hle].
  { unwrap. intros Hp1. destruct ds1 as [[v' h' t'|] ? ? ? ? ?]; simpl.
    - intros. lia.
    - destruct (memmove _ _ _ _); simpl in Hp1; [|done].
      destruct (store _ _ _); simpl in Hp1; done. }
  unwrap.
  destruct (memmove_Some v0 1 0 t) as [x1 Hx1]; try solve_idx.
  rewrite Hx1; simpl.
  destruct (memmove_Some x1 0 (c - 1) 1) as [x2 Hx2];
    try (rewrite (memmove_length _ _ _ _ _ Hx1)); try solve_idx.
  rewrite Hx2; simpl.
  destruct (memmove_Some x2 (index + 1) index (c - index - 1)) as [x3 Hx3];
    try (rewrite (memmove_length _ _ _ _ _ Hx2),
           (memmove_length _ _ _ _ _ Hx1)); try solve_idx.
  rewrite Hx3; simpl.
  destruct (store_Some x3 index (memcpy v dsz)) as [x4 Hx4];
    [rewrite (memmove_length _ _ _ _ _ Hx3), (memmove_length _ _ _ _ _ Hx2),
       (memmove_length _ _ _ _ _ Hx1); solve_idx|].
  rewrite Hx4; simpl. intros [= <-]. simpl. intros _.
  split; [done|]. split; [solve_idx|].
  split_and!.
  - intros i Hi. rewrite !(load_store _ _ _ _ _ Hx4),
      !(load_memmove _ _ _ _ _ _ Hx3), !(load_memmove _ _ _ _ _ _ Hx2),
      !(load_memmove _ _ _ _ _ _ Hx1). fin.
  - rewrite !(load_store _ _ _ _ _ Hx4),
      !(load_memmove _ _ _ _ _ _ Hx3), !(load_memmove _ _ _ _ _ _ Hx2),
      !(load_memmove _ _ _ _ _ _ Hx1). fin.
  - intros i Hi. rewrite !(load_store _ _ _ _ _ Hx4),
      !(load_memmove _ _ _ _ _ _ Hx3), !(load_memmove _ _ _ _ _ _ Hx2),
      !(load_memmove _ _ _ _ _ _ Hx1). fin.
  - rewrite !(load_store _ _ _ _ _ Hx4). by rewrite decide_True.
  - intros i Hi. rewrite !(load_store _ _ _ _ _ Hx4),
      !(load_memmove _ _ _ _ _ _ Hx3), !(load_memmove _ _ _ _ _ _ Hx2),
      !(load_memmove _ _ _ _ _ _ Hx1). fin.
Qed.

Lemma insert_in_wrapped_buffer_witness :
  ∃ w1' w2',
    lds_insert Ptr 1 (Some e40) NoMem ex_wrapped = Some (LDS_SUCCESS, w1') ∧
    lds_insert Ptr 1 (Some e40) NoMem ex_unwrapped
      = Some (LDS_SUCCESS, w2') ∧
    contents w1' = contents w2' ∧
    contents w1' = Some [e10; e40; e20; e30] ∧
    match ds_storage (w_ds w1') with
    | Vec v' head' tail' =>
        1 ≤ 3 →
        head' = 2 ∧ tail' = 2 ∧
        (∀ i, 0 ≤ i < 1 → load v' (i + 1) = load [e30; junk4; e10; e20] i) ∧
        load v' 0 = load [e30; junk4; e10; e20] 3 ∧
        (∀ i, 3 < i ≤ 3 → load v' i = load [e30; junk4; e10; e20] (i - 1)) ∧
        load v' 3 = Some e40 ∧
        (∀ i, 1 < i < 3 → load v' i = load [e30; junk4; e10; e20] i)
    | Lst _ _ => False
    end.
Proof.
  apply (insert_in_wrapped_buffer ex_wrapped ex_unwrapped [e10; e20; e30] 1
           e40 NoMem NoMem).
  - reflexivity.
  - reflexivity.
  - exact ex_wrapped_wf.
  - exact ex_unwrapped_wf.
  - vm_compute. reflexivity.
  - vm_compute. discriminate.
  - reflexivity.
  - reflexivity.
  - reflexivity.
  - simpl. lia.
  - simpl. lia.
  - simpl. lia.
Defined.

(** C3.  On a full buffer (size = capacity) a successful insert first grows
    the buffer: the capacity becomes twice the old one, or 1 when it was 0,
    and the insert proper runs on the grown buffer.  With [head ≥ tail] at
    that moment the slots [0, tail) are found again from slot
    [oldCapacity] on and [tail] is [oldCapacity + tail].  Afterwards the
    container holds the old sequence with the new element inserted, and
    [lds_get] reads exactly that. *)
Theorem growth_preserves_sequence (w : World) (l : list block) (pos : Z)
    (v junk : block) :
  ds_type (w_ds w) = LDS_VECTOR → wf w → contents w = Some l →
  ds_size (w_ds w) = ds_capacity (w_ds w) →
  2 * ds_capacity (w_ds w) ≤ cap_limit →
  0 ≤ pos ≤ ds_size (w_ds w) →
  ∃ grown w',
    grow_vector (w_ds w) (Mem junk) = Some (Some grown) ∧
    insert_element_in_vector (w_ds w) pos v (Mem junk)
      = place_in_vector grown pos v ∧
    ds_capacity grown =
      (if decide (ds_capacity (w_ds w) = 0) then 1
       else 2 * ds_capacity (w_ds w)) ∧
    match ds_storage (w_ds w), ds_storage grown with
    | Vec v0 head tail, Vec v1 head1 tail1 =>
        tail ≤ head →
        head1 = head ∧ tail1 = ds_capacity (w_ds w) + tail ∧
        ∀ i, 0 ≤ i < tail →
          load v1 (ds_capacity (w_ds w) + i) = load v0 i
    | _, _ => False
    end ∧
    lds_insert Ptr pos (Some v) (Mem junk) w = Some (LDS_SUCCESS, w') ∧
    ds_capacity (w_ds w') = ds_capacity grown ∧
    ds_size (w_ds w') = ds_size (w_ds w) + 1 ∧
    contents w' =
      Some (ref_insert pos (memcpy v (ds_data_size (w_ds w))) l) ∧
    reads_as w' (ref_insert pos (memcpy v (ds_data_size (w_ds w))) l).
Proof.
  intros Hty Hwf Hl Hfull Hlim Hpos.
  assert (Hv : wf_vector (w_ds w)) by (unfold wf in Hwf; by rewrite Hty in Hwf).
  destruct (grow_vector_spec (w_ds w) junk Hv Hfull Hlim)
    as (grown & Hg & Hwfg & Hsg & Hcg & Hdg & Hig & Hslg & Hphys).
  destruct (vector_insert w l pos v junk Hty Hv Hl Hpos)
    as (w' & Hins & Hwf' & Hty' & Hc' & Hs' & Hd' & Hi' & Hcap');
    [done|].
  exists grown, w'. split; [done|]. split.
  { unfold insert_element_in_vector.
    rewrite (proj2 (Z.eqb_eq _ _) Hfull). by rewrite Hg. }
  split; [done|]. split.
  { destruct (ds_storage (w_ds w)) as [v0 h t|]; [|done].
    destruct (ds_storage grown) as [v1 h1 t1|]; [|done].
    destruct Hphys as (? & ? & ? & ?). by intros _. }
  split; [done|]. split.
  { rewrite Hcap', Hcg. by rewrite decide_True. }
  split; [done|]. split; [done|].
  apply wf_reads_as; [by apply wf_of_vector|done].
Qed.

Lemma growth_preserves_sequence_witness :
  ∃ grown w',
    grow_vector (w_ds ex_full) (Mem junk4) = Some (Some grown) ∧
    insert_element_in_vector (w_ds ex_full) 1 e40 (Mem junk4)
      = place_in_vector grown 1 e40 ∧
    ds_capacity grown = 8 ∧
    match ds_storage grown with
    | Vec v1 head1 tail1 =>
        2 ≤ 2 →
        head1 = 2 ∧ tail1 = 6 ∧
        ∀ i, 0 ≤ i < 2 → load v1 (4 + i) = load [e30; e40; e10; e20] i
    | Lst _ _ => False
    end ∧
    lds_insert Ptr 1 (Some e40) (Mem junk4) ex_full
      = Some (LDS_SUCCESS, w') ∧
    ds_capacity (w_ds w') = ds_capacity grown ∧
    ds_size (w_ds w') = 5 ∧
    contents w' = Some [e10; e40; e20; e30; e40] ∧
    reads_as w' [e10; e40; e20; e30; e40].
Proof.
  apply (growth_preserves_sequence ex_full [e10; e20; e30; e40] 1 e40 junk4).
  - reflexivity.
  - exact ex_full_wf.
  - reflexivity.
  - reflexivity.
  - vm_compute. discriminate.
  - simpl. lia.
Defined.

(** C4.  The code does not do what the specification says of
    [removeLast] on an empty container: [lds_remove_last] has no position
    check.  On an empty vector [size - 1] wraps to [SIZE_MAX], which
    [remove_element_from_vector] takes for the last position: the call
    returns success, hands back a junk slot and leaves the size at
    [SIZE_MAX], where [lds_remove] at the same position reports a position
    error and changes nothing.  On an empty list the same call walks the
    iterator off the chain, which is undefined. *)
Theorem lds_remove_last_on_empty :
  (∃ w',
     lds_remove_last Ptr Ptr ex_new_vector
       = Some (LDS_SUCCESS, Some junk4, w') ∧
     lds_size Ptr w' = SIZE_MAX) ∧
  lds_remove Ptr (wrap (lds_size Ptr ex_new_vector - 1)) Ptr ex_new_vector
    = Some (LDS_POS_ERR, None, ex_new_vector) ∧
  lds_remove_last Ptr Ptr ex_new_list = None.
Proof.
  split_and!.
  - eexists. split; vm_compute; reflexivity.
  - vm_compute. reflexivity.
  - unfold lds_remove_last, ds_remove, remove_element_from_list,
      it_go_in_list. simpl. reflexivity.
Qed.

(** C5.  The code does not keep the iterator invariant on the vector: a
    direct [lds_remove] does not touch the iterator.  With the iterator after the
    last element of a one-element vector, removing that element leaves
    position 1 with size 0.  The guards of the iterator interface compare
    the position with the size by equality, so [lds_it_get] then returns
    success with the content of a slot outside the sequence. *)
Theorem direct_remove_breaks_cursor :
  ∃ w1 w2 w3,
    lds_insert_last Ptr (Some e10) (Mem junk4) ex_new_vector
      = Some (LDS_SUCCESS, w1) ∧
    cursor_ok w1 ∧
    lds_it_go Ptr 1 w1 = Some (LDS_SUCCESS, w2) ∧
    cursor_ok w2 ∧
    lds_remove Ptr 0 NULL w2 = Some (LDS_SUCCESS, None, w3) ∧
    lds_size Ptr w3 = 0 ∧ lds_it_position Ptr w3 = Some 1 ∧
    ¬ cursor_ok w3 ∧
    lds_it_get Ptr Ptr w3 = Some (LDS_SUCCESS, Some junk4, w3).
Proof.
  eexists _, _, _. split_and!; try (vm_compute; reflexivity).
  - unfold cursor_ok. simpl. lia.
  - unfold cursor_ok. simpl. lia.
  - unfold cursor_ok. simpl. lia.
Qed.

(** C6.  One entry point does not answer [LDS_NULL] for a null container:
    [lds_insert_last] reads [ds->size] before any check, so the null
    pointer is dereferenced.  [lds_insert], [lds_get], [lds_set],
    [lds_remove] and [lds_remove_last] do answer [LDS_NULL] and change
    nothing. *)
Theorem lds_insert_last_null (value : option block) (a : alloc) (w : World) :
  lds_insert_last NULL value a w = None ∧
  (∀ position, lds_insert NULL position value a w = Some (LDS_NULL, w)) ∧
  (∀ position out, lds_get NULL position out w = Some (LDS_NULL, None, w)) ∧
  (∀ position, lds_set NULL position value w = Some (LDS_NULL, w)) ∧
  (∀ position out,
     lds_remove NULL position out w = Some (LDS_NULL, None, w)) ∧
  (∀ out, lds_remove_last NULL out w = Some (LDS_NULL, None, w)).
Proof.
  split_and!; try reflexivity; intros position; by destruct value.
Qed.

(** C7.  On a well-formed container of either kind and a position below the
    size, [lds_set] with a value whose [data_size] bytes equal the stored
    element returns [LDS_FAIL], the "unchanged" result, and leaves size and
    contents as they were; with a value that differs it returns
    [LDS_SUCCESS], the element at the position becomes the value, and the
    size and every other position stay. *)
Theorem set_unchanged_or_applied (w : World) (l : list block) (pos : Z)
    (v old : block) :
  wf w → contents w = Some l →
  0 ≤ pos < ds_size (w_ds w) → l !! Z.to_nat pos = Some old →
  ∃ r w',
    lds_set Ptr pos (Some v) w = Some (r, w') ∧
    ds_size (w_ds w') = ds_size (w_ds w) ∧
    (memcmp_eq v old (ds_data_size (w_ds w)) = true →
     r = LDS_FAIL ∧ contents w' = Some l) ∧
    (memcmp_eq v old (ds_data_size (w_ds w)) = false →
     r = LDS_SUCCESS ∧
     ∃ l', contents w' = Some l' ∧ length l' = length l ∧
           l' !! Z.to_nat pos = Some (memcpy v (ds_data_size (w_ds w))) ∧
           ∀ p, p ≠ Z.to_nat pos → l' !! p = l !! p).
Proof.
  intros Hwf Hl Hpos Hold.
  destruct (wf_set w l pos v old Hwf Hl Hpos Hold)
    as (r & w' & Hset & _ & _ & _ & Hs & _ & Hr & Hc).
  exists r, w'. split; [done|]. split; [done|].
  pose proof (wf_contents_length _ _ Hwf Hl) as Hlen.
  split; intros E; rewrite E in Hr, Hc; (split; [done|]); [done|].
  eexists. split; [exact Hc|]. unfold ref_set. split_and!.
  - by rewrite length_insert.
  - apply list_lookup_insert_eq. lia.
  - intros p Hp. by apply list_lookup_insert_ne.
Qed.

Lemma set_unchanged_or_applied_witness :
  ∃ r w',
    lds_set Ptr 2 (Some e40) ex_list = Some (r, w') ∧
    ds_size (w_ds w') = 3 ∧
    (memcmp_eq e40 e30 4 = true → r = LDS_FAIL ∧
       contents w' = Some [e10; e20; e30]) ∧
    (memcmp_eq e40 e30 4 = false →
     r = LDS_SUCCESS ∧
     ∃ l', contents w' = Some l' ∧ length l' = 3%nat ∧
           l' !! 2%nat = Some e40 ∧
           ∀ p, p ≠ 2%nat → l' !! p = [e10; e20; e30] !! p).
Proof.
  apply (set_unchanged_or_applied ex_list [e10; e20; e30] 2 e40 e30).
  - exact ex_list_wf.
  - reflexivity.
  - simpl. lia.
  - reflexivity.
Defined.

(** C8.  On a well-formed container of either kind, [lds_it_go] to any
    [k] with [0 ≤ k ≤ size] succeeds and leaves the iterator at position
    [k], whatever its position was before; if [k < size], [lds_it_get] then
    returns the value [lds_get] returns for [k].  For [k > size] the call
    reports a position error and changes nothing. *)
Theorem cursor_go_consistent (w : World) (l : list block) (k : Z) :
  wf w → contents w = Some l →
  (0 ≤ k ≤ ds_size (w_ds w) →
   ∃ w',
     lds_it_go Ptr k w = Some (LDS_SUCCESS, w') ∧
     lds_it_position Ptr w' = Some k ∧
     (k < ds_size (w_ds w) →
      ∃ x w1 w2,
        lds_it_get Ptr Ptr w' = Some (LDS_SUCCESS, Some x, w1) ∧
        lds_get Ptr k Ptr w' = Some (LDS_SUCCESS, Some x, w2) ∧
        l !! Z.to_nat k = Some x)) ∧
  (ds_size (w_ds w) < k → lds_it_go Ptr k w = Some (LDS_POS_ERR, w)).
Proof.
  intros Hwf Hl. split.
  - intros Hk.
    destruct (wf_it_go w l k Hwf Hl Hk) as (w' & Hgo & Hwf' & Hl' & Hp & Hs).
    exists w'. split; [done|]. split; [by unfold lds_it_position; simpl; rewrite Hp|].
    intros Hlt.
    pose proof (wf_contents_length _ _ Hwf Hl) as Hlen.
    destruct (lookup_lt_is_Some_2 l (Z.to_nat k)) as [x Hx]; [lia|].
    destruct (wf_get w' l k Hwf' Hl') as (w2 & Hget & _); [lia|].
    exists x, w', w2. split_and!; try done.
    + rewrite (wf_it_get w' l Hwf' Hl') by (rewrite Hp; lia).
      by rewrite Hp, Hx.
    + by rewrite Hget, Hx.
  - intros Hk. unfold lds_it_go.
    by destruct (Z.gtb_spec k (ds_size (w_ds w))); [|lia].
Qed.

Lemma cursor_go_consistent_witness :
  (0 ≤ 0 ≤ 3 →
   ∃ w',
     lds_it_go Ptr 0 ex_list = Some (LDS_SUCCESS, w') ∧
     lds_it_position Ptr w' = Some 0 ∧
     (0 < 3 →
      ∃ x w1 w2,
        lds_it_get Ptr Ptr w' = Some (LDS_SUCCESS, Some x, w1) ∧
        lds_get Ptr 0 Ptr w' = Some (LDS_SUCCESS, Some x, w2) ∧
        [e10; e20; e30] !! 0%nat = Some x)) ∧
  (3 < 0 → lds_it_go Ptr 0 ex_list = Some (LDS_POS_ERR, ex_list)).
Proof.
  apply (cursor_go_consistent ex_list [e10; e20; e30] 0).
  - exact ex_list_wf.
  - reflexivity.
Defined.

(** C9.  [lds_capacity] does not answer 0 for a list: its condition is
    [ds != NULL || ds->type == LDS_VECTOR], true for every non-null
    container, so the [capacity] field is returned whatever the type, and
    [lds_new_list] never initialises that field: a list reports whatever
    the allocated memory held, here 7.  For a null container the same
    condition dereferences it. *)
Theorem lds_capacity_of_list :
  (∀ w, lds_capacity Ptr w = Some (ds_capacity (w_ds w))) ∧
  lds_new_list 4 (Some 7) = Some ex_new_list ∧
  lds_type Ptr ex_new_list = LDS_LINKED_LIST ∧
  lds_capacity Ptr ex_new_list = Some 7 ∧
  (∀ w, lds_capacity NULL w = None).
Proof. split_and!; reflexivity. Qed.

(** C10.  On a well-formed container of either kind and a position below
    the size, [lds_remove] with a null output pointer removes the element
    at the position, decrements the size and returns success, copying
    nothing out; so does [lds_it_remove] when the iterator stands at that
    position.  A null value or output pointer makes [lds_insert],
    [lds_get] and [lds_set] answer [LDS_NULL] and change nothing. *)
Theorem remove_with_null_output (w : World) (l : list block) (pos : Z) :
  wf w → contents w = Some l → 0 ≤ pos < ds_size (w_ds w) →
  (∃ w',
     lds_remove Ptr pos NULL w = Some (LDS_SUCCESS, None, w') ∧
     contents w' = Some (ref_remove pos l) ∧
     ds_size (w_ds w') = ds_size (w_ds w) - 1) ∧
  (it_position (ds_iterator (w_ds w)) = pos →
   ∃ w',
     lds_it_remove Ptr NULL w = Some (LDS_SUCCESS, None, w') ∧
     contents w' = Some (ref_remove pos l) ∧
     ds_size (w_ds w') = ds_size (w_ds w) - 1) ∧
  (∀ a, lds_insert Ptr pos None a w = Some (LDS_NULL, w)) ∧
  lds_get Ptr pos NULL w = Some (LDS_NULL, None, w) ∧
  lds_set Ptr pos None w = Some (LDS_NULL, w).
Proof.
  intros Hwf Hl Hpos. split_and!; try done.
  - destruct (wf_remove w l pos NULL Hwf Hl Hpos)
      as (w' & Hrem & _ & _ & _ & Hc & Hs & _).
    by exists w'.
  - intros Hit. subst pos.
    destruct (wf_it_remove w l NULL Hwf Hl Hpos)
      as (w' & Hrem & _ & Hc & Hs & _).
    by exists w'.
Qed.

Lemma remove_with_null_output_witness :
  (∃ w',
     lds_remove Ptr 2 NULL ex_list = Some (LDS_SUCCESS, None, w') ∧
     contents w' = Some [e10; e20] ∧
     ds_size (w_ds w') = 3 - 1) ∧
  (2 = 2 →
   ∃ w',
     lds_it_remove Ptr NULL ex_list = Some (LDS_SUCCESS, None, w') ∧
     contents w' = Some [e10; e20] ∧
     ds_size (w_ds w') = 3 - 1) ∧
  (∀ a, lds_insert Ptr 2 None a ex_list = Some (LDS_NULL, ex_list)) ∧
  lds_get Ptr 2 NULL ex_list = Some (LDS_NULL, None, ex_list) ∧
  lds_set Ptr 2 None ex_list = Some (LDS_NULL, ex_list).
Proof.
  apply (remove_with_null_output ex_list [e10; e20; e30] 2).
  - exact ex_list_wf.
  - reflexivity.
  - simpl. lia.
Defined.

(** * Further properties *)

(** ** More of the iterator interface on well-formed worlds *)

Lemma wf_cursor_in_range w :
  wf w → ds_type (w_ds w) = LDS_LINKED_LIST →
  0 ≤ it_position (ds_iterator (w_ds w)) ≤ ds_size (w_ds w).
Proof.
  intros Hwf Hty. destruct (wf_cases _ Hwf) as [[Hty' _]|[_ [ns Hls]]];
    [congruence|].
  destruct Hls as [_ Hls].
  destruct (ds_storage (w_ds w)); [done|].
  destruct Hls as (_ & _ & Hlen & _ & _ & [Hpos _]). lia.
Qed.

Lemma wf_list_cursor w ns :
  wf_list_with w ns →
  move_cursor w (cursor_for ns (it_position (ds_iterator (w_ds w)))) = w.
Proof.
  intros [_ Hls]. destruct (ds_storage (w_ds w)); [done|].
  destruct Hls as (_ & _ & _ & _ & _ & [_ Hcur]).
  rewrite <- Hcur. apply move_cursor_id.
Qed.

Lemma with_ds_id w : with_ds w (w_ds w) = w.
Proof. by destruct w. Qed.

Lemma wf_it_add w l v a :
  wf w → contents w = Some l →
  let pos := it_position (ds_iterator (w_ds w)) in
  0 ≤ pos ≤ ds_size (w_ds w) → room w →
  ∃ r w',
    lds_it_add Ptr (Some v) a w = Some (r, w') ∧ wf w' ∧
    ds_type (w_ds w') = ds_type (w_ds w) ∧
    ds_data_size (w_ds w') = ds_data_size (w_ds w) ∧
    it_position (ds_iterator (w_ds w')) = pos ∧
    (a ≠ NoMem → r = LDS_SUCCESS) ∧
    ((r = LDS_SUCCESS ∧
      contents w' =
        Some (ref_insert pos (memcpy v (ds_data_size (w_ds w))) l) ∧
      ds_size (w_ds w') = ds_size (w_ds w) + 1) ∨
     (r = LDS_FAIL ∧ w' = w)).
Proof.
  intros Hwf Hl pos Hpos Hroom. unfold lds_it_add.
  destruct (wf_cases _ Hwf) as [[Hty Hv]|[Hty [ns Hls]]];
    unfold room in Hroom; rewrite Hty in Hroom |- *.
  - destruct (vector_insert_any w l pos v a Hty Hv Hl Hpos Hroom)
      as (r & w' & Hins & Hwf' & Hty' & Hd' & Hi' & Hres).
    assert (Hadd : it_add_in_vector w v a = Some (r, w')).
    { revert Hins. unfold lds_insert, ds_insert, it_add_in_vector.
      rewrite Hty. fold pos.
      destruct (Z.gtb_spec pos (ds_size (w_ds w))); [lia|].
      destruct (Z.ltb_spec pos 0); [lia|]. done. }
    exists r, w'. split; [done|]. split; [by apply wf_of_vector|].
    split; [congruence|]. split; [done|]. split; [by rewrite Hi'|]. split.
    + intros Ha. destruct a as [|junk]; [done|].
      destruct (vector_insert w l pos v junk Hty Hv Hl Hpos Hroom)
        as (w2 & Hins2 & _). congruence.
    + destruct Hres as [(-> & Hc & Hs & _)|[-> ->]]; [left|right]; done.
  - rewrite (contents_list _ _ Hls) in Hl. injection Hl as <-.
    destruct a as [|junk].
    + exists LDS_FAIL, w. unfold it_add_in_list. split; [done|].
      split_and!; try done. by right.
    + destruct (it_add_in_list_spec w ns v junk Hls Hroom)
        as (w' & Hadd & Hwf' & Hp' & Hd' & Hs').
      exists LDS_SUCCESS, w'. split; [done|].
      split; [by eapply wf_of_list|].
      split; [by rewrite (wf_list_type _ _ Hwf')|].
      split; [done|]. split; [done|]. split; [done|]. left.
      split_and!; try done.
      rewrite (contents_list _ _ Hwf'), Hd'. f_equal. fold pos.
      unfold ref_insert. rewrite fmap_app, fmap_cons, fmap_take, fmap_drop.
      simpl. by rewrite memcpy_idemp.
Qed.

Lemma wf_it_next w l :
  wf w → contents w = Some l →
  let pos := it_position (ds_iterator (w_ds w)) in
  0 ≤ pos < ds_size (w_ds w) →
  ∃ w',
    lds_it_next Ptr w = Some (LDS_SUCCESS, w') ∧ wf w' ∧
    contents w' = Some l ∧
    it_position (ds_iterator (w_ds w')) = pos + 1 ∧
    ds_size (w_ds w') = ds_size (w_ds w) ∧
    ds_type (w_ds w') = ds_type (w_ds w) ∧
    w_heap w' = w_heap w.
Proof.
  intros Hwf Hl pos Hpos. unfold lds_it_next. fold pos.
  destruct (Z.eqb_spec pos (ds_size (w_ds w))); [lia|].
  destruct (wf_cases _ Hwf) as [[Hty Hv]|[Hty [ns Hls]]]; rewrite Hty.
  - pose proof (wf_vector_size _ Hv) as Hn.
    assert (Hc : ds_capacity (w_ds w) ≤ cap_limit).
    { destruct Hv as [_ Hv]. destruct (ds_storage (w_ds w)); [lia|done]. }
    unfold it_next_in_vector. fold pos.
    rewrite wrap_small by (unfold size_modulus, cap_limit in *; lia).
    eexists. split; [reflexivity|].
    split; [by apply wf_vector_move_cursor|].
    split; [|done].
    rewrite <- Hl. apply (contents_move_cursor w).
  - destruct (wf_list_size _ _ Hls) as [Hlen Hlim].
    pose proof Hls as [_ Hls'].
    destruct (ds_storage (w_ds w)) as [|first last_] eqn:Hst; [done|].
    destruct Hls' as (Hc & _ & _ & _ & _ & [_ Hcur]).
    rewrite (it_next_in_list_spec w ns pos first last_); try done;
      try (unfold SIZE_MAX, size_modulus in *; lia).
    exists (move_cursor w (cursor_for ns (pos + 1))). split; [reflexivity|].
    split; [eapply wf_of_list; apply wf_list_move_cursor; [done|lia]|].
    split; [by rewrite contents_move_cursor|]. done.
Qed.

Lemma wf_it_reset w l :
  wf w → contents w = Some l →
  ∃ w',
    lds_it_reset Ptr w = Some (LDS_SUCCESS, w') ∧ wf w' ∧
    contents w' = Some l ∧
    it_position (ds_iterator (w_ds w')) = 0 ∧
    ds_size (w_ds w') = ds_size (w_ds w) ∧
    ds_type (w_ds w') = ds_type (w_ds w) ∧
    w_heap w' = w_heap w.
Proof.
  intros Hwf Hl. unfold lds_it_reset.
  destruct (wf_cases _ Hwf) as [[Hty Hv]|[Hty [ns Hls]]]; rewrite Hty.
  - eexists. split; [reflexivity|].
    split; [by apply wf_vector_move_cursor|]. split; [|done].
    rewrite <- Hl. apply (contents_move_cursor w).
  - destruct (wf_list_size _ _ Hls) as [Hlen Hlim].
    pose proof Hls as [_ Hls'].
    unfold it_reset_in_list.
    destruct (ds_storage (w_ds w)) as [|first last_] eqn:Hst; [done|].
    destruct Hls' as (Hc & _).
    rewrite <- (cursor_for_0 _ _ _ Hc).
    exists (move_cursor w (cursor_for ns 0)). split; [reflexivity|].
    split; [eapply wf_of_list; apply wf_list_move_cursor; [done|lia]|].
    split; [by rewrite contents_move_cursor|]. done.
Qed.

Lemma wf_it_set w l v old :
  wf w → contents w = Some l →
  let pos := it_position (ds_iterator (w_ds w)) in
  0 ≤ pos < ds_size (w_ds w) → l !! Z.to_nat pos = Some old →
  ∃ r w',
    lds_it_set Ptr (Some v) w = Some (r, w') ∧ wf w' ∧
    ds_size (w_ds w') = ds_size (w_ds w) ∧
    ds_data_size (w_ds w') = ds_data_size (w_ds w) ∧
    it_position (ds_iterator (w_ds w')) = pos ∧
    r = (if memcmp_eq v old (ds_data_size (w_ds w))
         then LDS_FAIL else LDS_SUCCESS) ∧
    (r = LDS_FAIL → w' = w) ∧
    contents w' =
      Some (if memcmp_eq v old (ds_data_size (w_ds w)) then l
            else ref_set pos (memcpy v (ds_data_size (w_ds w))) l).
Proof.
  intros Hwf Hl pos Hpos Hold. unfold lds_it_set. fold pos.
  destruct (Z.eqb_spec pos (ds_size (w_ds w))); [lia|].
  destruct (wf_cases _ Hwf) as [[Hty Hv]|[Hty [ns Hls]]]; rewrite Hty.
  - destruct (vector_set w l pos v old Hty Hv Hl Hpos Hold)
      as (w' & Hset & Hwf' & Hty' & Hc & Hs & Hd & Hi & Hcap).
    assert (Hset' : it_set_in_vector w v =
      Some (if memcmp_eq v old (ds_data_size (w_ds w))
            then (LDS_FAIL, w) else (LDS_SUCCESS, w'))).
    { revert Hset. unfold lds_set, ds_set, it_set_in_vector.
      rewrite Hty. fold pos.
      destruct (Z.geb_spec pos (ds_size (w_ds w))); [lia|].
      destruct (Z.ltb_spec pos 0); [lia|]. done. }
    rewrite Hset'. destruct (memcmp_eq v old _).
    + exists LDS_FAIL, w. by split_and!.
    + exists LDS_SUCCESS, w'. split; [done|].
      split; [by apply wf_of_vector|]. split_and!; try done.
      by rewrite Hi.
  - destruct (wf_list_size _ _ Hls) as [Hlen _].
    destruct (lookup_lt_is_Some_2 ns (Z.to_nat pos)) as [[a b] Hab]; [lia|].
    rewrite (contents_list _ _ Hls) in Hl. injection Hl as <-.
    assert (Hob : old = memcpy b (ds_data_size (w_ds w))).
    { rewrite list_lookup_fmap, Hab in Hold. by injection Hold. }
    destruct (it_set_in_list_spec w ns v a b Hls Hab)
      as (w' & Hset & Hwf' & Hds').
    rewrite Hset, Hob, memcmp_eq_memcpy.
    destruct (memcmp_eq v b _).
    + exists LDS_FAIL, w. split; [done|]. split_and!; try done.
      by rewrite (contents_list _ _ Hls).
    + exists LDS_SUCCESS, w'. split; [done|].
      split; [by eapply wf_of_list|]. rewrite Hds'.
      split_and!; try done.
      rewrite (contents_list _ _ Hwf'), Hds'. f_equal. fold pos.
      unfold ref_set. rewrite list_fmap_insert. simpl.
      by rewrite memcpy_idemp.
Qed.

(** ** Round trips and the stack and queue interfaces *)

Lemma wf_size_nonneg w : wf w → 0 ≤ ds_size (w_ds w).
Proof.
  intros Hwf. destruct (wf_has_contents _ Hwf) as [l Hl].
  rewrite <- (wf_contents_length _ _ Hwf Hl). lia.
Qed.

Lemma ref_remove_insert pos x l :
  0 ≤ pos ≤ Z.of_nat (length l) → ref_remove pos (ref_insert pos x l) = l.
Proof.
  intros Hpos. unfold ref_remove, ref_insert.
  rewrite take_app_le by (rewrite length_take; lia).
  rewrite take_take. replace (_ `min` _)%nat with (Z.to_nat pos) by lia.
  rewrite drop_app_ge by (rewrite length_take; lia).
  rewrite length_take.
  replace (S (Z.to_nat pos) - _)%nat with 1%nat by lia.
  simpl. rewrite drop_0. apply take_drop.
Qed.

Lemma ref_insert_lookup pos x l :
  0 ≤ pos ≤ Z.of_nat (length l) →
  ref_insert pos x l !! Z.to_nat pos = Some x.
Proof.
  intros Hpos. unfold ref_insert.
  rewrite lookup_app_r by (rewrite length_take; lia).
  rewrite length_take. by replace (_ - _)%nat with 0%nat by lia.
Qed.

Lemma ref_insert_end x l : ref_insert (Z.of_nat (length l)) x l = l ++ [x].
Proof.
  unfold ref_insert. rewrite Nat2Z.id, take_ge, drop_ge by lia. done.
Qed.

Lemma insert_then_remove w l pos v junk :
  wf w → contents w = Some l → 0 ≤ pos ≤ ds_size (w_ds w) → room w →
  ∃ w1 w2,
    lds_insert Ptr pos (Some v) (Mem junk) w = Some (LDS_SUCCESS, w1) ∧
    lds_remove Ptr pos Ptr w1 =
      Some (LDS_SUCCESS, Some (memcpy v (ds_data_size (w_ds w))), w2) ∧
    wf w2 ∧ contents w2 = Some l ∧
    ds_size (w_ds w2) = ds_size (w_ds w).
Proof.
  intros Hwf Hl Hpos Hroom.
  pose proof (wf_contents_length _ _ Hwf Hl) as Hlen.
  destruct (wf_insert w l pos v (Mem junk) Hwf Hl Hpos Hroom)
    as (r & w1 & Hins & Hwf1 & Hty1 & Hd1 & Hr & Hres).
  rewrite (Hr ltac:(done)) in Hins, Hres.
  destruct Hres as [(_ & Hc1 & Hs1 & _)|[? _]]; [|done].
  destruct (wf_remove w1 _ pos Ptr Hwf1 Hc1)
    as (w2 & Hrem & Hwf2 & _ & _ & Hc2 & Hs2 & _); [lia|].
  exists w1, w2. split; [done|].
  rewrite ref_insert_lookup in Hrem by lia.
  rewrite ref_remove_insert in Hc2 by lia.
  split_and!; try done. lia.
Qed.

(** X1.  Pushing a value and popping again hands the value back and leaves
    the container with the contents and size it had, for both strategies,
    through growth and wrap. *)
Theorem stack_push_pop (w : World) (l : list block) (v junk : block) :
  wf w → contents w = Some l → room w →
  ∃ w1 w2,
    lds_stack_push Ptr (Some v) (Mem junk) w = Some (LDS_SUCCESS, w1) ∧
    contents w1 = Some (memcpy v (ds_data_size (w_ds w)) :: l) ∧
    lds_stack_pop Ptr Ptr w1 =
      Some (LDS_SUCCESS, Some (memcpy v (ds_data_size (w_ds w))), w2) ∧
    contents w2 = Some l ∧
    lds_size Ptr w2 = lds_size Ptr w.
Proof.
  intros Hwf Hl Hroom. pose proof (wf_size_nonneg _ Hwf) as Hn.
  destruct (insert_then_remove w l 0 v junk Hwf Hl) as
    (w1 & w2 & Hins & Hrem & Hwf2 & Hc2 & Hs2); [lia|done|].
  exists w1, w2. unfold lds_stack_push, lds_stack_pop.
  split; [done|]. split; [|done].
  destruct (wf_insert w l 0 v (Mem junk) Hwf Hl) as
    (r & w1' & Hins' & _ & _ & _ & Hr & Hres); [lia|done|].
  rewrite Hins in Hins'. injection Hins' as <- <-.
  by destruct Hres as [(_ & Hc1 & _)|[? _]].
Qed.

Lemma stack_push_pop_witness :
  ∃ w1 w2,
    lds_stack_push Ptr (Some e40) (Mem junk4) ex_full
      = Some (LDS_SUCCESS, w1) ∧
    contents w1 = Some (memcpy e40 4 :: [e10; e20; e30; e40]) ∧
    lds_stack_pop Ptr Ptr w1 = Some (LDS_SUCCESS, Some (memcpy e40 4), w2) ∧
    contents w2 = Some [e10; e20; e30; e40] ∧
    lds_size Ptr w2 = lds_size Ptr ex_full.
Proof.
  apply (stack_push_pop ex_full [e10; e20; e30; e40] e40 junk4).
  - exact ex_full_wf.
  - reflexivity.
  - unfold room. simpl. intros _. vm_compute. discriminate.
Defined.

(** X2.  On a container that is not empty, [lds_stack_peek] and
    [lds_queue_front] both return the element at position 0, the one
    [lds_stack_pop] and [lds_dequeue] would remove, and leave contents and
    size as they are. *)
Theorem peek_returns_front (w : World) (x : block) (l : list block) :
  wf w → contents w = Some (x :: l) →
  ∃ w1 w2,
    lds_stack_peek Ptr Ptr w = Some (LDS_SUCCESS, Some x, w1) ∧
    lds_queue_front Ptr Ptr w = Some (LDS_SUCCESS, Some x, w1) ∧
    contents w1 = Some (x :: l) ∧ lds_size Ptr w1 = lds_size Ptr w ∧
    lds_stack_pop Ptr Ptr w1 = Some (LDS_SUCCESS, Some x, w2) ∧
    lds_dequeue Ptr Ptr w1 = Some (LDS_SUCCESS, Some x, w2) ∧
    contents w2 = Some l.
Proof.
  intros Hwf Hl. pose proof (wf_contents_length _ _ Hwf Hl) as Hlen.
  simpl in Hlen.
  destruct (wf_get w _ 0 Hwf Hl) as (w1 & Hget & Hwf1 & Hc1 & Hs1); [lia|].
  destruct (wf_remove w1 _ 0 Ptr Hwf1 Hc1)
    as (w2 & Hrem & _ & _ & _ & Hc2 & _); [lia|].
  exists w1, w2. unfold lds_stack_peek, lds_queue_front, lds_stack_pop,
    lds_dequeue. by split_and!.
Qed.

Lemma peek_returns_front_witness :
  ∃ w1 w2,
    lds_stack_peek Ptr Ptr ex_wrapped = Some (LDS_SUCCESS, Some e10, w1) ∧
    lds_queue_front Ptr Ptr ex_wrapped = Some (LDS_SUCCESS, Some e10, w1) ∧
    contents w1 = Some [e10; e20; e30] ∧
    lds_size Ptr w1 = lds_size Ptr ex_wrapped ∧
    lds_stack_pop Ptr Ptr w1 = Some (LDS_SUCCESS, Some e10, w2) ∧
    lds_dequeue Ptr Ptr w1 = Some (LDS_SUCCESS, Some e10, w2) ∧
    contents w2 = Some [e20; e30].
Proof.
  apply (peek_returns_front ex_wrapped e10 [e20; e30]).
  - exact ex_wrapped_wf.
  - reflexivity.
Defined.

(** X3.  The queue is first in, first out: [lds_enqueue] puts the value
    behind every element already there, and [lds_dequeue] then returns the
    element that was at the front before, leaving the new value last. *)
Theorem queue_fifo (w : World) (x : block) (l : list block) (v junk : block) :
  wf w → contents w = Some (x :: l) → room w →
  ∃ w1 w2,
    lds_enqueue Ptr (Some v) (Mem junk) w = Some (LDS_SUCCESS, w1) ∧
    contents w1 = Some (x :: l ++ [memcpy v (ds_data_size (w_ds w))]) ∧
    lds_dequeue Ptr Ptr w1 = Some (LDS_SUCCESS, Some x, w2) ∧
    contents w2 = Some (l ++ [memcpy v (ds_data_size (w_ds w))]).
Proof.
  intros Hwf Hl Hroom. pose proof (wf_contents_length _ _ Hwf Hl) as Hlen.
  destruct (wf_insert w _ (ds_size (w_ds w)) v (Mem junk) Hwf Hl)
    as (r & w1 & Hins & Hwf1 & Hty1 & Hd1 & Hr & Hres); [lia|done|].
  rewrite (Hr ltac:(done)) in Hins, Hres.
  destruct Hres as [(_ & Hc1 & Hs1 & _)|[? _]]; [|done].
  rewrite <- Hlen, ref_insert_end in Hc1.
  destruct (wf_remove w1 _ 0 Ptr Hwf1 Hc1)
    as (w2 & Hrem & _ & _ & _ & Hc2 & _); [simpl in Hlen; lia|].
  exists w1, w2. unfold lds_enqueue, lds_insert_last, lds_dequeue. simpl.
  by split_and!.
Qed.

Lemma queue_fifo_witness :
  ∃ w1 w2,
    lds_enqueue Ptr (Some e40) (Mem junk4) ex_list = Some (LDS_SUCCESS, w1) ∧
    contents w1 = Some (e10 :: [e20; e30] ++ [memcpy e40 4]) ∧
    lds_dequeue Ptr Ptr w1 = Some (LDS_SUCCESS, Some e10, w2) ∧
    contents w2 = Some ([e20; e30] ++ [memcpy e40 4]).
Proof.
  apply (queue_fifo ex_list e10 [e20; e30] e40 junk4).
  - exact ex_list_wf.
  - reflexivity.
  - vm_compute. reflexivity.
Defined.

(** X4.  Positions out of range are refused before anything is touched:
    [lds_get], [lds_set] and [lds_remove] at a position not below the size,
    and [lds_insert] above it, return [LDS_POS_ERR] and leave the world as
    it is, whatever its state.  So popping, dequeuing or peeking an empty
    container is an error that changes nothing. *)
Theorem position_out_of_range (w : World) (pos : Z) (v : block) (a : alloc)
    (out : ptr) :
  ds_size (w_ds w) ≤ pos →
  lds_get Ptr pos Ptr w = Some (LDS_POS_ERR, None, w) ∧
  lds_set Ptr pos (Some v) w = Some (LDS_POS_ERR, w) ∧
  lds_remove Ptr pos out w = Some (LDS_POS_ERR, None, w) ∧
  (ds_size (w_ds w) < pos →
   lds_insert Ptr pos (Some v) a w = Some (LDS_POS_ERR, w)) ∧
  (ds_size (w_ds w) = 0 →
   lds_stack_pop Ptr out w = Some (LDS_POS_ERR, None, w) ∧
   lds_dequeue Ptr out w = Some (LDS_POS_ERR, None, w) ∧
   lds_stack_peek Ptr Ptr w = Some (LDS_POS_ERR, None, w) ∧
   lds_queue_front Ptr Ptr w = Some (LDS_POS_ERR, None, w)).
Proof.
  intros Hpos. unfold lds_get, lds_set, lds_remove, lds_insert,
    lds_stack_pop, lds_dequeue, lds_stack_peek, lds_queue_front, lds_get,
    lds_remove.
  destruct (Z.geb_spec pos (ds_size (w_ds w))); [|lia]. simpl.
  split_and!; try done.
  - intros Hlt. by destruct (Z.gtb_spec pos (ds_size (w_ds w))); [|lia].
  - intros ->. done.
Qed.

Lemma position_out_of_range_witness :
  lds_get Ptr 3 Ptr ex_list = Some (LDS_POS_ERR, None, ex_list) ∧
  lds_set Ptr 3 (Some e40) ex_list = Some (LDS_POS_ERR, ex_list) ∧
  lds_remove Ptr 3 NULL ex_list = Some (LDS_POS_ERR, None, ex_list) ∧
  (ds_size (w_ds ex_list) < 3 →
   lds_insert Ptr 3 (Some e40) NoMem ex_list = Some (LDS_POS_ERR, ex_list)) ∧
  (ds_size (w_ds ex_list) = 0 →
   lds_stack_pop Ptr NULL ex_list = Some (LDS_POS_ERR, None, ex_list) ∧
   lds_dequeue Ptr NULL ex_list = Some (LDS_POS_ERR, None, ex_list) ∧
   lds_stack_peek Ptr Ptr ex_list = Some (LDS_POS_ERR, None, ex_list) ∧
   lds_queue_front Ptr Ptr ex_list = Some (LDS_POS_ERR, None, ex_list)).
Proof.
  apply (position_out_of_range ex_list 3 e40 NoMem NULL).
  simpl. lia.
Defined.

(** X5.  [lds_insert_last] appends: the value becomes the last element and
    nothing before it moves; [lds_remove_last] right after hands it back and
    restores contents and size. *)
Theorem insert_last_remove_last (w : World) (l : list block)
    (v junk : block) :
  wf w → contents w = Some l → room w →
  ∃ w1 w2,
    lds_insert_last Ptr (Some v) (Mem junk) w = Some (LDS_SUCCESS, w1) ∧
    contents w1 = Some (l ++ [memcpy v (ds_data_size (w_ds w))]) ∧
    lds_remove_last Ptr Ptr w1 =
      Some (LDS_SUCCESS, Some (memcpy v (ds_data_size (w_ds w))), w2) ∧
    contents w2 = Some l ∧ lds_size Ptr w2 = lds_size Ptr w.
Proof.
  intros Hwf Hl Hroom. pose proof (wf_contents_length _ _ Hwf Hl) as Hlen.
  destruct (insert_then_remove w l (ds_size (w_ds w)) v junk Hwf Hl) as
    (w1 & w2 & Hins & Hrem & Hwf2 & Hc2 & Hs2); [lia|done|].
  destruct (wf_insert w l (ds_size (w_ds w)) v (Mem junk) Hwf Hl) as
    (r & w1' & Hins' & _ & _ & _ & Hr & Hres); [lia|done|].
  rewrite Hins in Hins'. injection Hins' as <- <-.
  destruct Hres as [(_ & Hc1 & Hs1 & _)|[? _]]; [|done].
  rewrite <- Hlen, ref_insert_end in Hc1.
  exists w1, w2. unfold lds_insert_last, lds_remove_last. simpl.
  split; [done|]. split; [done|]. split; [|done].
  revert Hrem. unfold lds_remove. rewrite Hs1.
  replace (ds_size (w_ds w) + 1 - 1) with (ds_size (w_ds w)) by lia.
  assert (Hlt : ds_size (w_ds w) < size_modulus).
  { destruct (wf_cases _ Hwf) as [[_ Hv]|[_ [ns Hls]]].
    - pose proof (wf_vector_size _ Hv).
      assert (ds_capacity (w_ds w) ≤ cap_limit).
      { destruct Hv as [_ Hv]. destruct (ds_storage (w_ds w)); [lia|done]. }
      unfold cap_limit, size_modulus in *. lia.
    - destruct (wf_list_size _ _ Hls). unfold SIZE_MAX in *. lia. }
  rewrite wrap_small by lia.
  destruct (Z.geb_spec (ds_size (w_ds w)) (ds_size (w_ds w) + 1)); [lia|].
  destruct (Z.ltb_spec (ds_size (w_ds w)) 0); [lia|]. done.
Qed.

Lemma insert_last_remove_last_witness :
  ∃ w1 w2,
    lds_insert_last Ptr (Some e40) (Mem junk4) ex_wrapped
      = Some (LDS_SUCCESS, w1) ∧
    contents w1 = Some ([e10; e20; e30] ++ [memcpy e40 4]) ∧
    lds_remove_last Ptr Ptr w1
      = Some (LDS_SUCCESS, Some (memcpy e40 4), w2) ∧
    contents w2 = Some [e10; e20; e30] ∧
    lds_size Ptr w2 = lds_size Ptr ex_wrapped.
Proof.
  apply (insert_last_remove_last ex_wrapped [e10; e20; e30] e40 junk4).
  - exact ex_wrapped_wf.
  - reflexivity.
  - unfold room. simpl. intros H. discriminate H.
Defined.

(** X6.  On a container that is not empty, [lds_remove_last] is
    [lds_remove] at position [size - 1]: it returns the last element and
    leaves the others in place. *)
Theorem remove_last_nonempty (w : World) (l : list block) (x : block)
    (out : ptr) :
  wf w → contents w = Some (l ++ [x]) →
  lds_remove_last Ptr out w = lds_remove Ptr (ds_size (w_ds w) - 1) out w ∧
  ∃ w',
    lds_remove_last Ptr out w =
      Some (LDS_SUCCESS,
            match out with Ptr => Some x | NULL => None end, w') ∧
    contents w' = Some l ∧
    lds_size Ptr w' = lds_size Ptr w - 1.
Proof.
  intros Hwf Hl. pose proof (wf_contents_length _ _ Hwf Hl) as Hlen.
  rewrite length_app in Hlen. simpl in Hlen.
  assert (Hlt : ds_size (w_ds w) < size_modulus).
  { destruct (wf_cases _ Hwf) as [[_ Hv]|[_ [ns Hls]]].
    - pose proof (wf_vector_size _ Hv).
      assert (ds_capacity (w_ds w) ≤ cap_limit).
      { destruct Hv as [_ Hv]. destruct (ds_storage (w_ds w)); [lia|done]. }
      unfold cap_limit, size_modulus in *. lia.
    - destruct (wf_list_size _ _ Hls). unfold SIZE_MAX in *. lia. }
  assert (Heq : lds_remove_last Ptr out w
                = lds_remove Ptr (ds_size (w_ds w) - 1) out w).
  { unfold lds_remove_last, lds_remove. rewrite wrap_small by lia.
    destruct (Z.geb_spec (ds_size (w_ds w) - 1) (ds_size (w_ds w))); [lia|].
    by destruct (Z.ltb_spec (ds_size (w_ds w) - 1) 0); [lia|]. }
  split; [done|]. rewrite Heq.
  destruct (wf_remove w _ (ds_size (w_ds w) - 1) out Hwf Hl)
    as (w' & Hrem & _ & _ & _ & Hc & Hs & _); [lia|].
  exists w'. rewrite Hrem.
  replace (Z.to_nat (ds_size (w_ds w) - 1)) with (length l) in * by lia.
  rewrite lookup_app_r, Nat.sub_diag by lia. simpl.
  split; [done|]. split; [|done]. rewrite Hc. f_equal.
  unfold ref_remove.
  replace (Z.to_nat (ds_size (w_ds w) - 1)) with (length l) by lia.
  rewrite take_app_length, drop_ge by (rewrite length_app; simpl; lia).
  apply app_nil_r.
Qed.

Lemma remove_last_nonempty_witness :
  lds_remove_last Ptr Ptr ex_list
    = lds_remove Ptr (ds_size (w_ds ex_list) - 1) Ptr ex_list ∧
  ∃ w',
    lds_remove_last Ptr Ptr ex_list = Some (LDS_SUCCESS, Some e30, w') ∧
    contents w' = Some [e10; e20] ∧
    lds_size Ptr w' = lds_size Ptr ex_list - 1.
Proof.
  apply (remove_last_nonempty ex_list [e10; e20] e30 Ptr).
  - exact ex_list_wf.
  - reflexivity.
Defined.

(** X7.  A vector with a free slot never asks for memory: an insert at any
    valid position succeeds whatever the allocator would answer, with the
    same result, and the capacity stays. *)
Theorem insert_without_allocation (w : World) (l : list block) (pos : Z)
    (v : block) (a : alloc) :
  ds_type (w_ds w) = LDS_VECTOR → wf w → contents w = Some l →
  ds_size (w_ds w) < ds_capacity (w_ds w) →
  0 ≤ pos ≤ ds_size (w_ds w) →
  lds_insert Ptr pos (Some v) a w = lds_insert Ptr pos (Some v) NoMem w ∧
  ∃ w',
    lds_insert Ptr pos (Some v) NoMem w = Some (LDS_SUCCESS, w') ∧
    contents w' =
      Some (ref_insert pos (memcpy v (ds_data_size (w_ds w))) l) ∧
    ds_capacity (w_ds w') = ds_capacity (w_ds w).
Proof.
  intros Hty Hwf Hl Hfree Hpos.
  assert (Hv : wf_vector (w_ds w))
    by (unfold wf in Hwf; by rewrite Hty in Hwf).
  split.
  { unfold lds_insert, ds_insert. rewrite Hty.
    destruct (_ || _); [done|].
    by rewrite !insert_element_in_vector_alloc_irrelevant by lia. }
  destruct (vector_insert w l pos v [] Hty Hv Hl Hpos)
    as (w' & Hins & _ & _ & Hc & _ & _ & _ & Hcap); [lia|].
  exists w'. split.
  { revert Hins. unfold lds_insert, ds_insert. rewrite Hty.
    destruct (_ || _); [done|].
    by rewrite !insert_element_in_vector_alloc_irrelevant by lia. }
  split; [done|]. rewrite Hcap. by rewrite decide_False by lia.
Qed.

Lemma insert_without_allocation_witness :
  lds_insert Ptr 1 (Some e40) (Mem junk4) ex_wrapped
    = lds_insert Ptr 1 (Some e40) NoMem ex_wrapped ∧
  ∃ w',
    lds_insert Ptr 1 (Some e40) NoMem ex_wrapped = Some (LDS_SUCCESS, w') ∧
    contents w' = Some (ref_insert 1 (memcpy e40 4) [e10; e20; e30]) ∧
    ds_capacity (w_ds w') = ds_capacity (w_ds ex_wrapped).
Proof.
  apply (insert_without_allocation ex_wrapped [e10; e20; e30] 1 e40
           (Mem junk4)).
  - reflexivity.
  - exact ex_wrapped_wf.
  - reflexivity.
  - simpl. lia.
  - simpl. lia.
Defined.

(** X8.  When memory is exhausted, an insert that needs it (on a full
    vector, and always on a list) returns [LDS_FAIL] without inserting
    anything: contents and size are as before.  The vector is left exactly
    as it was; on the list the iterator has already been driven to the
    position, and nothing else changed. *)
Theorem insert_out_of_memory (w : World) (l : list block) (pos : Z)
    (v : block) :
  wf w → contents w = Some l → 0 ≤ pos ≤ ds_size (w_ds w) →
  (ds_type (w_ds w) = LDS_VECTOR →
   ds_size (w_ds w) = ds_capacity (w_ds w)) →
  ∃ w',
    lds_insert Ptr pos (Some v) NoMem w = Some (LDS_FAIL, w') ∧
    wf w' ∧ contents w' = Some l ∧ lds_size Ptr w' = lds_size Ptr w ∧
    w_heap w' = w_heap w ∧
    (ds_type (w_ds w) = LDS_VECTOR → w' = w) ∧
    (ds_type (w_ds w) = LDS_LINKED_LIST →
     lds_it_position Ptr w' = Some pos ∧
     ∀ w'', lds_it_go Ptr pos w = Some (LDS_SUCCESS, w'') → w' = w'').
Proof.
  intros Hwf Hl Hpos Hfull.
  destruct (wf_cases _ Hwf) as [[Hty Hv]|[Hty [ns Hls]]].
  - exists w. unfold lds_insert, ds_insert. rewrite Hty.
    destruct (Z.gtb_spec pos (ds_size (w_ds w))); [lia|].
    destruct (Z.ltb_spec pos 0); [lia|]. simpl.
    rewrite insert_element_in_vector_NoMem by auto. simpl.
    rewrite with_ds_id. split_and!; try done.
  - destruct (list_insert_NoMem w ns pos v Hls Hpos) as [Hins Hwf1].
    destruct (list_go w ns pos Hls Hpos) as (Hgo & _ & Hp1 & Hs1 & _).
    eexists. split; [exact Hins|].
    split; [by eapply wf_of_list|].
    split; [by rewrite contents_move_cursor|].
    split; [done|]. split; [done|]. split; [intros ?; congruence|].
    intros _. split; [done|]. intros w'' Hgo'.
    unfold lds_it_go in Hgo'. rewrite Hty in Hgo'.
    destruct (Z.gtb_spec pos (ds_size (w_ds w))); [lia|]. congruence.
Qed.

Lemma insert_out_of_memory_witness :
  ∃ w',
    lds_insert Ptr 0 (Some e40) NoMem ex_list = Some (LDS_FAIL, w') ∧
    wf w' ∧ contents w' = Some [e10; e20; e30] ∧
    lds_size Ptr w' = lds_size Ptr ex_list ∧
    w_heap w' = w_heap ex_list ∧
    (ds_type (w_ds ex_list) = LDS_VECTOR → w' = ex_list) ∧
    (ds_type (w_ds ex_list) = LDS_LINKED_LIST →
     lds_it_position Ptr w' = Some 0 ∧
     ∀ w'', lds_it_go Ptr 0 ex_list = Some (LDS_SUCCESS, w'') → w' = w'').
Proof.
  apply (insert_out_of_memory ex_list [e10; e20; e30] 0 e40).
  - exact ex_list_wf.
  - reflexivity.
  - simpl. lia.
  - simpl. intros H. discriminate H.
Defined.

(** ** The loops of the callers *)

Lemma it_loop_spec fuel :
  ∀ w l,
    wf w → contents w = Some l →
    let pos := it_position (ds_iterator (w_ds w)) in
    0 ≤ pos ≤ ds_size (w_ds w) →
    ds_size (w_ds w) - pos < Z.of_nat fuel →
    ∃ w',
      it_loop fuel w = Done (drop (Z.to_nat pos) l, w') ∧
      wf w' ∧ contents w' = Some l ∧
      it_position (ds_iterator (w_ds w')) = ds_size (w_ds w) ∧
      ds_size (w_ds w') = ds_size (w_ds w) ∧
      w_heap w' = w_heap w.
Proof.
  induction fuel as [|fuel IH]; intros w l Hwf Hl pos Hpos Hfuel; [lia|].
  pose proof (wf_contents_length _ _ Hwf Hl) as Hlen. cbn [it_loop].
  destruct (decide (pos = ds_size (w_ds w))) as [Heq|Hne].
  - exists w. unfold lds_it_get. fold pos.
    rewrite (proj2 (Z.eqb_eq _ _) Heq). simpl.
    rewrite drop_ge by lia. done.
  - rewrite (wf_it_get w l Hwf Hl) by (fold pos; lia). cbn [run]. fold pos.
    destruct (lookup_lt_is_Some_2 l (Z.to_nat pos)) as [e He]; [lia|].
    rewrite He.
    destruct (wf_it_next w l Hwf Hl) as
      (w1 & Hnext & Hwf1 & Hl1 & Hp1 & Hs1 & _ & Hh1); [fold pos; lia|].
    rewrite Hnext. cbn [run]. fold pos in Hp1.
    destruct (IH w1 l Hwf1 Hl1) as (w' & Hloop & Hwf' & Hl' & Hp' & Hs' & Hh');
      [lia|lia|].
    rewrite Hloop, Hp1. exists w'.
    replace (Z.to_nat (pos + 1)) with (S (Z.to_nat pos)) by lia.
    rewrite (drop_S _ _ _ He). split_and!; try done; congruence.
Qed.

Lemma drain_spec fuel :
  ∀ w l e,
    wf w → contents w = Some l → (length l < fuel)%nat →
    ∃ w',
      drain fuel w e = Done (l, w') ∧ wf w' ∧ contents w' = Some [] ∧
      ds_size (w_ds w') = 0 ∧
      ds_type (w_ds w') = ds_type (w_ds w) ∧
      (ds_type (w_ds w) = LDS_VECTOR →
       ds_capacity (w_ds w') = ds_capacity (w_ds w)).
Proof.
  induction fuel as [|fuel IH]; intros w l e Hwf Hl Hfuel; [lia|].
  pose proof (wf_contents_length _ _ Hwf Hl) as Hlen.
  cbn [drain lds_empty].
  destruct l as [|x l]; simpl in Hlen.
  - rewrite <- Hlen. simpl. by exists w.
  - rewrite (proj2 (Z.eqb_neq (ds_size (w_ds w)) 0)) by lia.
    destruct (wf_remove w _ 0 Ptr Hwf Hl) as
      (w1 & Hrem & Hwf1 & Hty1 & _ & Hl1 & _ & Hc1); [lia|].
    unfold lds_stack_pop. rewrite Hrem. cbn [run lookup list_lookup default].
    simpl default.
    destruct (IH w1 l x Hwf1 Hl1) as (w' & Hd & Hwf' & Hl' & Hs' & Hty' & Hc');
      [simpl in Hfuel; lia|].
    change (ref_remove 0 (x :: l)) with l in Hl1.
    rewrite Hd. exists w'. split_and!; try done; try congruence.
    intros Hv. rewrite Hc', Hc1 by congruence. done.
Qed.

Lemma print_all_spec fuel :
  ∀ w l i e,
    wf w → contents w = Some l → 0 ≤ i ≤ ds_size (w_ds w) →
    ds_size (w_ds w) ≤ INT_MAX →
    ds_size (w_ds w) - i < Z.of_nat fuel →
    ∃ w',
      print_all fuel w i e = Done (drop (Z.to_nat i) l, w') ∧
      wf w' ∧ contents w' = Some l ∧
      ds_size (w_ds w') = ds_size (w_ds w).
Proof.
  induction fuel as [|fuel IH]; intros w l i e Hwf Hl Hi Hmax Hfuel; [lia|].
  pose proof (wf_contents_length _ _ Hwf Hl) as Hlen.
  cbn [print_all lds_size].
  destruct (Z.ltb_spec i (ds_size (w_ds w))) as [Hlt|Hge].
  - destruct (wf_get w l i Hwf Hl) as (w1 & Hget & Hwf1 & Hl1 & Hs1); [lia|].
    rewrite Hget. cbn [run].
    destruct (lookup_lt_is_Some_2 l (Z.to_nat i)) as [x Hx]; [lia|].
    rewrite Hx. simpl default.
    destruct (Z.ltb_spec INT_MAX (i + 1)); [lia|].
    destruct (IH w1 l (i + 1) x Hwf1 Hl1) as (w' & Hp & Hwf' & Hl' & Hs');
      [lia|lia|lia|].
    rewrite Hp. exists w'.
    replace (Z.to_nat (i + 1)) with (S (Z.to_nat i)) by lia.
    rewrite (drop_S _ _ _ Hx). split_and!; try done; congruence.
  - exists w. rewrite drop_ge by lia. done.
Qed.

(** X9.  The iterator loop of the header's example,
    [for (lds_it_reset(it); lds_it_get(it, &e) == LDS_SUCCESS;
    lds_it_next(it))], ends after as many turns as there are elements, has
    visited exactly the elements in order, and leaves the elements as they
    were with the iterator after the last one. *)
Theorem it_for_each_visits_all (w : World) (l : list block) (fuel : nat) :
  wf w → contents w = Some l → (length l < fuel)%nat →
  ∃ w',
    it_for_each fuel w = Done (l, w') ∧
    contents w' = Some l ∧
    lds_it_position Ptr w' = Some (lds_size Ptr w) ∧
    lds_it_has_next Ptr w' = LDS_FAIL ∧
    w_heap w' = w_heap w.
Proof.
  intros Hwf Hl Hfuel. pose proof (wf_contents_length _ _ Hwf Hl) as Hlen.
  destruct (wf_it_reset w l Hwf Hl) as
    (w1 & Hreset & Hwf1 & Hl1 & Hp1 & Hs1 & _ & Hh1).
  unfold it_for_each. rewrite Hreset. simpl.
  destruct (it_loop_spec fuel w1 l Hwf1 Hl1) as
    (w' & Hloop & _ & Hl' & Hp' & Hs' & Hh'); [lia|lia|].
  rewrite Hp1 in Hloop. exists w'. split; [done|]. split; [done|].
  unfold lds_it_position, lds_it_has_next, lds_size. simpl.
  rewrite Hp', Hs', Hs1. split; [done|].
  split; [|congruence]. by rewrite Z.ltb_irrefl.
Qed.

Lemma it_for_each_visits_all_witness :
  ∃ w',
    it_for_each 4 ex_list = Done ([e10; e20; e30], w') ∧
    contents w' = Some [e10; e20; e30] ∧
    lds_it_position Ptr w' = Some (lds_size Ptr ex_list) ∧
    lds_it_has_next Ptr w' = LDS_FAIL ∧
    w_heap w' = w_heap ex_list.
Proof.
  apply (it_for_each_visits_all ex_list [e10; e20; e30] 4).
  - exact ex_list_wf.
  - reflexivity.
  - simpl. lia.
Defined.

(** X10.  The drain loop of the stack and queue samples,
    [while (!lds_empty(s)) { lds_stack_pop(s, &e); print(e); }], ends after
    as many turns as there are elements, prints them from the first to the
    last, and leaves the container empty; a vector keeps its capacity. *)
Theorem drain_empties (w : World) (l : list block) (e : block)
    (fuel : nat) :
  wf w → contents w = Some l → (length l < fuel)%nat →
  ∃ w',
    drain fuel w e = Done (l, w') ∧
    contents w' = Some [] ∧ lds_empty Ptr w' = true ∧
    (ds_type (w_ds w) = LDS_VECTOR →
     ds_capacity (w_ds w') = ds_capacity (w_ds w)).
Proof.
  intros Hwf Hl Hfuel.
  destruct (drain_spec fuel w l e Hwf Hl Hfuel) as
    (w' & Hd & _ & Hl' & Hs' & _ & Hc').
  exists w'. split_and!; try done. simpl. by rewrite Hs'.
Qed.

Lemma drain_empties_witness :
  ∃ w',
    drain 4 ex_wrapped junk4 = Done ([e10; e20; e30], w') ∧
    contents w' = Some [] ∧ lds_empty Ptr w' = true ∧
    (ds_type (w_ds ex_wrapped) = LDS_VECTOR →
     ds_capacity (w_ds w') = ds_capacity (w_ds ex_wrapped)).
Proof.
  apply (drain_empties ex_wrapped [e10; e20; e30] junk4 4).
  - exact ex_wrapped_wf.
  - reflexivity.
  - simpl. lia.
Defined.

(** X11.  The index loop of [samples/string_list.c],
    [for (i = 0; i < lds_size(l); i++) { lds_get(l, i, &x); print(x); }],
    prints exactly the elements in order and changes neither elements nor
    size, provided the size fits the [int] counter. *)
Theorem print_all_prints_contents (w : World) (l : list block) (e : block)
    (fuel : nat) :
  wf w → contents w = Some l → (length l < fuel)%nat →
  lds_size Ptr w ≤ INT_MAX →
  ∃ w',
    print_all fuel w 0 e = Done (l, w') ∧
    contents w' = Some l ∧ lds_size Ptr w' = lds_size Ptr w.
Proof.
  intros Hwf Hl Hfuel Hmax.
  pose proof (wf_contents_length _ _ Hwf Hl) as Hlen.
  destruct (print_all_spec fuel w l 0 e Hwf Hl) as
    (w' & Hp & _ & Hl' & Hs'); [lia|done|lia|].
  by exists w'.
Qed.

Lemma print_all_prints_contents_witness :
  ∃ w',
    print_all 4 ex_list 0 junk4 = Done ([e10; e20; e30], w') ∧
    contents w' = Some [e10; e20; e30] ∧
    lds_size Ptr w' = lds_size Ptr ex_list.
Proof.
  apply (print_all_prints_contents ex_list [e10; e20; e30] junk4 4).
  - exact ex_list_wf.
  - reflexivity.
  - simpl. lia.
  - vm_compute. discriminate.
Defined.

(** ** Releasing a container *)

Lemma free_list_loop_spec ns :
  ∀ fuel h p,
    seg h p ns None → NoDup ns.*1 → (length ns < fuel)%nat →
    ∃ h',
      free_list_loop fuel h p = Done h' ∧
      ∀ k, h' !! k = if decide (k ∈ ns.*1) then None else h !! k.
Proof.
  induction ns as [|[l b] ns IH]; intros fuel h p Hseg Hnd Hfuel;
    (destruct fuel as [|fuel]; [simpl in Hfuel; lia|]);
    simpl in Hseg, Hfuel; cbn [free_list_loop].
  - subst p. exists h. split; [done|]. intros k.
    by rewrite decide_False by apply not_elem_of_nil.
  - destruct Hseg as (-> & nx & Hl & Hseg). rewrite Hl. cbn [run node_next].
    rewrite fmap_cons in Hnd |- *. cbn [fst] in *.
    apply NoDup_cons in Hnd as [Hnin Hnd].
    destruct (IH fuel (delete l h) nx) as (h' & Hloop & Hh');
      [by apply seg_delete_ne|done|lia|].
    exists h'. split; [done|]. intros k. rewrite Hh'.
    destruct (decide (k = l)) as [->|Hne].
    + rewrite decide_False by done.
      rewrite decide_True by (apply elem_of_cons; by left).
      apply lookup_delete_eq.
    + rewrite lookup_delete_ne by done.
      destruct (decide (k ∈ ns.*1)).
      * by rewrite decide_True by (apply elem_of_cons; by right).
      * rewrite decide_False; [done|].
        intros [?|?]%elem_of_cons; done.
Qed.

Lemma seg_unique h ns :
  ∀ p ns', seg h p ns None → seg h p ns' None → ns = ns'.
Proof.
  induction ns as [|[l b] ns IH]; intros p [|[l' b'] ns']; simpl; try done.
  - intros -> [? _]. done.
  - intros [-> _] ?. done.
  - intros (-> & nx & Hl & Hseg) (Heq & nx' & Hl' & Hseg').
    injection Heq as <-. rewrite Hl in Hl'. injection Hl' as <- <-.
    f_equal. by eapply IH.
Qed.

(** X12.  [lds_free] on a well-formed container ends (on a list after one
    turn of [free_list] per element) without touching freed memory.  For a
    vector the node heap is not involved; for a list every node of the chain
    is released, exactly those, and every other allocation is left as it
    was. *)
Theorem lds_free_releases (w : World) (ndebug : bool) (fuel : nat) :
  wf w → ds_size (w_ds w) < Z.of_nat fuel →
  ∃ h',
    lds_free ndebug fuel Ptr w = Done h' ∧
    (ds_type (w_ds w) = LDS_VECTOR → h' = w_heap w) ∧
    (∀ ns, wf_list_with w ns →
       ∀ k, h' !! k = if decide (k ∈ ns.*1) then None else w_heap w !! k).
Proof.
  intros Hwf Hfuel. unfold lds_free.
  assert (Hdbg : print_debug ndebug Ptr w = Some tt) by by destruct ndebug.
  rewrite Hdbg. cbn [run].
  destruct (wf_cases _ Hwf) as [[Hty Hv]|[Hty [ns Hls]]]; rewrite Hty.
  - destruct Hv as [_ Hv]. destruct (ds_storage (w_ds w)) eqn:Hst; [|done].
    exists (w_heap w). split_and!; try done.
    intros ns [Hty' _]. congruence.
  - pose proof Hls as [_ Hls']. pose proof (wf_list_size _ _ Hls) as [Hlen _].
    destruct (ds_storage (w_ds w)) as [|first last_] eqn:Hst; [done|].
    destruct Hls' as (Hch & Hnd & _).
    destruct (free_list_loop_spec ns fuel (w_heap w) first Hch Hnd)
      as (h' & Hloop & Hh'); [lia|].
    exists h'. split; [done|]. split; [intros ?; congruence|].
    intros ns' [_ Hls'']. rewrite Hst in Hls''. destruct Hls'' as [Hch' _].
    by rewrite <- (seg_unique _ _ _ _ Hch Hch').
Qed.

Lemma lds_free_releases_witness :
  ∃ h',
    lds_free false 4 Ptr ex_list = Done h' ∧
    (ds_type (w_ds ex_list) = LDS_VECTOR → h' = w_heap ex_list) ∧
    (∀ ns, wf_list_with ex_list ns →
       ∀ k, h' !! k =
            if decide (k ∈ ns.*1) then None else w_heap ex_list !! k).
Proof.
  apply (lds_free_releases ex_list false 4).
  - exact ex_list_wf.
  - simpl. lia.
Defined.

(** X13.  [lds_free] with a null pointer does nothing only in a build with
    [NDEBUG]: otherwise its debug print reads [ds->debug_log] before the
    null check is reached, which is a null dereference. *)
Theorem lds_free_null (fuel : nat) (w : World) :
  lds_free true fuel NULL w = Done (w_heap w) ∧
  lds_free false fuel NULL w = Undefined.
Proof. done. Qed.

(** ** The iterator interface *)

Lemma it_eta (it : LDSIterator) :
  mkIt (it_position it) (it_current it) (it_previous it) = it.
Proof. by destruct it. Qed.

Lemma lds_it_go_list w ns k :
  wf_list_with w ns → 0 ≤ k ≤ ds_size (w_ds w) →
  lds_it_go Ptr k w = Some (LDS_SUCCESS, move_cursor w (cursor_for ns k)).
Proof.
  intros Hls Hk. unfold lds_it_go. rewrite (wf_list_type _ _ Hls).
  destruct (Z.gtb_spec k (ds_size (w_ds w))); [lia|].
  by apply it_go_in_list_spec.
Qed.

Lemma lds_it_go_vector w k :
  ds_type (w_ds w) = LDS_VECTOR → k ≤ ds_size (w_ds w) →
  lds_it_go Ptr k w =
    Some (LDS_SUCCESS,
          move_cursor w (mkIt k (it_current (ds_iterator (w_ds w)))
                                (it_previous (ds_iterator (w_ds w))))).
Proof.
  intros Hty Hk. unfold lds_it_go. rewrite Hty.
  by destruct (Z.gtb_spec k (ds_size (w_ds w))); [lia|].
Qed.

(** X14.  [lds_it_add] puts the value before the element under the cursor
    and leaves the cursor on the new element: the position is unchanged and
    [lds_it_get] returns the value just added.  With the cursor after the
    last element this appends. *)
Theorem it_add_then_get (w : World) (l : list block) (v junk : block) :
  wf w → contents w = Some l →
  0 ≤ it_position (ds_iterator (w_ds w)) ≤ ds_size (w_ds w) → room w →
  ∃ pos w',
    lds_it_position Ptr w = Some pos ∧
    lds_it_add Ptr (Some v) (Mem junk) w = Some (LDS_SUCCESS, w') ∧
    contents w' =
      Some (ref_insert pos (memcpy v (ds_data_size (w_ds w))) l) ∧
    lds_size Ptr w' = lds_size Ptr w + 1 ∧
    lds_it_position Ptr w' = Some pos ∧
    lds_it_get Ptr Ptr w' =
      Some (LDS_SUCCESS, Some (memcpy v (ds_data_size (w_ds w))), w') ∧
    (pos = lds_size Ptr w →
     contents w' = Some (l ++ [memcpy v (ds_data_size (w_ds w))])).
Proof.
  intros Hwf Hl Hpos Hroom.
  pose proof (wf_contents_length _ _ Hwf Hl) as Hlen.
  destruct (wf_it_add w l v (Mem junk) Hwf Hl Hpos Hroom) as
    (r & w' & Hadd & Hwf' & _ & _ & Hp' & Hr & Hres).
  rewrite (Hr ltac:(done)) in Hadd, Hres.
  destruct Hres as [(_ & Hc' & Hs')|[? _]]; [|done].
  exists (it_position (ds_iterator (w_ds w))), w'.
  split; [done|]. split; [done|]. split; [done|].
  split; [simpl; lia|]. split; [unfold lds_it_position; simpl; by rewrite Hp'|]. split.
  - rewrite (wf_it_get w' _ Hwf' Hc') by lia. rewrite Hp'.
    by rewrite ref_insert_lookup by lia.
  - simpl. intros Heq. rewrite Hc', Heq, <- Hlen. by rewrite ref_insert_end.
Qed.

Lemma it_add_then_get_witness :
  ∃ pos w',
    lds_it_position Ptr ex_list = Some pos ∧
    lds_it_add Ptr (Some e40) (Mem junk4) ex_list = Some (LDS_SUCCESS, w') ∧
    contents w' = Some (ref_insert pos (memcpy e40 4) [e10; e20; e30]) ∧
    lds_size Ptr w' = lds_size Ptr ex_list + 1 ∧
    lds_it_position Ptr w' = Some pos ∧
    lds_it_get Ptr Ptr w' = Some (LDS_SUCCESS, Some (memcpy e40 4), w') ∧
    (pos = lds_size Ptr ex_list →
     contents w' = Some ([e10; e20; e30] ++ [memcpy e40 4])).
Proof.
  apply (it_add_then_get ex_list [e10; e20; e30] e40 junk4).
  - exact ex_list_wf.
  - reflexivity.
  - simpl. lia.
  - vm_compute. reflexivity.
Defined.

(** X15.  With the cursor inside the container, [lds_it_has_next] tells
    what [lds_it_next] will do: when it answers [LDS_SUCCESS] the cursor
    advances by one and nothing else changes; otherwise the cursor is after
    the last element and [lds_it_next] returns [LDS_POS_ERR] and leaves
    everything as it is. *)
Theorem has_next_predicts_next (w : World) (l : list block) :
  wf w → contents w = Some l →
  0 ≤ it_position (ds_iterator (w_ds w)) ≤ ds_size (w_ds w) →
  ∃ r w',
    lds_it_next Ptr w = Some (r, w') ∧
    contents w' = Some l ∧ lds_size Ptr w' = lds_size Ptr w ∧
    (lds_it_has_next Ptr w = LDS_SUCCESS →
     r = LDS_SUCCESS ∧
     it_position (ds_iterator (w_ds w')) =
       it_position (ds_iterator (w_ds w)) + 1) ∧
    (lds_it_has_next Ptr w ≠ LDS_SUCCESS → r = LDS_POS_ERR ∧ w' = w).
Proof.
  intros Hwf Hl Hpos. unfold lds_it_has_next.
  destruct (Z.ltb_spec (it_position (ds_iterator (w_ds w)))
              (ds_size (w_ds w))) as [Hlt|Hge].
  - destruct (wf_it_next w l Hwf Hl) as
      (w' & Hnext & _ & Hl' & Hp' & Hs' & _); [lia|].
    exists LDS_SUCCESS, w'. by split_and!.
  - exists LDS_POS_ERR, w. unfold lds_it_next.
    rewrite (proj2 (Z.eqb_eq _ _)) by lia. by split_and!.
Qed.

Lemma has_next_predicts_next_witness :
  ∃ r w',
    lds_it_next Ptr ex_list = Some (r, w') ∧
    contents w' = Some [e10; e20; e30] ∧
    lds_size Ptr w' = lds_size Ptr ex_list ∧
    (lds_it_has_next Ptr ex_list = LDS_SUCCESS →
     r = LDS_SUCCESS ∧
     it_position (ds_iterator (w_ds w')) =
       it_position (ds_iterator (w_ds ex_list)) + 1) ∧
    (lds_it_has_next Ptr ex_list ≠ LDS_SUCCESS →
     r = LDS_POS_ERR ∧ w' = ex_list).
Proof.
  apply (has_next_predicts_next ex_list [e10; e20; e30]).
  - exact ex_list_wf.
  - reflexivity.
  - simpl. lia.
Defined.

(** X16.  [lds_it_set] overwrites the element under the cursor and nothing
    else, without moving the cursor; [lds_it_get] then returns the value
    written.  It answers [LDS_FAIL], changing nothing, exactly when the
    element already had that value. *)
Theorem it_set_then_get (w : World) (l : list block) (v old : block) :
  wf w → contents w = Some l →
  0 ≤ it_position (ds_iterator (w_ds w)) < ds_size (w_ds w) →
  l !! Z.to_nat (it_position (ds_iterator (w_ds w))) = Some old →
  ∃ r w',
    lds_it_set Ptr (Some v) w = Some (r, w') ∧
    (r = LDS_FAIL ∧ memcpy v (ds_data_size (w_ds w)) = old ∧ w' = w ∨
     r = LDS_SUCCESS ∧ memcpy v (ds_data_size (w_ds w)) ≠ old) ∧
    contents w' =
      Some (ref_set (it_position (ds_iterator (w_ds w)))
              (memcpy v (ds_data_size (w_ds w))) l) ∧
    lds_it_position Ptr w' = lds_it_position Ptr w ∧
    lds_it_get Ptr Ptr w' =
      Some (LDS_SUCCESS, Some (memcpy v (ds_data_size (w_ds w))), w').
Proof.
  intros Hwf Hl Hpos Hold.
  pose proof (wf_contents_length _ _ Hwf Hl) as Hlen.
  pose proof (wf_contents_elements _ _ _ _ Hwf Hl Hold) as Hold'.
  destruct (wf_it_set w l v old Hwf Hl Hpos Hold) as
    (r & w' & Hset & Hwf' & Hs' & Hd' & Hp' & Hr & Hfail & Hc').
  assert (Hcmp : memcmp_eq v old (ds_data_size (w_ds w)) =
                 bool_decide (memcpy v (ds_data_size (w_ds w)) = old)).
  { unfold memcmp_eq.
    change (take (Z.to_nat (ds_data_size (w_ds w))) old)
      with (memcpy old (ds_data_size (w_ds w))).
    by rewrite Hold'. }
  rewrite Hcmp in Hr, Hc'. exists r, w'. split; [done|].
  case_bool_decide as Heq.
  - split; [left; split_and!; [done|done|by apply Hfail]|].
    split.
    { rewrite Hc', Heq. unfold ref_set. f_equal. symmetry.
      by apply list_insert_id. }
    split; [unfold lds_it_position; simpl; by rewrite Hp'|].
    rewrite (wf_it_get w' _ Hwf' Hc') by lia. by rewrite Hp', Hold, Heq.
  - split; [by right|]. split; [done|].
    split; [unfold lds_it_position; simpl; by rewrite Hp'|].
    rewrite (wf_it_get w' _ Hwf' Hc') by lia. rewrite Hp'.
    unfold ref_set. by rewrite list_lookup_insert_eq by lia.
Qed.

Lemma it_set_then_get_witness :
  ∃ r w',
    lds_it_set Ptr (Some e40) ex_list = Some (r, w') ∧
    (r = LDS_FAIL ∧ memcpy e40 (ds_data_size (w_ds ex_list)) = e30 ∧
       w' = ex_list ∨
     r = LDS_SUCCESS ∧ memcpy e40 (ds_data_size (w_ds ex_list)) ≠ e30) ∧
    contents w' =
      Some (ref_set (it_position (ds_iterator (w_ds ex_list)))
              (memcpy e40 (ds_data_size (w_ds ex_list))) [e10; e20; e30]) ∧
    lds_it_position Ptr w' = lds_it_position Ptr ex_list ∧
    lds_it_get Ptr Ptr w' =
      Some (LDS_SUCCESS, Some (memcpy e40 (ds_data_size (w_ds ex_list))), w').
Proof.
  apply (it_set_then_get ex_list [e10; e20; e30] e40 e30).
  - exact ex_list_wf.
  - reflexivity.
  - simpl. lia.
  - reflexivity.
Defined.

(** X17.  With the cursor after the last element (always the case on an
    empty container) there is no current element: [lds_it_get],
    [lds_it_set], [lds_it_remove] and [lds_it_next] return [LDS_POS_ERR]
    and change nothing, and [lds_it_has_next] answers [LDS_FAIL]. *)
Theorem cursor_after_last (w : World) (v : block) (out : ptr) :
  it_position (ds_iterator (w_ds w)) = ds_size (w_ds w) →
  lds_it_get Ptr Ptr w = Some (LDS_POS_ERR, None, w) ∧
  lds_it_set Ptr (Some v) w = Some (LDS_POS_ERR, w) ∧
  lds_it_remove Ptr out w = Some (LDS_POS_ERR, None, w) ∧
  lds_it_next Ptr w = Some (LDS_POS_ERR, w) ∧
  lds_it_has_next Ptr w = LDS_FAIL.
Proof.
  intros Heq.
  unfold lds_it_get, lds_it_set, lds_it_remove, lds_it_next,
    lds_it_has_next.
  rewrite Heq, Z.eqb_refl, Z.ltb_irrefl. done.
Qed.

Lemma cursor_after_last_witness :
  lds_it_get Ptr Ptr ex_new_list = Some (LDS_POS_ERR, None, ex_new_list) ∧
  lds_it_set Ptr (Some e10) ex_new_list = Some (LDS_POS_ERR, ex_new_list) ∧
  lds_it_remove Ptr Ptr ex_new_list
    = Some (LDS_POS_ERR, None, ex_new_list) ∧
  lds_it_next Ptr ex_new_list = Some (LDS_POS_ERR, ex_new_list) ∧
  lds_it_has_next Ptr ex_new_list = LDS_FAIL.
Proof.
  apply (cursor_after_last ex_new_list e10 Ptr).
  reflexivity.
Defined.

Lemma ref_remove_lookup (l : list block) pos :
  0 ≤ pos < Z.of_nat (length l) →
  ref_remove pos l !! Z.to_nat pos = l !! Z.to_nat (pos + 1).
Proof.
  intros Hpos. unfold ref_remove.
  rewrite lookup_app_r by (rewrite length_take; lia).
  rewrite length_take, lookup_drop. f_equal. lia.
Qed.

(** X18.  [lds_it_remove] takes out the element under the cursor and hands
    it back; the cursor keeps its position, where the following element now
    stands: [lds_it_get] returns it, or [LDS_POS_ERR] when the removed
    element was the last. *)
Theorem it_remove_then_get (w : World) (l : list block) (out : ptr) :
  wf w → contents w = Some l →
  0 ≤ it_position (ds_iterator (w_ds w)) < ds_size (w_ds w) →
  ∃ pos w',
    lds_it_position Ptr w = Some pos ∧
    lds_it_remove Ptr out w =
      Some (LDS_SUCCESS,
            match out with Ptr => l !! Z.to_nat pos | NULL => None end,
            w') ∧
    contents w' = Some (ref_remove pos l) ∧
    lds_size Ptr w' = lds_size Ptr w - 1 ∧
    lds_it_position Ptr w' = Some pos ∧
    lds_it_get Ptr Ptr w' =
      Some (if pos + 1 <? lds_size Ptr w
            then (LDS_SUCCESS, l !! Z.to_nat (pos + 1), w')
            else (LDS_POS_ERR, None, w')).
Proof.
  intros Hwf Hl Hpos.
  pose proof (wf_contents_length _ _ Hwf Hl) as Hlen.
  destruct (wf_it_remove w l out Hwf Hl Hpos) as
    (w' & Hrem & Hwf' & Hc' & Hs' & Hp').
  exists (it_position (ds_iterator (w_ds w))), w'.
  split; [done|]. split; [done|]. split; [done|]. split; [done|].
  split; [unfold lds_it_position; simpl; by rewrite Hp'|].
  cbn [lds_size].
  destruct (Z.ltb_spec (it_position (ds_iterator (w_ds w)) + 1)
              (ds_size (w_ds w))).
  - rewrite (wf_it_get w' _ Hwf' Hc') by lia. rewrite Hp'.
    by rewrite ref_remove_lookup by lia.
  - unfold lds_it_get. by rewrite (proj2 (Z.eqb_eq _ _)) by lia.
Qed.

Lemma it_remove_then_get_witness :
  ∃ pos w',
    lds_it_position Ptr ex_list = Some pos ∧
    lds_it_remove Ptr Ptr ex_list =
      Some (LDS_SUCCESS, [e10; e20; e30] !! Z.to_nat pos, w') ∧
    contents w' = Some (ref_remove pos [e10; e20; e30]) ∧
    lds_size Ptr w' = lds_size Ptr ex_list - 1 ∧
    lds_it_position Ptr w' = Some pos ∧
    lds_it_get Ptr Ptr w' =
      Some (if pos + 1 <? lds_size Ptr ex_list
            then (LDS_SUCCESS, [e10; e20; e30] !! Z.to_nat (pos + 1), w')
            else (LDS_POS_ERR, None, w')).
Proof.
  apply (it_remove_then_get ex_list [e10; e20; e30] Ptr).
  - exact ex_list_wf.
  - reflexivity.
  - simpl. lia.
Defined.

(** X19.  Reading through the container does not lose the iterator: after
    [lds_get] at any position (which on a list drags the iterator there),
    [lds_it_go] to the position saved before puts the whole state back as
    it was.  This is what the test helper [verificar] relies on. *)
Theorem get_then_go_back (w : World) (l : list block) (pos : Z) :
  wf w → contents w = Some l → 0 ≤ pos < ds_size (w_ds w) →
  0 ≤ it_position (ds_iterator (w_ds w)) ≤ ds_size (w_ds w) →
  ∃ p x w1,
    lds_it_position Ptr w = Some p ∧
    lds_get Ptr pos Ptr w = Some (LDS_SUCCESS, Some x, w1) ∧
    l !! Z.to_nat pos = Some x ∧
    (ds_type (w_ds w) = LDS_LINKED_LIST →
     lds_it_position Ptr w1 = Some pos) ∧
    lds_it_go Ptr p w1 = Some (LDS_SUCCESS, w).
Proof.
  intros Hwf Hl Hpos Hcur.
  pose proof (wf_contents_length _ _ Hwf Hl) as Hlen.
  destruct (lookup_lt_is_Some_2 l (Z.to_nat pos)) as [x Hx]; [lia|].
  exists (it_position (ds_iterator (w_ds w))), x.
  destruct (wf_cases _ Hwf) as [[Hty Hv]|[Hty [ns Hls]]].
  - exists w. split; [done|].
    rewrite (vector_get w l pos Hty Hv Hl Hpos), Hx.
    split; [done|]. split; [done|]. split; [intros ?; congruence|].
    rewrite lds_it_go_vector by (done || lia).
    by rewrite it_eta, move_cursor_id.
  - destruct (list_get w ns pos Hls Hpos) as [Hget Hls1].
    rewrite (contents_list _ _ Hls) in Hl. injection Hl as <-.
    rewrite Hget, Hx. eexists. split; [done|]. split; [done|].
    split; [done|]. split; [done|].
    rewrite (lds_it_go_list _ ns) by (done || (simpl; lia)).
    by rewrite move_cursor_twice, wf_list_cursor.
Qed.

Lemma get_then_go_back_witness :
  ∃ p x w1,
    lds_it_position Ptr ex_list = Some p ∧
    lds_get Ptr 0 Ptr ex_list = Some (LDS_SUCCESS, Some x, w1) ∧
    [e10; e20; e30] !! Z.to_nat 0 = Some x ∧
    (ds_type (w_ds ex_list) = LDS_LINKED_LIST →
     lds_it_position Ptr w1 = Some 0) ∧
    lds_it_go Ptr p w1 = Some (LDS_SUCCESS, ex_list).
Proof.
  apply (get_then_go_back ex_list [e10; e20; e30] 0).
  - exact ex_list_wf.
  - reflexivity.
  - simpl. lia.
  - simpl. lia.
Defined.

(** X20.  Where [lds_it_go] arrives does not depend on where it starts: on
    the list it walks forward from the cursor or restarts from the first
    node, and either way going to [k2] after a detour to [k1] gives the
    state that going to [k2] directly gives.  [lds_it_reset] is
    [lds_it_go] to position 0. *)
Theorem go_is_path_independent (w : World) (k1 k2 : Z) :
  wf w → 0 ≤ k1 ≤ ds_size (w_ds w) → 0 ≤ k2 ≤ ds_size (w_ds w) →
  ∃ w1 w2,
    lds_it_go Ptr k1 w = Some (LDS_SUCCESS, w1) ∧
    lds_it_go Ptr k2 w = Some (LDS_SUCCESS, w2) ∧
    lds_it_go Ptr k2 w1 = Some (LDS_SUCCESS, w2) ∧
    lds_it_position Ptr w2 = Some k2 ∧
    lds_it_reset Ptr w = lds_it_go Ptr 0 w.
Proof.
  intros Hwf Hk1 Hk2.
  destruct (wf_cases _ Hwf) as [[Hty Hv]|[Hty [ns Hls]]].
  - set (c := it_current (ds_iterator (w_ds w))).
    set (p := it_previous (ds_iterator (w_ds w))).
    exists (move_cursor w (mkIt k1 c p)), (move_cursor w (mkIt k2 c p)).
    split; [apply lds_it_go_vector; [done|lia]|].
    split; [apply lds_it_go_vector; [done|lia]|].
    split; [by rewrite lds_it_go_vector by (done || (simpl; lia))|].
    split; [done|].
    unfold lds_it_reset, lds_it_go. rewrite Hty.
    by destruct (Z.gtb_spec 0 (ds_size (w_ds w))); [lia|].
  - exists (move_cursor w (cursor_for ns k1)),
      (move_cursor w (cursor_for ns k2)).
    split; [apply lds_it_go_list; [done|lia]|].
    split; [apply lds_it_go_list; [done|lia]|].
    split.
    { rewrite (lds_it_go_list _ ns); [done| |simpl; lia].
      apply wf_list_move_cursor; [done|lia]. }
    split; [done|].
    rewrite (lds_it_go_list _ ns) by (done || lia).
    unfold lds_it_reset. rewrite Hty. unfold it_reset_in_list.
    pose proof Hls as [_ Hls']. unfold move_cursor.
    destruct (ds_storage (w_ds w)) as [|first last_]; [done|].
    destruct Hls' as [Hch _]. by rewrite (cursor_for_0 _ _ _ Hch).
Qed.

Lemma go_is_path_independent_witness :
  ∃ w1 w2,
    lds_it_go Ptr 3 ex_list = Some (LDS_SUCCESS, w1) ∧
    lds_it_go Ptr 1 ex_list = Some (LDS_SUCCESS, w2) ∧
    lds_it_go Ptr 1 w1 = Some (LDS_SUCCESS, w2) ∧
    lds_it_position Ptr w2 = Some 1 ∧
    lds_it_reset Ptr ex_list = lds_it_go Ptr 0 ex_list.
Proof.
  apply (go_is_path_independent ex_list 3 1).
  - exact ex_list_wf.
  - simpl. lia.
  - simpl. lia.
Defined.

(** ** Writing and reading back, and the size *)

Lemma memcmp_eq_same v n : memcmp_eq v (memcpy v n) n = true.
Proof.
  rewrite memcmp_eq_memcpy. unfold memcmp_eq. by apply bool_decide_eq_true.
Qed.

(** X21.  What [lds_set] writes is what [lds_get] reads at that position,
    the other elements are untouched, and writing the same value again is
    answered with [LDS_FAIL] (no change). *)
Theorem write_then_read (w : World) (l : list block) (pos : Z) (v : block) :
  wf w → contents w = Some l → 0 ≤ pos < ds_size (w_ds w) →
  ∃ r w1 w2 w3,
    lds_set Ptr pos (Some v) w = Some (r, w1) ∧
    contents w1 =
      Some (ref_set pos (memcpy v (ds_data_size (w_ds w))) l) ∧
    lds_get Ptr pos Ptr w1 =
      Some (LDS_SUCCESS, Some (memcpy v (ds_data_size (w_ds w))), w2) ∧
    lds_set Ptr pos (Some v) w2 = Some (LDS_FAIL, w3) ∧
    contents w3 =
      Some (ref_set pos (memcpy v (ds_data_size (w_ds w))) l) ∧
    lds_size Ptr w3 = lds_size Ptr w.
Proof.
  intros Hwf Hl Hpos.
  pose proof (wf_contents_length _ _ Hwf Hl) as Hlen.
  destruct (lookup_lt_is_Some_2 l (Z.to_nat pos)) as [old Hold]; [lia|].
  pose proof (wf_contents_elements _ _ _ _ Hwf Hl Hold) as Hold'.
  destruct (wf_set w l pos v old Hwf Hl Hpos Hold) as
    (r & w1 & Hset & Hwf1 & _ & Hd1 & Hs1 & _ & _ & Hc1).
  set (v' := memcpy v (ds_data_size (w_ds w))) in *.
  assert (Hc1' : contents w1 = Some (ref_set pos v' l)).
  { rewrite Hc1. destruct (memcmp_eq v old _) eqn:Hcmp; [|done].
    unfold memcmp_eq in Hcmp. apply bool_decide_eq_true in Hcmp.
    change (memcpy v (ds_data_size (w_ds w))
            = memcpy old (ds_data_size (w_ds w))) in Hcmp.
    rewrite Hold' in Hcmp. fold v' in Hcmp. rewrite Hcmp.
    unfold ref_set. f_equal. symmetry. by apply list_insert_id. }
  assert (Hnew : ref_set pos v' l !! Z.to_nat pos = Some v').
  { unfold ref_set. apply list_lookup_insert_eq. lia. }
  destruct (wf_get w1 _ pos Hwf1 Hc1') as (w2 & Hget & Hwf2 & Hc2 & Hs2);
    [lia|].
  destruct (wf_set w2 _ pos v v' Hwf2 Hc2) as
    (r3 & w3 & Hset3 & _ & _ & _ & Hs3 & _ & Hr3 & Hc3); [lia|done|].
  assert (Hd2 : ds_data_size (w_ds w2) = ds_data_size (w_ds w)).
  { destruct (wf_cases _ Hwf1) as [[Hty Hv]|[Hty [ns Hls]]].
    - rewrite (vector_get w1 _ pos Hty Hv Hc1') in Hget by lia.
      injection Hget as <-. done.
    - destruct (list_get w1 ns pos Hls) as [Hget' _]; [lia|].
      rewrite Hget' in Hget. injection Hget as _ <-. done. }
  rewrite Hd2 in Hr3, Hc3. unfold v' in Hr3, Hc3 at 1.
  rewrite memcmp_eq_same in Hr3, Hc3. subst r3.
  exists r, w1, w2, w3. rewrite Hget, Hnew. split_and!; try done.
  simpl. lia.
Qed.

Lemma write_then_read_witness :
  ∃ r w1 w2 w3,
    lds_set Ptr 1 (Some e40) ex_wrapped = Some (r, w1) ∧
    contents w1 = Some (ref_set 1 (memcpy e40 4) [e10; e20; e30]) ∧
    lds_get Ptr 1 Ptr w1 = Some (LDS_SUCCESS, Some (memcpy e40 4), w2) ∧
    lds_set Ptr 1 (Some e40) w2 = Some (LDS_FAIL, w3) ∧
    contents w3 = Some (ref_set 1 (memcpy e40 4) [e10; e20; e30]) ∧
    lds_size Ptr w3 = lds_size Ptr ex_wrapped.
Proof.
  apply (write_then_read ex_wrapped [e10; e20; e30] 1 e40).
  - exact ex_wrapped_wf.
  - reflexivity.
  - simpl. lia.
Defined.



(** X23.  With a null container the stack and queue functions return
    [LDS_NULL] and touch nothing, and [lds_empty] answers false, with one
    exception: [lds_enqueue] goes through [lds_insert_last], which reads
    [ds->size] before any check, so it dereferences the null pointer. *)
Theorem stack_queue_null (w : World) (v : option block) (a : alloc)
    (out : ptr) :
  lds_stack_push NULL v a w = Some (LDS_NULL, w) ∧
  lds_stack_pop NULL out w = Some (LDS_NULL, None, w) ∧
  lds_stack_peek NULL out w = Some (LDS_NULL, None, w) ∧
  lds_dequeue NULL out w = Some (LDS_NULL, None, w) ∧
  lds_queue_front NULL out w = Some (LDS_NULL, None, w) ∧
  lds_empty NULL w = false ∧
  lds_enqueue NULL v a w = None.
Proof. done. Qed.



(** ** No node is leaked *)




Lemma lds_insert_list w ns pos v a :
  wf_list_with w ns → 0 ≤ pos ≤ ds_size (w_ds w) →
  lds_insert Ptr pos (Some v) a w =
    it_add_in_list (move_cursor w (cursor_for ns pos)) v a.
Proof.
  intros Hwf Hpos. destruct (list_go w ns pos Hwf Hpos) as [Hgo _].
  unfold lds_insert, ds_insert. rewrite (wf_list_type _ _ Hwf).
  destruct (Z.gtb_spec pos (ds_size (w_ds w))); [lia|].
  destruct (Z.ltb_spec pos 0); [lia|]. simpl.
  unfold insert_element_in_list. by rewrite Hgo.
Qed.

Lemma lds_remove_list w ns pos out :
  wf_list_with w ns → 0 ≤ pos < ds_size (w_ds w) →
  lds_remove Ptr pos out w =
    it_remove_from_list (move_cursor w (cursor_for ns pos)) out.
Proof.
  intros Hwf Hpos. destruct (list_go w ns pos Hwf) as [Hgo _]; [lia|].
  unfold lds_remove, ds_remove. rewrite (wf_list_type _ _ Hwf).
  destruct (Z.geb_spec pos (ds_size (w_ds w))); [lia|].
  destruct (Z.ltb_spec pos 0); [lia|]. simpl.
  unfold remove_element_from_list. by rewrite Hgo.
Qed.

Lemma lds_set_list w ns pos v :
  wf_list_with w ns → 0 ≤ pos < ds_size (w_ds w) →
  lds_set Ptr pos (Some v) w =
    it_set_in_list (move_cursor w (cursor_for ns pos)) v.
Proof.
  intros Hwf Hpos. destruct (list_go w ns pos Hwf) as [Hgo _]; [lia|].
  unfold lds_set, ds_set. rewrite (wf_list_type _ _ Hwf).
  destruct (Z.geb_spec pos (ds_size (w_ds w))); [lia|].
  destruct (Z.ltb_spec pos 0); [lia|]. simpl.
  unfold set_element_in_list. by rewrite Hgo.
Qed.













(** ** Direct calls and the iterator *)

(** X26.  The iterator is shared with the direct calls.  On a list every
    [lds_insert], [lds_remove] and [lds_set] with valid arguments is carried
    out through the iterator and leaves it at the position of the call,
    whatever the call returns; on a vector the same calls leave the iterator
    alone. *)
Theorem direct_calls_and_iterator (dsz : Z) (w : World) (l : list block)
    (o : op) :
  wf w → contents w = Some l → valid_op dsz o l = true → room w →
  ∃ r w',
    run_op o w = Some (r, w') ∧
    (ds_type (w_ds w) = LDS_LINKED_LIST →
     lds_it_position Ptr w' = Some (op_position o)) ∧
    (ds_type (w_ds w) = LDS_VECTOR →
     ds_iterator (w_ds w') = ds_iterator (w_ds w)).
Proof.
  intros Hwf Hl Hv Hroom.
  pose proof (wf_contents_length _ _ Hwf Hl) as Hlen.
  unfold lds_it_position. cbn [deref_ds mbind option_bind].
  destruct (wf_cases _ Hwf) as [[Hty Hvec]|[Hty [ns Hls]]].
  - unfold room in Hroom. rewrite Hty in Hroom.
    destruct o as [pos v a|pos out|pos v]; simpl in Hv;
      apply bool_decide_eq_true in Hv; cbn [run_op op_position].
    + destruct (vector_insert_any w l pos v a Hty Hvec Hl) as
        (r & w' & Hrun & _ & _ & _ & Hit & _); [lia|done|].
      exists r, w'. split; [done|]. split; [intros ?; congruence|done].
    + destruct (vector_remove w l pos out Hty Hvec Hl) as
        (w' & Hrun & _ & _ & _ & _ & _ & Hit & _); [lia|].
      exists LDS_SUCCESS, w'. rewrite Hrun.
      split; [done|]. split; [intros ?; congruence|done].
    + destruct (lookup_lt_is_Some_2 l (Z.to_nat pos)) as [old Hold]; [lia|].
      destruct (vector_set w l pos v old Hty Hvec Hl) as
        (w' & Hrun & _ & _ & _ & _ & _ & Hit & _); [lia|done|].
      rewrite Hrun. destruct (memcmp_eq _ _ _); eexists _, _;
        (split; [done|]); (split; [intros ?; congruence|done]).
  - unfold room in Hroom. rewrite Hty in Hroom.
    destruct o as [pos v a|pos out|pos v]; simpl in Hv;
      apply bool_decide_eq_true in Hv; cbn [run_op op_position].
    + destruct (list_go w ns pos Hls) as (_ & Hwf1 & Hp1 & Hs1 & _); [lia|].
      rewrite (lds_insert_list w ns) by (done || lia).
      destruct a as [|junk].
      * eexists _, _. split; [done|]. split; [done|intros ?; congruence].
      * destruct (it_add_in_list_spec _ ns v junk Hwf1) as
          (w' & Hadd & _ & Hp' & _); [by rewrite Hs1|].
        rewrite Hadd. eexists _, _. split; [done|].
        split; [intros _; by rewrite Hp', Hp1|intros ?; congruence].
    + destruct (list_go w ns pos Hls) as (_ & Hwf1 & Hp1 & Hs1 & _); [lia|].
      rewrite (lds_remove_list w ns) by (done || lia).
      destruct (lookup_lt_is_Some_2 ns (Z.to_nat pos)) as [[a b] Hab].
      { destruct (wf_list_size _ _ Hls). lia. }
      destruct (it_remove_from_list_spec _ ns out a b Hwf1)
        as (w' & Hrem & _ & Hp' & _); [by rewrite Hp1|].
      rewrite Hrem. eexists _, _. split; [done|].
      split; [intros _; by rewrite Hp', Hp1|intros ?; congruence].
    + destruct (list_go w ns pos Hls) as (_ & Hwf1 & Hp1 & Hs1 & _); [lia|].
      rewrite (lds_set_list w ns) by (done || lia).
      destruct (lookup_lt_is_Some_2 ns (Z.to_nat pos)) as [[a b] Hab].
      { destruct (wf_list_size _ _ Hls). lia. }
      destruct (it_set_in_list_spec _ ns v a b Hwf1)
        as (w' & Hset & _ & Hds'); [by rewrite Hp1|].
      rewrite Hset. destruct (memcmp_eq _ _ _); eexists _, _;
        (split; [done|]);
        (split; [intros _; by rewrite ?Hds', Hp1|intros ?; congruence]).
Qed.

Lemma direct_calls_and_iterator_witness :
  ∃ r w',
    run_op (Remove 0 Ptr) ex_list = Some (r, w') ∧
    (ds_type (w_ds ex_list) = LDS_LINKED_LIST →
     lds_it_position Ptr w' = Some (op_position (Remove 0 Ptr))) ∧
    (ds_type (w_ds ex_list) = LDS_VECTOR →
     ds_iterator (w_ds w') = ds_iterator (w_ds ex_list)).
Proof.
  apply (direct_calls_and_iterator 4 ex_list [e10; e20; e30] (Remove 0 Ptr)).
  - exact ex_list_wf.
  - reflexivity.
  - reflexivity.
  - vm_compute. reflexivity.
Defined.
